(** * Cursor agent proxy: wire codec, tool bridge, session stream and token expiry

    A shallow embedding of the TypeScript sources of the proxy, and the
    properties of its specification proved (or refuted) over it.

    Conventions of the embedding
    - a JavaScript [number] holding an integer and a [bigint] are both [Z];
      the 32-bit operators [<<] and [|] on numbers wrap as in JavaScript;
    - a [Uint8Array] is a [list Z] of values in [0, 256);
    - a JavaScript string is the list of its UTF-16 code units;
    - [undefined]/[null]/a missing property are [None];
    - a function that may throw returns a [Result]. *)

From Stdlib Require Import ZArith List Lia Bool String Ascii.
From stdpp Require Import base option list gmap pretty.
From Equations Require Import Equations.
Import ListNotations.

Set Warnings "-register-all".
Local Open Scope Z_scope.

(* ===================================================================== *)
(** * Part I.  Definitions                                                *)
(* ===================================================================== *)

(** ** Byte arrays and strings *)

Definition bytes := list Z.
Definition jsstring := list Z.

(** An ASCII literal as a JavaScript string. *)
Definition js (s : string) : jsstring :=
  List.map (fun a => Z.of_nat (nat_of_ascii a)) (list_ascii_of_string s).

Definition jsstring_eqb (a b : jsstring) : bool := bool_decide (a = b).

(** ** JavaScript 32-bit integer operators on numbers *)

Definition toInt32 (z : Z) : Z := (z + 2 ^ 31) mod 2 ^ 32 - 2 ^ 31.

(** [a << b] *)
Definition js_shl (a b : Z) : Z := toInt32 (Z.shiftl (toInt32 a) (Z.land b 31)).

(** [a | b] *)
Definition js_or (a b : Z) : Z := Z.lor (toInt32 a) (toInt32 b).

(** ** Platform text codecs

    [new TextEncoder().encode(s)]: the UTF-8 bytes of a UTF-16 string; an
    unpaired surrogate becomes U+FFFD. *)

Definition isHighSurrogate (c : Z) : bool := (0xD800 <=? c) && (c <=? 0xDBFF).
Definition isLowSurrogate (c : Z) : bool := (0xDC00 <=? c) && (c <=? 0xDFFF).

Definition utf8_of_codepoint (cp : Z) : bytes :=
  if cp <? 0x80 then [cp]
  else if cp <? 0x800 then
    [Z.lor 0xC0 (Z.shiftr cp 6); Z.lor 0x80 (Z.land cp 0x3F)]
  else if cp <? 0x10000 then
    [Z.lor 0xE0 (Z.shiftr cp 12);
     Z.lor 0x80 (Z.land (Z.shiftr cp 6) 0x3F);
     Z.lor 0x80 (Z.land cp 0x3F)]
  else
    [Z.lor 0xF0 (Z.shiftr cp 18);
     Z.lor 0x80 (Z.land (Z.shiftr cp 12) 0x3F);
     Z.lor 0x80 (Z.land (Z.shiftr cp 6) 0x3F);
     Z.lor 0x80 (Z.land cp 0x3F)].

Fixpoint TextEncoder_encode (s : jsstring) : bytes :=
  match s with
  | [] => []
  | c :: rest =>
    if isHighSurrogate c then
      match rest with
      | d :: rest' =>
        if isLowSurrogate d then
          utf8_of_codepoint (0x10000 + (c - 0xD800) * 0x400 + (d - 0xDC00))
            ++ TextEncoder_encode rest'
        else utf8_of_codepoint 0xFFFD ++ TextEncoder_encode rest
      | [] => utf8_of_codepoint 0xFFFD
      end
    else if isLowSurrogate c then utf8_of_codepoint 0xFFFD ++ TextEncoder_encode rest
    else utf8_of_codepoint c ++ TextEncoder_encode rest
  end.

(** ** Wire codec

    The encoders of the proto modules, in the copy that the verification
    script of the repository carries; the varint reader is the one of its
    [analyzeProtoBytes]. *)

Module Codec.

(** [encodeVarint]: the [do ... while (v > 0n)] loop. *)
Equations? encodeVarint (v : Z) : bytes by wf (Z.to_nat (Z.log2 v)) lt :=
  encodeVarint v with Z_lt_dec 0 (Z.shiftr v 7) => {
    | left _ := Z.lor (Z.land v 0x7f) 0x80 :: encodeVarint (Z.shiftr v 7);
    | right _ := [Z.land v 0x7f] }.
Proof.
  assert (0 < v) as Hv.
  { destruct (Z_lt_dec 0 v) as [|Hn]; [assumption|exfalso].
    rewrite Z.shiftr_div_pow2 in * by lia.
    assert (v / 2 ^ 7 <= 0) by (apply Z.div_le_upper_bound; lia). lia. }
  rewrite Z.log2_shiftr by exact Hv.
  assert (7 <= Z.log2 v).
  { destruct (Z_le_dec 7 (Z.log2 v)) as [|Hn]; [assumption|exfalso].
    assert (v < 2 ^ 7) by (apply Z.log2_lt_pow2; lia).
    rewrite Z.shiftr_div_pow2, Z.div_small in * by lia. lia. }
  lia.
Qed.

Definition concatBytes (arrays : list bytes) : bytes := List.concat arrays.

Definition encodeFieldKey (fieldNumber wireType : Z) : bytes :=
  encodeVarint (js_or (js_shl fieldNumber 3) wireType).

Definition encodeUint32Field (fieldNumber value : Z) : bytes :=
  if value =? 0 then []
  else concatBytes [encodeFieldKey fieldNumber 0; encodeVarint value].

Definition encodeInt32Field (fieldNumber value : Z) : bytes :=
  if value =? 0 then []
  else concatBytes [encodeFieldKey fieldNumber 0;
                    encodeVarint (if 0 <=? value then value else value + 0x100000000)].

Definition encodeStringField (fieldNumber : Z) (value : jsstring) : bytes :=
  match value with
  | [] => []
  | _ =>
    let bytes := TextEncoder_encode value in
    concatBytes [encodeFieldKey fieldNumber 2;
                 encodeVarint (Z.of_nat (length bytes));
                 bytes]
  end.

Definition encodeMessageField (fieldNumber : Z) (message : bytes) : bytes :=
  concatBytes [encodeFieldKey fieldNumber 2;
               encodeVarint (Z.of_nat (length message));
               message].

(** [executionTimeMs ? ... : ...]: an optional number is truthy when present
    and non-zero. *)
Definition truthyNumber (n : option Z) : bool :=
  match n with Some k => negb (k =? 0) | None => false end.

Definition encodeShellSuccess (command cwd stdout stderr : jsstring)
    (exitCode : Z) (executionTimeMs : option Z) : bytes :=
  concatBytes
    [encodeStringField 1 command;
     encodeStringField 2 cwd;
     encodeInt32Field 3 exitCode;
     encodeStringField 4 [];
     encodeStringField 5 stdout;
     encodeStringField 6 stderr;
     if truthyNumber executionTimeMs
     then encodeInt32Field 7 (default 0 executionTimeMs) else []].

Definition encodeShellResult (command cwd stdout stderr : jsstring)
    (exitCode : Z) (executionTimeMs : option Z) : bytes :=
  let shellOutcome := encodeShellSuccess command cwd stdout stderr exitCode executionTimeMs in
  let resultField := if exitCode =? 0 then 1 else 2 in
  encodeMessageField resultField shellOutcome.

Definition buildExecClientMessageWithShellResult (id : Z) (execId : option jsstring)
    (shellResult : bytes) : bytes :=
  concatBytes
    ([encodeUint32Field 1 id]
     ++ match execId with
        | Some (c :: s) => [encodeStringField 15 (c :: s)]
        | _ => []
        end
     ++ [encodeMessageField 2 shellResult]).

Definition buildAgentClientMessageWithExec (execClientMessage : bytes) : bytes :=
  encodeMessageField 2 execClientMessage.

Definition encodeExecClientStreamClose (id : Z) : bytes := encodeUint32Field 1 id.

Definition buildExecClientControlMessage (id : Z) : bytes :=
  encodeMessageField 1 (encodeExecClientStreamClose id).

Definition buildAgentClientMessageWithExecControl (controlMessage : bytes) : bytes :=
  encodeMessageField 5 controlMessage.

Definition encodeBidiRequestId (requestId : jsstring) : bytes :=
  encodeStringField 1 requestId.

(** The varint branch of [analyzeProtoBytes]: [rest] is the array from
    [offset] on; the loop stops at the end of the array or after a byte
    without the continuation bit. *)
Fixpoint varintLoop (rest : bytes) (value shift : Z) (offset : nat) : Z * nat :=
  match rest with
  | [] => (value, offset)
  | byte :: rest' =>
    let value := Z.lor value (Z.shiftl (Z.land byte 0x7f) shift) in
    let shift := shift + 7 in
    let offset := S offset in
    if Z.land byte 0x80 =? 0 then (value, offset)
    else varintLoop rest' value shift offset
  end.

Definition analyzeProtoBytes_varint (bytes : bytes) (offset : nat) : Z * nat :=
  varintLoop (drop offset bytes) 0 0 offset.

End Codec.

(** ** The encoders of the comparison script

    [scripts/debug-proto-encoding.ts] carries its own copies of the encoders:
    the varint loop is written as a [while], and the field encoders emit a
    field whatever its value. *)

Module DebugScript.

(** [while (v > 0x7fn) { ... } result.push(Number(v & 0x7fn))] *)
Equations? encodeVarint (v : Z) : bytes by wf (Z.to_nat (Z.log2 v)) lt :=
  encodeVarint v with Z_lt_dec 0x7f v => {
    | left _ := Z.lor (Z.land v 0x7f) 0x80 :: encodeVarint (Z.shiftr v 7);
    | right _ := [Z.land v 0x7f] }.
Proof.
  rewrite Z.log2_shiftr by lia.
  assert (2 ^ 7 <= v) as Hle by lia.
  apply Z.log2_le_pow2 in Hle; lia.
Qed.

Definition concatBytes (arrays : list bytes) : bytes := List.concat arrays.

Definition encodeTagAndWireType (fieldNumber wireType : Z) : bytes :=
  encodeVarint (js_or (js_shl fieldNumber 3) wireType).

Definition encodeStringField (fieldNumber : Z) (value : jsstring) : bytes :=
  let encoded := TextEncoder_encode value in
  concatBytes [encodeTagAndWireType fieldNumber 2;
               encodeVarint (Z.of_nat (length encoded));
               encoded].

Definition encodeUint32Field (fieldNumber value : Z) : bytes :=
  concatBytes [encodeTagAndWireType fieldNumber 0; encodeVarint value].

Definition encodeMessageField (fieldNumber : Z) (message : bytes) : bytes :=
  concatBytes [encodeTagAndWireType fieldNumber 2;
               encodeVarint (Z.of_nat (length message));
               message].

(** [encodeMcpResult]: a failure when [error] is a non-empty string,
    otherwise the content wrapped as text block, content block, success. *)
Definition encodeMcpResult (success : option jsstring) (error : option jsstring) : bytes :=
  match error with
  | Some (c :: e) => encodeMessageField 2 (encodeStringField 1 (c :: e))
  | _ =>
    let textBlock := encodeStringField 1 (default [] success) in
    let contentBlock := encodeMessageField 1 textBlock in
    let mcpSuccess := encodeMessageField 1 contentBlock in
    encodeMessageField 1 mcpSuccess
  end.

End DebugScript.

(** ** Strings: the JavaScript string methods the sources use *)

Fixpoint startsWith (prefix s : jsstring) : bool :=
  match prefix, s with
  | [], _ => true
  | p :: prefix', c :: s' => (p =? c) && startsWith prefix' s'
  | _ :: _, [] => false
  end.

Fixpoint stripPrefix (prefix s : jsstring) : option jsstring :=
  match prefix, s with
  | [], _ => Some s
  | p :: prefix', c :: s' => if p =? c then stripPrefix prefix' s' else None
  | _ :: _, [] => None
  end.

(** [s.includes(sub)] *)
Fixpoint includes (sub s : jsstring) : bool :=
  startsWith sub s ||
  match s with
  | [] => false
  | _ :: s' => includes sub s'
  end.

(** [s.split(sep)] for a one-character separator: never the empty list. *)
Fixpoint split (sep : Z) (s : jsstring) : list jsstring :=
  match s with
  | [] => [[]]
  | c :: rest =>
    if c =? sep then [] :: split sep rest
    else match split sep rest with
         | seg :: segs => (c :: seg) :: segs
         | [] => [[c]]
         end
  end.

(** The line terminators, and the characters of the regular-expression
    class [\s] (which [String.prototype.trim] strips as well). *)
Definition isLineBreak (c : Z) : bool := (c =? 10) || (c =? 13).

Definition isSpace (c : Z) : bool :=
  ((9 <=? c) && (c <=? 13)) || (c =? 32) || (c =? 0xA0) || (c =? 0x1680)
  || ((0x2000 <=? c) && (c <=? 0x200A))
  || (c =? 0x2028) || (c =? 0x2029) || (c =? 0x202F) || (c =? 0x205F)
  || (c =? 0x3000) || (c =? 0xFEFF).

Fixpoint dropWhile {A} (f : A -> bool) (l : list A) : list A :=
  match l with
  | [] => []
  | x :: l' => if f x then dropWhile f l' else l
  end.

Fixpoint takeWhile {A} (f : A -> bool) (l : list A) : list A :=
  match l with
  | [] => []
  | x :: l' => if f x then x :: takeWhile f l' else []
  end.

Definition trim (s : jsstring) : jsstring :=
  rev (dropWhile isSpace (rev (dropWhile isSpace s))).

Definition isAlnum (c : Z) : bool :=
  ((97 <=? c) && (c <=? 122)) || ((65 <=? c) && (c <=? 90)) || ((48 <=? c) && (c <=? 57)).

(** A string is truthy when it is present and not empty. *)
Definition truthyString (s : option jsstring) : bool :=
  match s with Some (_ :: _) => true | _ => false end.

(** ** Platform text decoding

    [new TextDecoder("utf-8", { fatal }).decode(data)] after the Encoding
    Standard: [None] is the [TypeError] of the fatal mode; without [fatal]
    every malformed sequence becomes U+FFFD.  A leading byte order mark is
    dropped. *)

Inductive Utf8Lead :=
| LeadAscii (cp : Z)
| LeadMulti (remaining : nat) (cp lower upper : Z)
| LeadBad.

Definition utf8_lead (b : Z) : Utf8Lead :=
  if b <=? 0x7F then LeadAscii b
  else if (0xC2 <=? b) && (b <=? 0xDF) then LeadMulti 1 (Z.land b 0x1F) 0x80 0xBF
  else if (0xE0 <=? b) && (b <=? 0xEF) then
    LeadMulti 2 (Z.land b 0xF) (if b =? 0xE0 then 0xA0 else 0x80)
                               (if b =? 0xED then 0x9F else 0xBF)
  else if (0xF0 <=? b) && (b <=? 0xF4) then
    LeadMulti 3 (Z.land b 0x7) (if b =? 0xF0 then 0x90 else 0x80)
                               (if b =? 0xF4 then 0x8F else 0xBF)
  else LeadBad.

Fixpoint utf8_codepoints (fatal : bool) (data : bytes)
    (pending : option (nat * Z * Z * Z)) : option (list Z) :=
  match data with
  | [] =>
    match pending with
    | None => Some []
    | Some _ => if fatal then None else Some [0xFFFD]
    end
  | b :: rest =>
    let fresh :=
      match utf8_lead b with
      | LeadAscii cp => cons cp <$> utf8_codepoints fatal rest None
      | LeadMulti n cp lo hi => utf8_codepoints fatal rest (Some (n, cp, lo, hi))
      | LeadBad => if fatal then None else cons 0xFFFD <$> utf8_codepoints fatal rest None
      end in
    match pending with
    | None => fresh
    | Some (n, cp, lo, hi) =>
      if (lo <=? b) && (b <=? hi) then
        let cp' := Z.lor (Z.shiftl cp 6) (Z.land b 0x3F) in
        match n with
        | S (S n') => utf8_codepoints fatal rest (Some (S n', cp', 0x80, 0xBF))
        | _ => cons cp' <$> utf8_codepoints fatal rest None
        end
      else if fatal then None else cons 0xFFFD <$> fresh
    end
  end.

Definition utf16_of_codepoint (cp : Z) : jsstring :=
  if cp <? 0x10000 then [cp]
  else [0xD800 + Z.shiftr (cp - 0x10000) 10; 0xDC00 + Z.land (cp - 0x10000) 0x3FF].

Definition stripBom (data : bytes) : bytes :=
  match data with
  | 0xEF :: 0xBB :: 0xBF :: rest => rest
  | _ => data
  end.

Definition TextDecoder_decode (fatal : bool) (data : bytes) : option jsstring :=
  (fun cps => List.concat (List.map utf16_of_codepoint cps))
    <$> utf8_codepoints fatal (stripBom data) None.

(** The default decoder never throws. *)
Definition decodeText (data : bytes) : jsstring :=
  default [] (TextDecoder_decode false data).

(** [decodeURIComponent], after the [Decode] operation of ECMAScript:
    [None] is the [URIError]. *)
Definition hexDigit (c : Z) : option Z :=
  if (48 <=? c) && (c <=? 57) then Some (c - 48)
  else if (65 <=? c) && (c <=? 70) then Some (c - 55)
  else if (97 <=? c) && (c <=? 102) then Some (c - 87)
  else None.

Definition hexOctet (h1 h2 : Z) : option Z :=
  match hexDigit h1, hexDigit h2 with
  | Some a, Some b => Some (16 * a + b)
  | _, _ => None
  end.

Definition leadingOnes (b : Z) : nat :=
  if b <? 0x80 then 0
  else if b <? 0xC0 then 1
  else if b <? 0xE0 then 2
  else if b <? 0xF0 then 3
  else if b <? 0xF8 then 4
  else 5.

Fixpoint decodeURI_from (s : jsstring) (pending : option (nat * bytes)) : option jsstring :=
  match s with
  | [] => match pending with None => Some [] | Some _ => None end
  | c :: rest =>
    if c =? 37 then
      match rest with
      | h1 :: h2 :: rest' =>
        match hexOctet h1 h2 with
        | None => None
        | Some B =>
          match pending with
          | None =>
            match leadingOnes B with
            | O => cons B <$> decodeURI_from rest' None
            | 2%nat => decodeURI_from rest' (Some (1%nat, [B]))
            | 3%nat => decodeURI_from rest' (Some (2%nat, [B]))
            | 4%nat => decodeURI_from rest' (Some (3%nat, [B]))
            | _ => None
            end
          | Some (S (S n), octets) => decodeURI_from rest' (Some (S n, octets ++ [B]))
          | Some (_, octets) =>
            match utf8_codepoints true (octets ++ [B]) None with
            | Some [cp] => app (utf16_of_codepoint cp) <$> decodeURI_from rest' None
            | _ => None
            end
          end
        end
      | _ => None
      end
    else
      match pending with
      | None => cons c <$> decodeURI_from rest None
      | Some _ => None
      end
  end.

Definition decodeURIComponent (s : jsstring) : option jsstring := decodeURI_from s None.

(** ** Values of unknown shape (parsed JSON, [unknown] properties)

    An object is the list of its own properties, one entry per key. *)

Inductive JSON :=
| JNull
| JBool (b : bool)
| JNumber (n : Z)
| JString (s : jsstring)
| JArray (items : list JSON)
| JObject (props : list (jsstring * JSON)).

(** [v.key], also through [?.]: [None] is [undefined]; only objects carry the
    properties the sources ask for. *)
Definition getProp (v : option JSON) (key : jsstring) : option JSON :=
  match v with
  | Some (JObject props) =>
    snd <$> List.find (fun kv => jsstring_eqb (fst kv) key) props
  | _ => None
  end.

(** [typeof v === "string"] and [typeof v === "number"], with the value. *)
Definition asString (v : option JSON) : option jsstring :=
  match v with Some (JString s) => Some s | _ => None end.

Definition asNumber (v : option JSON) : option Z :=
  match v with Some (JNumber n) => Some n | _ => None end.

Definition asArray (v : option JSON) : option (list JSON) :=
  match v with Some (JArray l) => Some l | _ => None end.

(** The host functions that are taken as given: [JSON.parse] ([None] when it
    throws), [JSON.stringify], and [String(n)] for a number outside the safe
    integers, where the digits are those of the nearest double and, from
    [1e21] on, in exponent notation. *)
Class Host := {
  JSON_parse : jsstring -> option JSON;
  JSON_stringify : JSON -> jsstring;
  Number_toString : Z -> jsstring;
}.

(** ** Protocol types (the shapes the proto modules exchange) *)

(** The exec requests of the agent service, by [type]. *)
Inductive ExecRequest :=
| McpExec (id : Z) (execId : option jsstring)
          (name toolName providerIdentifier toolCallId : jsstring) (args : JSON)
| ShellExec (id : Z) (execId : option jsstring) (command cwd : jsstring)
            (description : option jsstring)
| ReadExec (id : Z) (execId : option jsstring) (path : jsstring)
| LsExec (id : Z) (execId : option jsstring) (path : jsstring)
| GrepExec (id : Z) (execId : option jsstring)
           (pattern path glob : option jsstring)
| WriteExec (id : Z) (execId : option jsstring) (path fileText : jsstring)
| RequestContextExec (id : Z) (execId : option jsstring).

Definition execRequestId (r : ExecRequest) : Z :=
  match r with
  | McpExec id _ _ _ _ _ _ | ShellExec id _ _ _ _ | ReadExec id _ _
  | LsExec id _ _ | GrepExec id _ _ _ _ | WriteExec id _ _ _
  | RequestContextExec id _ => id
  end.

(** A JavaScript [Error]: its [name] and its [message]. *)
Record JsError := mkError { err_name : jsstring; err_message : jsstring }.

(** The result of a call that may throw. *)
Inductive Result (A : Type) :=
| Ok (a : A)
| Throw (e : JsError).
Arguments Ok {A} a.
Arguments Throw {A} e.

Definition Result_bind {A B} (r : Result A) (k : A -> Result B) : Result B :=
  match r with
  | Ok a => k a
  | Throw e => Throw e
  end.

(** [try { body } catch { handler }] *)
Definition Result_catch {A} (body : Result A) (handler : JsError -> Result A) : Result A :=
  match body with
  | Ok a => Ok a
  | Throw e => handler e
  end.

Definition TypeError (msg : string) : JsError := mkError (js "TypeError") (js msg).
Definition SyntaxError (msg : string) : JsError := mkError (js "SyntaxError") (js msg).
Definition URIError (msg : string) : JsError := mkError (js "URIError") (js msg).
Definition PlainError (msg : jsstring) : JsError := mkError (js "Error") msg.

(** A decoded field: [value] is a number for a varint and a byte array for
    a length-delimited field. *)
Inductive ProtoValue :=
| PVNumber (n : Z)
| PVBytes (b : bytes).

Record ProtoField := {
  fieldNumber : Z;
  wireType : Z;
  value : ProtoValue;
}.

(** [field.wireType === 2 && field.value instanceof Uint8Array], and the same
    with [field.fieldNumber === n] in front; the result is the bytes. *)
Definition lenValue (field : ProtoField) : option bytes :=
  if wireType field =? 2 then
    match value field with
    | PVBytes b => Some b
    | PVNumber _ => None
    end
  else None.

Definition lenField (n : Z) (field : ProtoField) : option bytes :=
  if fieldNumber field =? n then lenValue field else None.

Record ParsedToolCall := {
  ptc_toolType : jsstring;
  ptc_name : jsstring;
  ptc_arguments : JSON;
}.

Record ToolCallStartedUpdate := {
  tcs_callId : jsstring;
  tcs_modelCallId : jsstring;
  tcs_toolCall : option ParsedToolCall;
}.

Record PartialToolCallUpdate := {
  ptu_callId : jsstring;
  ptu_argsTextDelta : jsstring;
}.

(** The decoders of the proto modules whose text is not part of the
    sources at hand; every statement below holds for all of them. *)
Class ProtoDecoders := {
  parseProtoFields : bytes -> Result (list ProtoField);
  parseExecServerMessage : bytes -> Result (option ExecRequest);
  parseToolCallStartedUpdate : bytes -> Result ToolCallStartedUpdate;
  parsePartialToolCallUpdate : bytes -> Result PartialToolCallUpdate;
}.

(** ** Token expiry (plugin) *)

Module Plugin.

Record OAuthAuthDetails := {
  refresh : jsstring;
  access : option jsstring;
  expires : option Z;
}.

(** [Date.now()] is the argument [now]. *)
Definition isNumber (n : option Z) : bool :=
  match n with Some _ => true | None => false end.

Definition accessTokenExpired (auth : OAuthAuthDetails) (now : Z) : bool :=
  if negb (truthyString (access auth)) || negb (isNumber (expires auth)) then true
  else match expires auth with
       | Some e => e <=? now + 60 * 1000
       | None => true
       end.

End Plugin.

(** ** Session utilities and the tool bridge *)

Module SessionReuse.

Definition makeToolCallId (sessionId callBase : jsstring) : jsstring :=
  js "sess_" ++ sessionId ++ js "__call_" ++ callBase.

(** [[a-zA-Z0-9]+] followed by [lit], anchored at the start of [s]: the
    quantifier is greedy and gives characters back one at a time. *)
Fixpoint alnumPlusThen (lit s : jsstring) : option jsstring :=
  match s with
  | [] => None
  | c :: rest =>
    if isAlnum c then
      match alnumPlusThen lit rest with
      | Some group => Some (c :: group)
      | None => if startsWith lit rest then Some [c] else None
      end
    else None
  end.

(** [toolCallId.match(/^sess_([a-zA-Z0-9]+)__call_/)] *)
Definition parseSessionIdFromToolCallId (toolCallId : option jsstring) : option jsstring :=
  match toolCallId with
  | None | Some [] => None
  | Some s =>
    match stripPrefix (js "sess_") s with
    | Some rest => alnumPlusThen (js "__call_") rest
    | None => None
    end
  end.

Inductive Role := RoleSystem | RoleUser | RoleAssistant | RoleTool.

Record OpenAIToolCallLite := {
  tc_id : option jsstring;
  tc_name : option jsstring;
  tc_arguments : option jsstring;
}.

Record OpenAIMessageLite := {
  role : Role;
  content : option JSON;
  tool_calls : option (list OpenAIToolCallLite);
  tool_call_id : option jsstring;
}.

Definition isRoleTool (r : Role) : bool := match r with RoleTool => true | _ => false end.
Definition isRoleAssistant (r : Role) : bool :=
  match r with RoleAssistant => true | _ => false end.

Definition findSessionIdInToolCalls (tcs : list OpenAIToolCallLite) : option jsstring :=
  List.fold_left
    (fun found tc =>
       match found with
       | Some _ => found
       | None =>
         match parseSessionIdFromToolCallId (tc_id tc) with
         | Some (c :: sid) => Some (c :: sid)
         | _ => None
         end
       end)
    tcs None.

(** The loop runs from the last message to the first: [rmessages] is the
    message list reversed. *)
Fixpoint findSessionIdIn (rmessages : list OpenAIMessageLite) : option jsstring :=
  match rmessages with
  | [] => None
  | msg :: older =>
    let fromTool :=
      if isRoleTool (role msg) && truthyString (tool_call_id msg) then
        match parseSessionIdFromToolCallId (tool_call_id msg) with
        | Some (c :: sid) => Some (c :: sid)
        | _ => None
        end
      else None in
    match fromTool with
    | Some sid => Some sid
    | None =>
      let fromCalls :=
        match isRoleAssistant (role msg), tool_calls msg with
        | true, Some tcs => findSessionIdInToolCalls tcs
        | _, _ => None
        end in
      match fromCalls with
      | Some sid => Some sid
      | None => findSessionIdIn older
      end
    end
  end.

Definition findSessionIdInMessages (messages : list OpenAIMessageLite) : option jsstring :=
  findSessionIdIn (rev messages).

Definition collectToolMessages (messages : list OpenAIMessageLite) : list OpenAIMessageLite :=
  List.filter (fun m => isRoleTool (role m) && truthyString (tool_call_id m)) messages.

(** One element of an array content: a string, or the [text] of an object
    that has one; everything else counts as the empty string. *)
Definition contentPart (part : JSON) : jsstring :=
  match part with
  | JString s => s
  | JObject props =>
    match getProp (Some part) (js "text") with
    | Some (JString t) => t
    | _ => []
    end
  | _ => []
  end.

Definition extractMessageContent (message : OpenAIMessageLite) : jsstring :=
  match content message with
  | Some (JString s) => s
  | Some (JArray parts) =>
    List.concat
      (List.filter (fun p => match p with [] => false | _ => true end)
                   (List.map contentPart parts))
  | _ => []
  end.

Record McpResultArg := {
  mcp_success : option (jsstring * option bool);
  mcp_error : option jsstring;
}.

Inductive WriteResultArg :=
| WriteSuccess (path : jsstring) (linesCreated fileSize : Z)
               (fileContentAfterWrite : option jsstring)
| WriteError (path error : jsstring).

(** The methods of the [SessionClient] interface, as the calls made on it. *)
Inductive SessionClientCall :=
| sendToolResult (execRequest : ExecRequest) (result : McpResultArg)
| sendShellResult (id : Z) (execId : option jsstring)
                  (command cwd stdout stderr : jsstring)
                  (exitCode : Z) (executionTimeMs : option Z)
| sendReadResult (id : Z) (execId : option jsstring) (content path : jsstring)
                 (totalLines : option Z) (fileSize : option Z)
                 (truncated : option bool)
| sendLsResult (id : Z) (execId : option jsstring) (filesString : jsstring)
| sendGrepResult (id : Z) (execId : option jsstring) (pattern path : jsstring)
                 (files : list jsstring)
| sendWriteResult (id : Z) (execId : option jsstring) (result : WriteResultArg).

Inductive SessionState := running | waiting_tool.

Record SessionLike := {
  id : jsstring;
  pendingExecs : gmap jsstring ExecRequest;
  createdAt : Z;
  lastActivity : Z;
  state : SessionState;
}.

(** What the session runs against: whether a call on the client resolves
    ([false]: the promise rejects), [process.cwd()] and [Date.now()]. *)
Class BridgeEnv := {
  clientResolves : SessionClientCall -> bool;
  process_cwd : jsstring;
  Date_now : Z;
}.

Section Bridge.
Context `{Host} `{BridgeEnv}.

Definition safeParseJson (input : jsstring) : option JSON := JSON_parse input.

Definition orElse (s fallback : jsstring) : jsstring :=
  match s with [] => fallback | _ => s end.

(** The call that one tool message leads to, for a pending exec request;
    [None] for a request type the bridge does not answer. *)
Definition toolResultCall (execReq : ExecRequest) (content : jsstring)
    : option SessionClientCall :=
  match execReq with
  | McpExec _ _ _ _ _ _ _ =>
    Some (sendToolResult execReq
            {| mcp_success := Some (content, Some false); mcp_error := None |})
  | ShellExec id execId command cwd _ =>
    let parsed := safeParseJson content in
    let stdout := default content (asString (getProp parsed (js "stdout"))) in
    let stderr := default [] (asString (getProp parsed (js "stderr"))) in
    let exitCode := default 0 (asNumber (getProp parsed (js "exitCode"))) in
    let executionTimeMs := asNumber (getProp parsed (js "executionTimeMs")) in
    Some (sendShellResult id execId command (orElse cwd process_cwd)
            stdout stderr exitCode executionTimeMs)
  | ReadExec id execId path =>
    Some (sendReadResult id execId content path
            (Some (Z.of_nat (length (split 10 content))))
            (Some (Z.of_nat (length content)))
            (Some false))
  | LsExec id execId path => Some (sendLsResult id execId content)
  | GrepExec id execId pattern path glob =>
    let files :=
      List.filter (fun l => match l with [] => false | _ => true end)
                  (split 10 (trim content)) in
    let pattern' :=
      match glob, pattern with
      | Some g, _ => g
      | None, Some p => p
      | None, None => []
      end in
    let path' := default process_cwd path in
    Some (sendGrepResult id execId pattern' path' files)
  | WriteExec id execId path _ =>
    let parsed := safeParseJson content in
    match asString (getProp parsed (js "error")) with
    | Some (c :: e) => Some (sendWriteResult id execId (WriteError path (c :: e)))
    | _ =>
      let linesCreated :=
        default (Z.of_nat (length (split 10 content)))
                (asNumber (getProp parsed (js "linesCreated"))) in
      let fileSize :=
        default (Z.of_nat (length content))
                (asNumber (getProp parsed (js "fileSize"))) in
      let fileContentAfterWrite :=
        asString (getProp parsed (js "fileContentAfterWrite")) in
      Some (sendWriteResult id execId
              (WriteSuccess path linesCreated fileSize fileContentAfterWrite))
    end
  | RequestContextExec _ _ => None
  end.

Record BridgeRun := {
  session : SessionLike;
  calls : list SessionClientCall;
  processedAny : bool;
}.

(** The [for] loop of [sendToolResultsToCursor]: [inl false] is the early
    [return false]; [calls] lists the client calls in the order made, the
    rejected one included. *)
Fixpoint sendToolResults_loop (toolMessages : list OpenAIMessageLite) (run : BridgeRun)
    : bool * BridgeRun + BridgeRun :=
  match toolMessages with
  | [] => inr run
  | message :: later =>
    match tool_call_id message with
    | None | Some [] => sendToolResults_loop later run
    | Some key =>
      match pendingExecs (session run) !! key with
      | None => sendToolResults_loop later run
      | Some execReq =>
        let content := extractMessageContent message in
        match toolResultCall execReq content with
        | None => inl (false, run)
        | Some call =>
          let run' := {| session := session run;
                         calls := calls run ++ [call];
                         processedAny := processedAny run |} in
          if clientResolves call then
            sendToolResults_loop later
              {| session :=
                   {| id := id (session run);
                      pendingExecs := delete key (pendingExecs (session run));
                      createdAt := createdAt (session run);
                      lastActivity := lastActivity (session run);
                      state := state (session run) |};
                 calls := calls run';
                 processedAny := true |}
          else inl (false, run')
        end
      end
    end
  end.

Definition sendToolResultsToCursor (session0 : SessionLike)
    (toolMessages : list OpenAIMessageLite) : bool * BridgeRun :=
  match sendToolResults_loop toolMessages
          {| session := session0; calls := []; processedAny := false |} with
  | inl early => early
  | inr run =>
    if processedAny run then
      (true,
       {| session :=
            {| id := id (session run);
               pendingExecs := pendingExecs (session run);
               createdAt := createdAt (session run);
               lastActivity := Date_now;
               state := running |};
          calls := calls run;
          processedAny := true |})
    else (false, run)
  end.

End Bridge.

End SessionReuse.

(** ** KV messages and blob analysis *)

Declare Scope result_scope.
Delimit Scope result_scope with R.
Notation "x <- m ;; k" := (Result_bind m (fun x => k))
  (at level 100, m at next level, right associativity) : result_scope.

Fixpoint Result_foldM {A B} (f : B -> A -> Result B) (l : list A) (b : B) : Result B :=
  match l with
  | [] => Ok b
  | x :: l' => Result_bind (f b x) (Result_foldM f l')
  end.

Definition hexChar (d : Z) : Z := if d <? 10 then 48 + d else 87 + d.

(** [Buffer.from(b).toString('hex')] *)
Definition hexOfBytes (b : bytes) : jsstring :=
  List.concat (List.map (fun x => [hexChar (Z.shiftr x 4); hexChar (Z.land x 15)]) b).

(** A number in a template string, and [String(n)]: the decimal digits of a
    safe integer; the host's text beyond. *)
Definition MAX_SAFE_INTEGER : Z := 9007199254740991.

Definition numberToString `{Host} (n : Z) : jsstring :=
  if Z.abs n <=? MAX_SAFE_INTEGER then js (pretty n) else Number_toString n.

Module Kv.

Inductive MessageType := get_blob_args | set_blob_args | unknown.

Record KvServerMessage := {
  id : Z;
  messageType : MessageType;
  blobId : option bytes;
  blobData : option bytes;
}.

Definition with_id (v : Z) (m : KvServerMessage) : KvServerMessage :=
  {| id := v; messageType := messageType m; blobId := blobId m; blobData := blobData m |}.
Definition with_messageType (v : MessageType) (m : KvServerMessage) : KvServerMessage :=
  {| id := id m; messageType := v; blobId := blobId m; blobData := blobData m |}.
Definition with_blobId (v : bytes) (m : KvServerMessage) : KvServerMessage :=
  {| id := id m; messageType := messageType m; blobId := Some v; blobData := blobData m |}.
Definition with_blobData (v : bytes) (m : KvServerMessage) : KvServerMessage :=
  {| id := id m; messageType := messageType m; blobId := blobId m; blobData := Some v |}.

Inductive BlobType := json_blob | text_blob | protobuf_blob | binary_blob.

Record ProtoFieldSummary := {
  num : Z;
  wire : Z;
  size : Z;
  field_text : option jsstring;
}.

Record BlobAnalysis := {
  type : BlobType;
  json : option JSON;
  text : option jsstring;
  protoFields : option (list ProtoFieldSummary);
}.

Record AssistantBlobContent := {
  abc_blobId : jsstring;
  content : jsstring;
}.

Section WithDecoders.
Context `{ProtoDecoders} `{Host}.
Local Open Scope result_scope.

(** The inner loop over the fields of [get_blob_args]. *)
Definition getBlobArgsField (result : KvServerMessage) (af : ProtoField) : KvServerMessage :=
  match lenField 1 af with
  | Some v => with_blobId v result
  | None => result
  end.

(** The inner loop over the fields of [set_blob_args]. *)
Definition setBlobArgsField (result : KvServerMessage) (af : ProtoField) : KvServerMessage :=
  match lenField 1 af with
  | Some v => with_blobId v result
  | None =>
    match lenField 2 af with
    | Some v => with_blobData v result
    | None => result
    end
  end.

(** One turn of the outer loop; a varint field 1 carries the id as a number. *)
Definition kvField (result : KvServerMessage) (field : ProtoField) : Result KvServerMessage :=
  if (fieldNumber field =? 1) && (wireType field =? 0) then
    Ok (match value field with
        | PVNumber n => with_id n result
        | PVBytes _ => result
        end)
  else
    match lenField 2 field with
    | Some v =>
      argsFields <- parseProtoFields v ;;
      Ok (List.fold_left getBlobArgsField argsFields (with_messageType get_blob_args result))
    | None =>
      match lenField 3 field with
      | Some v =>
        argsFields <- parseProtoFields v ;;
        Ok (List.fold_left setBlobArgsField argsFields (with_messageType set_blob_args result))
      | None => Ok result
      end
    end.

Definition parseKvServerMessage (data : bytes) : Result KvServerMessage :=
  fields <- parseProtoFields data ;;
  Result_foldM kvField fields
    {| id := 0; messageType := unknown; blobId := None; blobData := None |}.

Inductive KvResultType := get_blob_result | set_blob_result.

Definition buildKvClientMessage (id : Z) (resultType : KvResultType) (result : bytes) : bytes :=
  let fieldNumber := match resultType with get_blob_result => 2 | set_blob_result => 3 end in
  Codec.concatBytes
    [Codec.encodeUint32Field 1 id; Codec.encodeMessageField fieldNumber result].

Definition buildAgentClientMessageWithKv (kvClientMessage : bytes) : bytes :=
  Codec.encodeMessageField 3 kvClientMessage.

(** [new TextDecoder('utf-8', { fatal: true }).decode(data)] *)
Definition decodeFatal (data : bytes) : Result jsstring :=
  match TextDecoder_decode true data with
  | Some t => Ok t
  | None => Throw (TypeError "The encoded data was not valid")
  end.

Definition parseJson (t : jsstring) : Result JSON :=
  match JSON_parse t with
  | Some j => Ok j
  | None => Throw (SyntaxError "Unexpected token")
  end.

(** The first [try] block: both of its exits return from the function. *)
Definition analyzeAsText (data : bytes) : Result BlobAnalysis :=
  t <- decodeFatal data ;;
  Result_catch
    (j <- parseJson t ;;
     Ok {| type := json_blob; json := Some j; text := Some t; protoFields := None |})
    (fun _ =>
     Ok {| type := text_blob; json := None; text := Some t; protoFields := None |}).

(** [try { entry.text = decode(f.value) } catch { }]: the text, if the bytes
    are valid UTF-8. *)
Definition textOrNothing (b : bytes) : option jsstring :=
  match Result_catch (t <- decodeFatal b ;; Ok (Some t)) (fun _ => Ok None) with
  | Ok t => t
  | Throw _ => None
  end.

Definition summarizeField (f : ProtoField) : ProtoFieldSummary :=
  {| num := fieldNumber f;
     wire := wireType f;
     size := match value f with
             | PVBytes b => Z.of_nat (length b)
             | PVNumber _ => 0
             end;
     field_text :=
       match lenValue f with
       | Some b => textOrNothing b
       | None => None
       end |}.

(** The second [try] block: [None] when the [if] is not taken. *)
Definition analyzeAsProto (data : bytes) : Result (option BlobAnalysis) :=
  fields <- parseProtoFields data ;;
  if (0 <? Z.of_nat (length fields)) && (Z.of_nat (length fields) <? 100) then
    Ok (Some {| type := protobuf_blob; json := None; text := None;
                protoFields := Some (List.map summarizeField fields) |})
  else Ok None.

Definition binaryAnalysis : BlobAnalysis :=
  {| type := binary_blob; json := None; text := None; protoFields := None |}.

Definition analyzeBlobData (data : bytes) : Result BlobAnalysis :=
  match analyzeAsText data with
  | Ok analysis => Ok analysis
  | Throw _ =>
    match analyzeAsProto data with
    | Ok (Some analysis) => Ok analysis
    | Ok None | Throw _ => Ok binaryAnalysis
    end
  end.


Definition isString (v : option JSON) (s : string) : bool :=
  match v with
  | Some (JString t) => jsstring_eqb t (js s)
  | _ => false
  end.

(** A part of an array content: a string, or [{ type: 'text', text }]. *)
Definition assistantPart (blobKey : jsstring) (part : JSON) : list AssistantBlobContent :=
  match part with
  | JString p => [{| abc_blobId := blobKey; content := p |}]
  | _ =>
    if isString (getProp (Some part) (js "type")) "text" then
      match asString (getProp (Some part) (js "text")) with
      | Some t => [{| abc_blobId := blobKey; content := t |}]
      | None => []
      end
    else []
  end.

Definition assistantMessage (blobKey : jsstring) (msg : JSON) : list AssistantBlobContent :=
  if isString (getProp (Some msg) (js "role")) "assistant" then
    match asString (getProp (Some msg) (js "content")) with
    | Some c => [{| abc_blobId := blobKey; content := c |}]
    | None => []
    end
  else [].

Definition fromRoleAssistant (blobKey : jsstring) (j : option JSON) : list AssistantBlobContent :=
  if isString (getProp j (js "role")) "assistant" then
    match getProp j (js "content") with
    | Some (JString (c :: s)) => [{| abc_blobId := blobKey; content := c :: s |}]
    | Some (JArray parts) => List.concat (List.map (assistantPart blobKey) parts)
    | _ => []
    end
  else [].

Definition fromMessages (blobKey : jsstring) (j : option JSON) : list AssistantBlobContent :=
  match asArray (getProp j (js "messages")) with
  | Some msgs => List.concat (List.map (assistantMessage blobKey) msgs)
  | None => []
  end.

Definition looksLikeProse (t : jsstring) : bool :=
  negb (startsWith (js "{") t) && negb (startsWith (js "[") t).

Definition fromProtoField (blobKey : jsstring) (field : ProtoFieldSummary)
    : list AssistantBlobContent :=
  match field_text field with
  | Some (c :: t) =>
    if (50 <? Z.of_nat (length (c :: t))) && looksLikeProse (c :: t) then
      [{| abc_blobId := blobKey ++ js ":f" ++ numberToString (num field);
          content := c :: t |}]
    else []
  | _ => []
  end.



End WithDecoders.

End Kv.

(** ** The agent service client and its chat stream *)

Module AgentService.

(** One [BidiAppend] call as seen on the wire. *)
Record Append := {
  ap_requestId : jsstring;
  append_seqno : Z;
  ap_data : bytes;
}.

Record ToolCallInfo := {
  callId : jsstring;
  modelCallId : option jsstring;
  toolType : jsstring;
  name : jsstring;
  arguments : jsstring;
}.

Inductive AgentStreamChunk :=
| text_chunk (content : jsstring)
| tool_call_started (toolCall : ToolCallInfo)
| tool_call_completed (toolCall : ToolCallInfo)
| partial_tool_call (toolCall : ToolCallInfo) (partialArgs : jsstring)
| heartbeat
| checkpoint
| exec_request (execRequest : ExecRequest)
| exec_server_abort
| interaction_query (queryId : Z) (queryType : jsstring)
| kv_blob_assistant (blobContent : jsstring)
| error_chunk (error : jsstring)
| done.

(** The fields of the client object that the stream uses, the local
    variables of [chatStream], and what the outside can observe: the
    [BidiAppend] calls made, the chunks yielded, and how many times the clock
    has been read. *)
Record St := mkSt {
  blobStore : gmap jsstring bytes;
  currentRequestId : option jsstring;
  currentAppendSeqno : Z;
  pendingAssistantBlobs : list Kv.AssistantBlobContent;
  appendSeqno : Z;
  lastProgressAt : Z;
  heartbeatSinceProgress : Z;
  hasProgress : bool;
  turnEnded : bool;
  hasStreamedText : bool;
  wire : list Append;
  yielded : list AgentStreamChunk;
  ticks : nat;
}.

Definition set_blobStore (v : gmap jsstring bytes) (st : St) : St :=
  mkSt v (currentRequestId st) (currentAppendSeqno st) (pendingAssistantBlobs st) (appendSeqno st) (lastProgressAt st) (heartbeatSinceProgress st) (hasProgress st) (turnEnded st) (hasStreamedText st) (wire st) (yielded st) (ticks st).
Definition set_currentRequestId (v : option jsstring) (st : St) : St :=
  mkSt (blobStore st) v (currentAppendSeqno st) (pendingAssistantBlobs st) (appendSeqno st) (lastProgressAt st) (heartbeatSinceProgress st) (hasProgress st) (turnEnded st) (hasStreamedText st) (wire st) (yielded st) (ticks st).
Definition set_currentAppendSeqno (v : Z) (st : St) : St :=
  mkSt (blobStore st) (currentRequestId st) v (pendingAssistantBlobs st) (appendSeqno st) (lastProgressAt st) (heartbeatSinceProgress st) (hasProgress st) (turnEnded st) (hasStreamedText st) (wire st) (yielded st) (ticks st).
Definition set_pendingAssistantBlobs (v : list Kv.AssistantBlobContent) (st : St) : St :=
  mkSt (blobStore st) (currentRequestId st) (currentAppendSeqno st) v (appendSeqno st) (lastProgressAt st) (heartbeatSinceProgress st) (hasProgress st) (turnEnded st) (hasStreamedText st) (wire st) (yielded st) (ticks st).
Definition set_appendSeqno (v : Z) (st : St) : St :=
  mkSt (blobStore st) (currentRequestId st) (currentAppendSeqno st) (pendingAssistantBlobs st) v (lastProgressAt st) (heartbeatSinceProgress st) (hasProgress st) (turnEnded st) (hasStreamedText st) (wire st) (yielded st) (ticks st).
Definition set_lastProgressAt (v : Z) (st : St) : St :=
  mkSt (blobStore st) (currentRequestId st) (currentAppendSeqno st) (pendingAssistantBlobs st) (appendSeqno st) v (heartbeatSinceProgress st) (hasProgress st) (turnEnded st) (hasStreamedText st) (wire st) (yielded st) (ticks st).
Definition set_heartbeatSinceProgress (v : Z) (st : St) : St :=
  mkSt (blobStore st) (currentRequestId st) (currentAppendSeqno st) (pendingAssistantBlobs st) (appendSeqno st) (lastProgressAt st) v (hasProgress st) (turnEnded st) (hasStreamedText st) (wire st) (yielded st) (ticks st).
Definition set_hasProgress (v : bool) (st : St) : St :=
  mkSt (blobStore st) (currentRequestId st) (currentAppendSeqno st) (pendingAssistantBlobs st) (appendSeqno st) (lastProgressAt st) (heartbeatSinceProgress st) v (turnEnded st) (hasStreamedText st) (wire st) (yielded st) (ticks st).
Definition set_turnEnded (v : bool) (st : St) : St :=
  mkSt (blobStore st) (currentRequestId st) (currentAppendSeqno st) (pendingAssistantBlobs st) (appendSeqno st) (lastProgressAt st) (heartbeatSinceProgress st) (hasProgress st) v (hasStreamedText st) (wire st) (yielded st) (ticks st).
Definition set_hasStreamedText (v : bool) (st : St) : St :=
  mkSt (blobStore st) (currentRequestId st) (currentAppendSeqno st) (pendingAssistantBlobs st) (appendSeqno st) (lastProgressAt st) (heartbeatSinceProgress st) (hasProgress st) (turnEnded st) v (wire st) (yielded st) (ticks st).
Definition set_wire (v : list Append) (st : St) : St :=
  mkSt (blobStore st) (currentRequestId st) (currentAppendSeqno st) (pendingAssistantBlobs st) (appendSeqno st) (lastProgressAt st) (heartbeatSinceProgress st) (hasProgress st) (turnEnded st) (hasStreamedText st) v (yielded st) (ticks st).
Definition set_yielded (v : list AgentStreamChunk) (st : St) : St :=
  mkSt (blobStore st) (currentRequestId st) (currentAppendSeqno st) (pendingAssistantBlobs st) (appendSeqno st) (lastProgressAt st) (heartbeatSinceProgress st) (hasProgress st) (turnEnded st) (hasStreamedText st) (wire st) v (ticks st).
Definition set_ticks (v : nat) (st : St) : St :=
  mkSt (blobStore st) (currentRequestId st) (currentAppendSeqno st) (pendingAssistantBlobs st) (appendSeqno st) (lastProgressAt st) (heartbeatSinceProgress st) (hasProgress st) (turnEnded st) (hasStreamedText st) (wire st) (yielded st) v.

(** The seven methods that send a result through the client:
    [sendToolResult], [sendShellResult], [sendLsResult],
    [sendRequestContextResult], [sendReadResult], [sendGrepResult] and
    [sendWriteResult], each with the words by which its error names it. *)
Inductive ResultKind :=
| tool_result | shell_result | ls_result | request_context_result
| read_result | grep_result | write_result.

Definition resultWords (kind : ResultKind) : jsstring :=
  match kind with
  | tool_result => js "tool"
  | shell_result => js "shell"
  | ls_result => js "ls"
  | request_context_result => js "request context"
  | read_result => js "read"
  | grep_result => js "grep"
  | write_result => js "write"
  end.

(** What the consumer of the generator does when it receives a chunk: the
    results it sends through the client (the method, the exec id and the
    encoded [ExecClientMessage]), and whether it stops iterating. *)
Record Reaction := {
  sends : list (ResultKind * Z * bytes);
  stops : bool;
}.

(** The surroundings of one stream: the consumer (it sees the chunks yielded
    so far, the last one being the current one), the successive readings of
    [Date.now()], and the response to the n-th [BidiAppend] call ([None]: ok,
    otherwise the status and text of the failure). *)
Class StreamEnv := {
  consumer : list AgentStreamChunk -> Reaction;
  clock : nat -> Z;
  appendResponse : nat -> option jsstring;
}.

(** How a piece of the generator ends: normally, by an exception, or because
    the consumer has called [return()] at a [yield]. *)
Inductive Outcome (A : Type) :=
| Normal (a : A)
| Thrown (e : JsError)
| Returned.
Arguments Normal {A} a.
Arguments Thrown {A} e.
Arguments Returned {A}.

Definition M (A : Type) : Type := St -> Outcome A * St.

Definition ret {A} (a : A) : M A := fun st => (Normal a, st).

Definition bind {A B} (m : M A) (k : A -> M B) : M B := fun st =>
  match m st with
  | (Normal a, st') => k a st'
  | (Thrown e, st') => (Thrown e, st')
  | (Returned, st') => (Returned, st')
  end.

Definition throw {A} (e : JsError) : M A := fun st => (Thrown e, st).
Definition get : M St := fun st => (Normal st, st).
Definition modify (f : St -> St) : M unit := fun st => (Normal tt, f st).

Definition liftResult {A} (r : Result A) : M A :=
  match r with
  | Ok a => ret a
  | Throw e => throw e
  end.

(** [try { body } catch (e) { handler }]: a [return()] of the consumer is not
    caught. *)
Definition tryCatch {A} (body : M A) (handler : JsError -> M A) : M A := fun st =>
  match body st with
  | (Thrown e, st') => handler e st'
  | other => other
  end.

(** [try { body } finally { cleanup }] with a cleanup that only assigns. *)
Definition tryFinally {A} (body : M A) (cleanup : St -> St) : M A := fun st =>
  let (o, st') := body st in (o, cleanup st').

Declare Scope gen_scope.
Delimit Scope gen_scope with G.
Notation "x <- m ;; k" := (bind m (fun x => k))
  (at level 100, m at next level, right associativity) : gen_scope.
Notation "m ;;; k" := (bind m (fun _ => k))
  (at level 100, right associativity) : gen_scope.

Fixpoint forEach {A} (l : list A) (body : A -> M unit) : M unit :=
  match l with
  | [] => ret tt
  | x :: l' => bind (body x) (fun _ => forEach l' body)
  end.

Definition when (b : bool) (m : M unit) : M unit := if b then m else ret tt.

Record ParsedInteractionUpdate := {
  text : option jsstring;
  isComplete : bool;
  isHeartbeat : bool;
  toolCallStarted : option ToolCallInfo;
  toolCallCompleted : option ToolCallInfo;
  partialToolCall : option PartialToolCallUpdate;
}.

(** One frame of the response body, as the frame splitter hands it on. *)
Record Frame := {
  flags : Z;
  frameData : bytes;
}.

(** How [reader.read()] ends after the last chunk: the stream is done, or
    the read rejects (the abort of the timer, a transport error). *)
Inductive StreamEnd :=
| EndOfStream
| ReadRejects (e : JsError).

(** The [RunSSE] response: the fetch rejects; the status is not ok (with
    status and text); there is no body; or a body, given by the frames each
    successive read completes. *)
Inductive SseResponse :=
| FetchRejects (e : JsError)
| NotOk (status : jsstring) (errorText : jsstring)
| NoBody
| Body (reads : list (list Frame)) (ending : StreamEnd).

Section WithEnvironment.
Context `{ProtoDecoders} `{Host} `{StreamEnv}.
Local Open Scope gen_scope.

(** [Date.now()] *)
Definition now : M Z := fun st =>
  (Normal (clock (ticks st)), set_ticks (S (ticks st)) st).

Definition bidiAppend (requestId : jsstring) (appendSeqno : Z) (data : bytes) : M unit :=
  fun st =>
    let call := {| ap_requestId := requestId; append_seqno := appendSeqno; ap_data := data |} in
    let st' := set_wire (wire st ++ [call]) st in
    match appendResponse (length (wire st)) with
    | None => (Normal tt, st')
    | Some failure => (Thrown (PlainError (js "BidiAppend failed: " ++ failure)), st')
    end.

(** The inline search of [handleKvMessage] for assistant text in a blob that
    has just been stored.  (The client's private [analyzeBlobData] has the
    same text as the one of the KV module, which stands for both.) *)
Definition recordAssistantBlobs (blobAnalysis : Kv.BlobAnalysis) (key : jsstring)
    : list Kv.AssistantBlobContent :=
  match Kv.type blobAnalysis with
  | Kv.json_blob =>
    Kv.fromRoleAssistant key (Kv.json blobAnalysis)
      ++ Kv.fromMessages key (Kv.json blobAnalysis)
  | Kv.protobuf_blob =>
    List.concat (List.map (Kv.fromProtoField key) (default [] (Kv.protoFields blobAnalysis)))
  | Kv.text_blob | Kv.binary_blob => []
  end.

Definition blobIdToKey (blobId : bytes) : jsstring := hexOfBytes blobId.

Definition handleKvMessage (kvMsg : Kv.KvServerMessage) (requestId : jsstring)
    (appendSeqno : Z) : M Z :=
  match Kv.messageType kvMsg, Kv.blobId kvMsg, Kv.blobData kvMsg with
  | Kv.get_blob_args, Some blobId, _ =>
    let key := blobIdToKey blobId in
    st <- get ;;
    let result :=
      match blobStore st !! key with
      | Some data => Codec.encodeMessageField 1 data
      | None => []
      end in
    let kvClientMsg := Kv.buildKvClientMessage (Kv.id kvMsg) Kv.get_blob_result result in
    bidiAppend requestId appendSeqno (Kv.buildAgentClientMessageWithKv kvClientMsg) ;;;
    ret (appendSeqno + 1)
  | Kv.set_blob_args, Some blobId, Some blobData =>
    let key := blobIdToKey blobId in
    modify (fun st => set_blobStore (<[key := blobData]> (blobStore st)) st) ;;;
    blobAnalysis <- liftResult (Kv.analyzeBlobData blobData) ;;
    modify (fun st =>
      set_pendingAssistantBlobs
        (pendingAssistantBlobs st ++ recordAssistantBlobs blobAnalysis key) st) ;;;
    let kvClientMsg := Kv.buildKvClientMessage (Kv.id kvMsg) Kv.set_blob_result [] in
    bidiAppend requestId appendSeqno (Kv.buildAgentClientMessageWithKv kvClientMsg) ;;;
    ret (appendSeqno + 1)
  | _, _, _ => ret appendSeqno
  end.

(** The body of [sendToolResult], [sendShellResult], [sendLsResult],
    [sendRequestContextResult], [sendReadResult], [sendGrepResult] and
    [sendWriteResult], which differ in the message they build for the result
    ([execClientMsg]) and in the words of their error. *)
Definition sendResult (kind : ResultKind) (id : Z) (execClientMsg : bytes) : M unit :=
  st <- get ;;
  match currentRequestId st with
  | None | Some [] =>
    throw (PlainError (js "No active chat stream - cannot send " ++ resultWords kind
                         ++ js " result"))
  | Some requestId =>
    bidiAppend requestId (currentAppendSeqno st)
      (Codec.buildAgentClientMessageWithExec execClientMsg) ;;;
    modify (fun st => set_currentAppendSeqno (currentAppendSeqno st + 1) st) ;;;
    st <- get ;;
    bidiAppend (default [] (currentRequestId st)) (currentAppendSeqno st)
      (Codec.buildAgentClientMessageWithExecControl
         (Codec.buildExecClientControlMessage id)) ;;;
    modify (fun st => set_currentAppendSeqno (currentAppendSeqno st + 1) st)
  end.

(** The consumer's sends run while the generator is suspended; what they
    throw is thrown at the consumer. *)
Definition runSends (calls : list (ResultKind * Z * bytes)) (st : St) : St :=
  List.fold_left
    (fun st call => snd (sendResult (fst (fst call)) (snd (fst call)) (snd call) st))
    calls st.

(** [yield chunk] *)
Definition yield (chunk : AgentStreamChunk) : M unit := fun st =>
  let st1 := set_yielded (yielded st ++ [chunk]) st in
  let reaction := consumer (yielded st1) in
  let st2 := runSends (sends reaction) st1 in
  if stops reaction then (Returned, st2) else (Normal tt, st2).

Definition toolCallInfo (parsed : ToolCallStartedUpdate) : option ToolCallInfo :=
  match tcs_toolCall parsed with
  | Some tc =>
    Some {| callId := tcs_callId parsed;
            modelCallId := Some (tcs_modelCallId parsed);
            toolType := ptc_toolType tc;
            name := ptc_name tc;
            arguments := JSON_stringify (ptc_arguments tc) |}
  | None => None
  end.

Definition set_text (v : jsstring) (p : ParsedInteractionUpdate) :=
  {| text := Some v; isComplete := isComplete p; isHeartbeat := isHeartbeat p;
     toolCallStarted := toolCallStarted p; toolCallCompleted := toolCallCompleted p;
     partialToolCall := partialToolCall p |}.
Definition set_isComplete (p : ParsedInteractionUpdate) :=
  {| text := text p; isComplete := true; isHeartbeat := isHeartbeat p;
     toolCallStarted := toolCallStarted p; toolCallCompleted := toolCallCompleted p;
     partialToolCall := partialToolCall p |}.
Definition set_isHeartbeat (p : ParsedInteractionUpdate) :=
  {| text := text p; isComplete := isComplete p; isHeartbeat := true;
     toolCallStarted := toolCallStarted p; toolCallCompleted := toolCallCompleted p;
     partialToolCall := partialToolCall p |}.
Definition set_toolCallStarted (v : ToolCallInfo) (p : ParsedInteractionUpdate) :=
  {| text := text p; isComplete := isComplete p; isHeartbeat := isHeartbeat p;
     toolCallStarted := Some v; toolCallCompleted := toolCallCompleted p;
     partialToolCall := partialToolCall p |}.
Definition set_toolCallCompleted (v : ToolCallInfo) (p : ParsedInteractionUpdate) :=
  {| text := text p; isComplete := isComplete p; isHeartbeat := isHeartbeat p;
     toolCallStarted := toolCallStarted p; toolCallCompleted := Some v;
     partialToolCall := partialToolCall p |}.
Definition set_partialToolCall (v : PartialToolCallUpdate) (p : ParsedInteractionUpdate) :=
  {| text := text p; isComplete := isComplete p; isHeartbeat := isHeartbeat p;
     toolCallStarted := toolCallStarted p; toolCallCompleted := toolCallCompleted p;
     partialToolCall := Some v |}.

(** The inner loops over [text_delta] and [token_delta]: field 1 is the text. *)
Definition deltaField (p : ParsedInteractionUpdate) (innerField : ProtoField)
    : ParsedInteractionUpdate :=
  match lenField 1 innerField with
  | Some v => set_text (decodeText v) p
  | None => p
  end.

Local Open Scope result_scope.

Definition interactionField (p : ParsedInteractionUpdate) (field : ProtoField)
    : Result ParsedInteractionUpdate :=
  match lenField 1 field with
  | Some v =>
    innerFields <- parseProtoFields v ;;
    Ok (List.fold_left deltaField innerFields p)
  | None =>
  match lenField 2 field with
  | Some v =>
    parsed <- parseToolCallStartedUpdate v ;;
    Ok (match toolCallInfo parsed with
        | Some info => set_toolCallStarted info p
        | None => p
        end)
  | None =>
  match lenField 3 field with
  | Some v =>
    parsed <- parseToolCallStartedUpdate v ;;
    Ok (match toolCallInfo parsed with
        | Some info => set_toolCallCompleted info p
        | None => p
        end)
  | None =>
  match lenField 7 field with
  | Some v =>
    parsed <- parsePartialToolCallUpdate v ;;
    Ok (set_partialToolCall parsed p)
  | None =>
  match lenField 8 field with
  | Some v =>
    tokenFields <- parseProtoFields v ;;
    Ok (List.fold_left deltaField tokenFields p)
  | None =>
    if fieldNumber field =? 14 then Ok (set_isComplete p)
    else if fieldNumber field =? 13 then Ok (set_isHeartbeat p)
    else Ok p
  end end end end end.

Definition parseInteractionUpdate (data : bytes) : Result ParsedInteractionUpdate :=
  fields <- parseProtoFields data ;;
  Result_foldM interactionField fields
    {| text := None; isComplete := false; isHeartbeat := false;
       toolCallStarted := None; toolCallCompleted := None; partialToolCall := None |}.

Local Close Scope result_scope.

Definition HEARTBEAT_IDLE_MS_PROGRESS : Z := 120000.
Definition HEARTBEAT_MAX_PROGRESS : Z := 1000.
Definition HEARTBEAT_IDLE_MS_NOPROGRESS : Z := 180000.
Definition HEARTBEAT_MAX_NOPROGRESS : Z := 1000.

Definition markProgress : M unit :=
  modify (set_heartbeatSinceProgress 0) ;;;
  t <- now ;;
  modify (set_lastProgressAt t) ;;;
  modify (set_hasProgress true).

(** [if (parsed.isHeartbeat) { ... }] *)
Definition onHeartbeat : M unit :=
  modify (fun st => set_heartbeatSinceProgress (heartbeatSinceProgress st + 1) st) ;;;
  t <- now ;;
  st <- get ;;
  let idleMs := t - lastProgressAt st in
  let idleLimit :=
    if hasProgress st then HEARTBEAT_IDLE_MS_PROGRESS else HEARTBEAT_IDLE_MS_NOPROGRESS in
  let beatLimit :=
    if hasProgress st then HEARTBEAT_MAX_PROGRESS else HEARTBEAT_MAX_NOPROGRESS in
  if (beatLimit <=? heartbeatSinceProgress st) || (idleLimit <=? idleMs)
  then modify (set_turnEnded true)
  else yield heartbeat.

Definition partialInfo (p : PartialToolCallUpdate) : ToolCallInfo :=
  {| callId := ptu_callId p; modelCallId := None;
     toolType := js "partial"; name := js "partial"; arguments := [] |}.

(** field 1: [interaction_update] *)
Definition onInteractionUpdate (v : bytes) : M unit :=
  parsed <- liftResult (parseInteractionUpdate v) ;;
  when (truthyString (text parsed))
    (yield (text_chunk (default [] (text parsed))) ;;;
     modify (set_hasStreamedText true) ;;;
     markProgress) ;;;
  match toolCallStarted parsed with
  | Some info => yield (tool_call_started info) ;;; markProgress
  | None => ret tt
  end ;;;
  match toolCallCompleted parsed with
  | Some info => yield (tool_call_completed info) ;;; markProgress
  | None => ret tt
  end ;;;
  match partialToolCall parsed with
  | Some p => yield (partial_tool_call (partialInfo p) (ptu_argsTextDelta p)) ;;; markProgress
  | None => ret tt
  end ;;;
  when (isComplete parsed) (modify (set_turnEnded true)) ;;;
  when (isHeartbeat parsed) onHeartbeat.

(** field 3: [conversation_checkpoint_update] *)
Definition onCheckpoint (v : bytes) : M unit :=
  _ <- liftResult (parseProtoFields v) ;;
  yield checkpoint ;;;
  markProgress.

(** field 2: [exec_server_message] *)
Definition onExecServerMessage (v : bytes) : M unit :=
  execRequest <- liftResult (parseExecServerMessage v) ;;
  match execRequest with
  | Some req => yield (exec_request req) ;;; markProgress
  | None => _ <- liftResult (parseProtoFields v) ;; ret tt
  end.

(** field 4: [kv_server_message] *)
Definition onKvServerMessage (requestId : jsstring) (v : bytes) : M unit :=
  kvMsg <- liftResult (Kv.parseKvServerMessage v) ;;
  st <- get ;;
  seqno <- handleKvMessage kvMsg requestId (appendSeqno st) ;;
  modify (set_appendSeqno seqno) ;;;
  modify (set_currentAppendSeqno seqno).

(** field 5: [exec_server_control_message] *)
Definition onExecServerControl (v : bytes) : M unit :=
  controlFields <- liftResult (parseProtoFields v) ;;
  forEach controlFields (fun cf =>
    match lenField 1 cf with
    | Some abort =>
      _ <- liftResult (parseProtoFields abort) ;;
      yield exec_server_abort
    | None => ret tt
    end) ;;;
  markProgress.

Definition queryField (acc : Z * jsstring) (qf : ProtoField) : Z * jsstring :=
  if (fieldNumber qf =? 1) && (wireType qf =? 0) then
    (match value qf with PVNumber n => n | PVBytes _ => fst acc end, snd acc)
  else if (fieldNumber qf =? 2) && (wireType qf =? 2) then (fst acc, js "web_search")
  else if (fieldNumber qf =? 3) && (wireType qf =? 2) then (fst acc, js "ask_question")
  else if (fieldNumber qf =? 4) && (wireType qf =? 2) then (fst acc, js "switch_mode")
  else if (fieldNumber qf =? 5) && (wireType qf =? 2) then (fst acc, js "exa_search")
  else if (fieldNumber qf =? 6) && (wireType qf =? 2) then (fst acc, js "exa_fetch")
  else acc.

(** field 7: [interaction_query] *)
Definition onInteractionQuery (v : bytes) : M unit :=
  queryFields <- liftResult (parseProtoFields v) ;;
  let q := List.fold_left queryField queryFields (0, js "unknown") in
  yield (interaction_query (fst q) (snd q)) ;;;
  markProgress.

(** The body of the [try] inside the loop over the fields of a server
    message. *)
Definition dispatchField (requestId : jsstring) (field : ProtoField) : M unit :=
  match lenField 1 field with Some v => onInteractionUpdate v | None => ret tt end ;;;
  match lenField 3 field with Some v => onCheckpoint v | None => ret tt end ;;;
  match lenField 2 field with Some v => onExecServerMessage v | None => ret tt end ;;;
  match lenField 4 field with Some v => onKvServerMessage requestId v | None => ret tt end ;;;
  match lenField 5 field with Some v => onExecServerControl v | None => ret tt end ;;;
  match lenField 7 field with Some v => onInteractionQuery v | None => ret tt end.

Definition onServerField (requestId : jsstring) (field : ProtoField) : M unit :=
  tryCatch (dispatchField requestId field)
    (fun parseErr =>
       yield (error_chunk (js "Parse error in field " ++ numberToString (fieldNumber field)
                             ++ js ": " ++ err_message parseErr))).

(** [trailer.match(/grpc-message:\s*([^\r\n]+)/)]: the group of the leftmost
    match.  [spacesThenGroup] is the part behind the literal, with the greedy
    [\s*] giving back one character at a time. *)
Fixpoint spacesThenGroup (s : jsstring) : option jsstring :=
  match s with
  | [] => None
  | c :: rest =>
    if isSpace c then
      match spacesThenGroup rest with
      | Some group => Some group
      | None =>
        if isLineBreak c then None
        else Some (takeWhile (fun x => negb (isLineBreak x)) s)
      end
    else if isLineBreak c then None
    else Some (takeWhile (fun x => negb (isLineBreak x)) s)
  end.

Fixpoint matchGrpcMessage (s : jsstring) : option jsstring :=
  match s with
  | [] => None
  | _ :: rest =>
    match stripPrefix (js "grpc-message:") s with
    | Some behind =>
      match spacesThenGroup behind with
      | Some group => Some group
      | None => matchGrpcMessage rest
      end
    | None => matchGrpcMessage rest
    end
  end.

Definition isTrailer (frame : Frame) : bool := negb (Z.land (flags frame) 0x80 =? 0).

(** The trailer branch, up to its [continue]. *)
Definition onTrailer (frame : Frame) : M unit :=
  let trailer := decodeText (frameData frame) in
  if includes (js "grpc-status:") trailer && negb (includes (js "grpc-status: 0") trailer)
  then
    let raw := default (js "Unknown gRPC error") (matchGrpcMessage trailer) in
    match decodeURIComponent raw with
    | Some errorMsg => yield (error_chunk errorMsg)
    | None => throw (URIError "URI malformed")
    end
  else ret tt.

(** A message frame: all its fields are handled, also behind a turn end. *)
Definition onMessage (requestId : jsstring) (frame : Frame) : M unit :=
  serverMsgFields <- liftResult (parseProtoFields (frameData frame)) ;;
  forEach serverMsgFields (onServerField requestId).

(** The loop over the frames completed by one read: a trailer [continue]s, a
    message frame ends with [if (turnEnded) break]. *)
Fixpoint framesLoop (requestId : jsstring) (frames : list Frame) : M unit :=
  match frames with
  | [] => ret tt
  | frame :: rest =>
    if isTrailer frame then
      onTrailer frame ;;; framesLoop requestId rest
    else
      onMessage requestId frame ;;;
      st <- get ;;
      if turnEnded st then ret tt else framesLoop requestId rest
  end.

(** [while (!turnEnded) { read; ... }] *)
Fixpoint readsLoop (requestId : jsstring) (reads : list (list Frame)) (ending : StreamEnd)
    : M unit :=
  st <- get ;;
  if turnEnded st then ret tt
  else
    match reads with
    | [] =>
      match ending with
      | EndOfStream => yield done
      | ReadRejects e => throw e
      end
    | frames :: rest =>
      framesLoop requestId frames ;;; readsLoop requestId rest ending
    end.

(** [if (turnEnded) { ... }] behind the loop. *)
Definition afterLoop : M unit :=
  st <- get ;;
  when (turnEnded st)
    (when (negb (hasStreamedText st)
           && (0 <? Z.of_nat (length (pendingAssistantBlobs st))))
       (forEach (pendingAssistantBlobs st)
                (fun blob => yield (kv_blob_assistant (Kv.content blob)))) ;;;
     yield done).

Definition errorText (e : JsError) : jsstring :=
  match err_message e with
  | [] => err_name e
  | m => m
  end.

Definition isAbortError (e : JsError) : bool := jsstring_eqb (err_name e) (js "AbortError").

(** The part of [chatStream] that reads the body: the flags are reset, the
    blobs of earlier requests are dropped, and the reader is released in the
    [finally]. *)
Definition streamLoop (requestId : jsstring) (reads : list (list Frame)) (ending : StreamEnd)
    : M unit :=
  modify (set_turnEnded false) ;;;
  modify (set_hasStreamedText false) ;;;
  modify (set_pendingAssistantBlobs []) ;;;
  tryFinally
    (readsLoop requestId reads ending ;;; afterLoop)
    (set_currentRequestId None).

(** The outer [catch]. *)
Definition onStreamError (err : JsError) : M unit :=
  modify (set_currentRequestId None) ;;;
  if isAbortError err then ret tt
  else yield (error_chunk (errorText err)).

(** [chatStream]: [requestId] is the fresh UUID, [messageBody] the encoded
    chat message, [sse] what the [RunSSE] call brings. *)
Definition chatStream (requestId : jsstring) (messageBody : bytes) (sse : SseResponse)
    : M unit :=
  modify (set_appendSeqno 0) ;;;
  t <- now ;;
  modify (set_lastProgressAt t) ;;;
  modify (set_heartbeatSinceProgress 0) ;;;
  modify (set_hasProgress false) ;;;
  modify (set_currentRequestId (Some requestId)) ;;;
  modify (set_currentAppendSeqno 0) ;;;
  tryCatch
    (st <- get ;;
     modify (set_appendSeqno (appendSeqno st + 1)) ;;;
     bidiAppend requestId (appendSeqno st) messageBody ;;;
     modify (fun st => set_currentAppendSeqno (appendSeqno st) st) ;;;
     match sse with
     | FetchRejects e => throw e
     | NotOk status errorText =>
       yield (error_chunk (js "SSE stream failed: " ++ status ++ js " - " ++ errorText))
     | NoBody => yield (error_chunk (js "No response body from SSE stream"))
     | Body reads ending => streamLoop requestId reads ending
     end)
    onStreamError.

(** The state in which the read loop starts when the first append has been
    accepted. *)
Definition streamStart (requestId : jsstring) (messageBody : bytes) (st : St) : St :=
  set_pendingAssistantBlobs []
    (set_hasStreamedText false
       (set_turnEnded false
          (set_currentAppendSeqno 1
             (set_wire (wire st ++ [{| ap_requestId := requestId; append_seqno := 0;
                                       ap_data := messageBody |}])
                (set_appendSeqno 1
                   (set_currentAppendSeqno 0
                      (set_currentRequestId (Some requestId)
                         (set_hasProgress false
                            (set_heartbeatSinceProgress 0
                               (set_lastProgressAt (clock (ticks st))
                                  (set_ticks (S (ticks st)) st))))))))))).

End WithEnvironment.

(** The client as its constructor leaves it, before any stream. *)
Definition newClient : St :=
  {| blobStore := ∅; currentRequestId := None; currentAppendSeqno := 0;
     pendingAssistantBlobs := []; appendSeqno := 0; lastProgressAt := 0;
     heartbeatSinceProgress := 0; hasProgress := false; turnEnded := false;
     hasStreamedText := false; wire := []; yielded := []; ticks := 0 |}.

End AgentService.

(** ** The readers of the verification scripts

    The scripts read back what the encoders write: [analyzeProtoBytes] with
    a loop over the fields and a descent into nested messages, and
    [parseVarInt]/[decodeTag] of the comparison script.  Apart from the varint
    branch of [analyzeProtoBytes], which computes on [bigint], they use the
    32-bit operators on numbers. *)

(** [a & b] and [a >> b] on numbers. *)
Definition js_and (a b : Z) : Z := Z.land (toInt32 a) (toInt32 b).
Definition js_sar (a b : Z) : Z := Z.shiftr (toInt32 a) (Z.land b 31).

(** [bytes.slice(start, end)]: a negative index counts from the end, and both
    are clamped to the array. *)
Definition slice (b : bytes) (start end_ : Z) : bytes :=
  let len := Z.of_nat (length b) in
  let k := if start <? 0 then Z.max (len + start) 0 else Z.min start len in
  let final := if end_ <? 0 then Z.max (len + end_) 0 else Z.min end_ len in
  take (Z.to_nat (final - k)) (drop (Z.to_nat k) b).

Module ScriptReaders.

(** What one turn of the loop of [analyzeProtoBytes] reads. *)
Inductive AnalyzedField :=
| VarintField (fieldNumber value : Z)
| LenField (fieldNumber length : Z) (data : bytes)
| OtherField (fieldNumber wireType : Z).

(** [bytes[offset]]: [None] is [undefined], which [>>] and [&] read as 0. *)
Definition byteAt (bytes : bytes) (offset : Z) : option Z :=
  if offset <? 0 then None else bytes !! Z.to_nat offset.

(** The varint loop from an offset that may lie before the array: there the
    one byte it reads is [undefined], which adds nothing and ends the loop. *)
Definition varintFrom (bytes : bytes) (offset : Z) : Z * Z :=
  if offset <? 0 then (0, offset + 1)
  else
    let (value, offset) := Codec.analyzeProtoBytes_varint bytes (Z.to_nat offset) in
    (value, Z.of_nat offset).

(** The length reader of the length-delimited branch; [rest] is the array
    from [offset] on. *)
Fixpoint lengthLoop (rest : bytes) (length shift : Z) (offset : nat) : Z * nat :=
  match rest with
  | [] => (length, offset)
  | byte :: rest' =>
    let length := js_or length (js_shl (js_and byte 0x7f) shift) in
    let shift := shift + 7 in
    let offset := S offset in
    if js_and byte 0x80 =? 0 then (length, offset)
    else lengthLoop rest' length shift offset
  end.

(** What one turn of the [while (offset < bytes.length)] loop reads before
    it prints: the field at [offset], and the offset the loop goes on with
    once the turn is over ([None]: the loop has ended).  A length read with
    the 32-bit operators may be negative, and so may that offset. *)
Definition analyzeProtoBytes_field (bytes : bytes) (offset : Z)
    : option (AnalyzedField * Z) :=
  if offset <? Z.of_nat (length bytes) then
    let key := match byteAt bytes offset with Some byte => byte | None => 0 end in
    let fieldNumber := js_sar key 3 in
    let wireType := js_and key 0x7 in
    let offset := offset + 1 in
    if wireType =? 0 then
      let (value, offset) := varintFrom bytes offset in
      Some (VarintField fieldNumber value, offset)
    else if wireType =? 2 then
      let (length, offset) :=
        lengthLoop (drop (Z.to_nat offset) bytes) 0 0 (Z.to_nat offset) in
      let data := slice bytes (Z.of_nat offset) (Z.of_nat offset + length) in
      Some (LenField fieldNumber length data, Z.of_nat offset + length)
    else Some (OtherField fieldNumber wireType, offset)
  else None.

(** The lines [analyzeProtoBytes] prints; [depth] counts the steps of the
    indentation. *)
Inductive Printed :=
| printed_varint (depth : nat) (fieldNumber value : Z)
| printed_string (depth : nat) (fieldNumber length : Z) (str : jsstring)
| printed_message (depth : nat) (fieldNumber length : Z)
| printed_unknown (depth : nat) (fieldNumber wireType : Z).

(** [str.match(/^[\x20-\x7e\n\r\t]*$/) && str.length > 0] *)
Definition isPrintableChar (c : Z) : bool :=
  ((0x20 <=? c) && (c <=? 0x7e)) || (c =? 10) || (c =? 13) || (c =? 9).

Definition isPrintable (str : jsstring) : bool :=
  forallb isPrintableChar str && match str with [] => false | _ => true end.

(** [analyzeProtoBytes]: the loop from [offset] on, with the descent into a
    payload that does not read as text.  An offset that has gone back makes
    the loop read a field again, and the function need not return: [None]
    is a run that has not returned within [fuel] turns.  (The default decoder
    does not throw, so that the [catch] is never entered.) *)
Fixpoint analyzeProtoBytes_from (fuel : nat) (bytes : bytes) (depth : nat) (offset : Z)
    : option (list Printed) :=
  match fuel with
  | O => None
  | S fuel =>
    match analyzeProtoBytes_field bytes offset with
    | None => Some []
    | Some (VarintField fieldNumber value, offset) =>
      cons (printed_varint depth fieldNumber value)
        <$> analyzeProtoBytes_from fuel bytes depth offset
    | Some (LenField fieldNumber length data, offset) =>
      let str := decodeText data in
      if isPrintable str then
        cons (printed_string depth fieldNumber length str)
          <$> analyzeProtoBytes_from fuel bytes depth offset
      else
        match analyzeProtoBytes_from fuel data (S depth) 0 with
        | None => None
        | Some nested =>
          (fun rest => printed_message depth fieldNumber length :: nested ++ rest)
            <$> analyzeProtoBytes_from fuel bytes depth offset
        end
    | Some (OtherField fieldNumber wireType, _) =>
      Some [printed_unknown depth fieldNumber wireType]
    end
  end.

Definition analyzeProtoBytes (fuel : nat) (bytes : bytes) : option (list Printed) :=
  analyzeProtoBytes_from fuel bytes 0 0.

(** [parseVarInt] of the comparison script: a [do ... while (byte >= 0x80)]
    loop; behind the end of the array [data[i]] is [undefined], which counts
    as no bits and ends the loop.  [rest] is the array from [i] on. *)
Fixpoint parseVarIntLoop (rest : bytes) (value shift : Z) (i : nat) : Z * nat :=
  match rest with
  | [] => (js_or value (js_shl 0 shift), S i)
  | byte :: rest' =>
    let value := js_or value (js_shl (js_and byte 0x7f) shift) in
    if 0x80 <=? byte then parseVarIntLoop rest' value (shift + 7) (S i)
    else (value, S i)
  end.

Definition parseVarInt (data : bytes) (offset : nat) : Z * nat :=
  parseVarIntLoop (drop offset data) 0 0 offset.

Record DecodedTag := {
  tag_fieldNumber : Z;
  tag_wireType : Z;
  tag_newOffset : nat;
}.

Definition decodeTag (data : bytes) (offset : nat) : DecodedTag :=
  let (tag, newOffset) := parseVarInt data offset in
  {| tag_fieldNumber := js_sar tag 3;
     tag_wireType := js_and tag 0x07;
     tag_newOffset := newOffset |}.

End ScriptReaders.

(** ** Session utilities: call ids, tool mapping, expiry of sessions *)

Module SessionTools.

Definition execRequestExecId (r : ExecRequest) : option jsstring :=
  match r with
  | McpExec _ execId _ _ _ _ _ | ShellExec _ execId _ _ _ | ReadExec _ execId _
  | LsExec _ execId _ | GrepExec _ execId _ _ _ | WriteExec _ execId _ _
  | RequestContextExec _ execId => execId
  end.

(** [selectCallBase]: [uuid] is what [crypto.randomUUID()] gives when the
    cleaned id is empty. *)
Definition selectCallBase `{Host} (uuid : jsstring) (execReq : ExecRequest) : jsstring :=
  let raw :=
    match execReq with
    | McpExec _ _ _ _ _ toolCallId _ => toolCallId
    | _ =>
      match execRequestExecId execReq with
      | Some execId => execId
      | None => numberToString (execRequestId execReq)
      end
    end in
  let cleaned := List.filter isAlnum raw in
  match take 32 cleaned with
  | [] => take 12 (List.filter (fun c => negb (c =? 45)) uuid)
  | base => base
  end.

(** The arguments of a tool call: an object written out property by property
    (a property may hold [undefined]), or the arguments record of an MCP
    request as it is. *)
Inductive ToolArgs :=
| ArgsObject (props : list (jsstring * option JSON))
| ArgsRecord (args : JSON).

Definition mapExecRequestToTool (execReq : ExecRequest)
    : option jsstring * option ToolArgs :=
  match execReq with
  | ShellExec _ _ command cwd description =>
    (Some (js "bash"),
     Some (ArgsObject
             ([(js "command", Some (JString command))]
              ++ (if truthyString description
                  then [(js "description", JString <$> description)] else [])
              ++ (match cwd with
                  | [] => []
                  | _ => [(js "workdir", Some (JString cwd))]
                  end))))
  | ReadExec _ _ path =>
    (Some (js "read"), Some (ArgsObject [(js "filePath", Some (JString path))]))
  | LsExec _ _ path =>
    (Some (js "list"), Some (ArgsObject [(js "path", Some (JString path))]))
  | GrepExec _ _ pattern path glob =>
    if truthyString glob then
      (Some (js "glob"),
       Some (ArgsObject [(js "pattern", JString <$> glob); (js "path", JString <$> path)]))
    else
      (Some (js "grep"),
       Some (ArgsObject [(js "pattern", JString <$> pattern); (js "path", JString <$> path)]))
  | McpExec _ _ _ toolName _ _ args => (Some toolName, Some (ArgsRecord args))
  | WriteExec _ _ path fileText =>
    (Some (js "write"),
     Some (ArgsObject [(js "filePath", Some (JString path));
                       (js "content", Some (JString fileText))]))
  | RequestContextExec _ _ => (None, None)
  end.

(** An entry of the session map of [cleanupExpiredSessions]: the time of the
    last activity, whether the session has an iterator with a [return]
    method, and whether that call rejects. *)
Record ExpiringSession := {
  es_lastActivity : Z;
  es_hasReturn : bool;
  es_returnRejects : bool;
}.

(** A [Map] in insertion order; [sessionMap.delete(key)]. *)
Definition SessionMap := list (jsstring * ExpiringSession).

Definition mapDelete (key : jsstring) (sessionMap : SessionMap) : SessionMap :=
  List.filter (fun kv => negb (jsstring_eqb (fst kv) key)) sessionMap.

(** The [for ... of] loop over the entries: an expired session has its
    iterator returned (a rejection is only logged) and is deleted in the
    [finally].  [returned] lists the sessions whose iterator was returned. *)
Fixpoint cleanupLoop (entries : SessionMap) (timeoutMs now : Z)
    (sessionMap : SessionMap) (returned : list jsstring)
    : SessionMap * list jsstring :=
  match entries with
  | [] => (sessionMap, returned)
  | (sessionId, session) :: later =>
    if timeoutMs <? now - es_lastActivity session then
      cleanupLoop later timeoutMs now (mapDelete sessionId sessionMap)
        (if es_hasReturn session then returned ++ [sessionId] else returned)
    else cleanupLoop later timeoutMs now sessionMap returned
  end.

Definition cleanupExpiredSessions (sessionMap : SessionMap) (timeoutMs now : Z)
    : SessionMap * list jsstring :=
  cleanupLoop sessionMap timeoutMs now sessionMap [].

End SessionTools.

(** ** Token payloads (JWT utilities) *)

(** [Buffer.from(s, "base64")] is taken as given; [buffer.toString("utf-8")]
    decodes with replacement and keeps a byte order mark. *)
Class BufferHost := {
  Buffer_from_base64 : jsstring -> bytes;
}.

Definition Buffer_toString_utf8 (data : bytes) : jsstring :=
  List.concat (List.map utf16_of_codepoint (default [] (utf8_codepoints false data None))).

(** [s.replace(/c/g, d)] for single characters. *)
Definition replaceAll (c d : Z) (s : jsstring) : jsstring :=
  List.map (fun x => if x =? c then d else x) s.

Module Jwt.

Section WithHost.
Context `{Host} `{BufferHost}.

(** [decodeJwtPayload]: [None] is [null]; so is a payload that parses to
    [null]. *)
Definition decodeJwtPayload (token : jsstring) : option JSON :=
  match split 46 token with
  | [_; base64Payload; _] =>
    match base64Payload with
    | [] => None
    | _ =>
      let base64 := replaceAll 95 47 (replaceAll 45 43 base64Payload) in
      JSON_parse (Buffer_toString_utf8 (Buffer_from_base64 base64))
    end
  | _ => None
  end.

(** [decoded.exp] when [decoded] is truthy and [typeof decoded.exp] is
    ["number"]. *)
Definition expOf (token : jsstring) : option Z :=
  asNumber (getProp (decodeJwtPayload token) (js "exp")).

(** [Date.now()] is the argument [now] of the three functions below. *)
Definition isTokenExpiringSoon (token : jsstring) (thresholdSeconds now : Z) : bool :=
  match expOf token with
  | None => true
  | Some exp =>
    let currentTime := now / 1000 in
    let timeLeft := exp - currentTime in
    timeLeft <? thresholdSeconds
  end.

Definition isTokenExpired (token : jsstring) (now : Z) : bool :=
  match expOf token with
  | None => true
  | Some exp => exp <? now / 1000
  end.

Definition getTokenTimeRemaining (token : jsstring) (now : Z) : Z :=
  match expOf token with
  | None => -1
  | Some exp => exp - now / 1000
  end.

End WithHost.

End Jwt.

(** ** Refreshing the credential (plugin) *)

Module PluginAuth.
Import Plugin.

(** [parseRefreshParts]: the stored value is [refreshToken|apiKey]. *)
Definition parseRefreshParts (refresh : jsstring) : jsstring * option jsstring :=
  match split 124 refresh with
  | [] => ([], None)
  | [refreshToken] => (refreshToken, None)
  | refreshToken :: apiKey :: _ =>
    (refreshToken, match apiKey with [] => None | _ => Some apiKey end)
  end.

Definition formatRefreshParts (refreshToken : jsstring) (apiKey : option jsstring)
    : jsstring :=
  match apiKey with
  | Some (c :: k) => refreshToken ++ js "|" ++ (c :: k)
  | _ => refreshToken
  end.

(** What a refresh runs against: the refresh endpoint ([Ok None]: it
    answers [null]; its answer is the pair of the new access token and the new
    refresh token) and [Date.now()]. *)
Class RefreshEnv := {
  refreshAccessToken : jsstring -> Result (option (jsstring * jsstring));
  Date_now : Z;
}.

Section Refresh.
Context `{Host} `{BufferHost} `{RefreshEnv}.

(** The expiry given to a fresh access token: its [exp] claim in
    milliseconds when it has a non-zero one, else one hour from now. *)
Definition expiryOf (accessToken : jsstring) : Z :=
  match Jwt.expOf accessToken with
  | Some exp => if exp =? 0 then Date_now + 3600 * 1000 else exp * 1000
  | None => Date_now + 3600 * 1000
  end.

(** [refreshCursorAccessToken]: the updated credential ([None] is
    [undefined]) and the credentials handed to [client.auth.set], whose
    rejection is only logged. *)
Definition refreshCursorAccessToken (auth : OAuthAuthDetails)
    : option OAuthAuthDetails * list OAuthAuthDetails :=
  let parts := parseRefreshParts (refresh auth) in
  match fst parts with
  | [] => (None, [])
  | refreshToken =>
    match refreshAccessToken refreshToken with
    | Throw _ | Ok None => (None, [])
    | Ok (Some (accessToken, newRefreshToken)) =>
      let updatedAuth :=
        {| refresh := formatRefreshParts newRefreshToken (snd parts);
           access := Some accessToken;
           expires := Some (expiryOf accessToken) |} in
      (Some updatedAuth, [updatedAuth])
    end
  end.

End Refresh.

End PluginAuth.

(** ** Credential storage *)

Module Storage.

(** The credentials as they are written to the file and read from it (at
    their declared type; [None] is [undefined]). *)
Record StoredCredentials := {
  accessToken : option jsstring;
  refreshToken : option jsstring;
  apiKey : option jsstring;
}.

(** The file system as the manager meets it.  The manager's calls on it are
    numbered, and a call may fail: [readFile] rejects; [mkdir] or [writeFile]
    rejects, with the file left as it was or cut short (the flag); [unlink]
    rejects with a code other than [ENOENT]. *)
Class FileSystem := {
  readFile_rejects : nat -> bool;
  writeFile_rejects : nat -> option (JsError * bool);
  unlink_rejects : nat -> option JsError;
}.

(** A [FileCredentialManager] with its file: what the text of the file
    parses to ([None]: there is no file, or its text is not JSON, or it is
    [null]), the three cached values ([None] is [null]), and the number of
    calls made on the file system. *)
Record Manager := {
  authFile : option StoredCredentials;
  cachedAccessToken : option jsstring;
  cachedRefreshToken : option jsstring;
  cachedApiKey : option jsstring;
  fsCalls : nat;
}.

Definition newManager (file : option StoredCredentials) : Manager :=
  {| authFile := file; cachedAccessToken := None; cachedRefreshToken := None;
     cachedApiKey := None; fsCalls := 0 |}.

Definition set_authFile (file : option StoredCredentials) (m : Manager) : Manager :=
  {| authFile := file; cachedAccessToken := cachedAccessToken m;
     cachedRefreshToken := cachedRefreshToken m; cachedApiKey := cachedApiKey m;
     fsCalls := fsCalls m |}.

Definition set_cached (a r k : option jsstring) (m : Manager) : Manager :=
  {| authFile := authFile m; cachedAccessToken := a; cachedRefreshToken := r;
     cachedApiKey := k; fsCalls := fsCalls m |}.

Definition called (m : Manager) : Manager :=
  {| authFile := authFile m; cachedAccessToken := cachedAccessToken m;
     cachedRefreshToken := cachedRefreshToken m; cachedApiKey := cachedApiKey m;
     fsCalls := S (fsCalls m) |}.

(** [value || undefined] and [value || null] *)
Definition orUndefined (value : option jsstring) : option jsstring :=
  if truthyString value then value else None.

Section WithFileSystem.
Context `{FileSystem}.

(** [readAuthData]: every failure gives [null]. *)
Definition readAuthData (m : Manager) : option StoredCredentials * Manager :=
  if readFile_rejects (fsCalls m) then (None, called m) else (authFile m, called m).

(** [writeAuthData]: what [JSON.stringify] writes parses back to [data]. *)
Definition writeAuthData (data : StoredCredentials) (m : Manager) : Result unit * Manager :=
  match writeFile_rejects (fsCalls m) with
  | Some (e, cut) => (Throw e, set_authFile (if cut then None else authFile m) (called m))
  | None => (Ok tt, set_authFile (Some data) (called m))
  end.

Definition setAuthentication (accessToken refreshToken : jsstring) (apiKey : option jsstring)
    (m : Manager) : Result unit * Manager :=
  match writeAuthData {| accessToken := Some accessToken;
                         refreshToken := Some refreshToken;
                         apiKey := apiKey |} m with
  | (Throw e, m) => (Throw e, m)
  | (Ok _, m) => (Ok tt, set_cached (Some accessToken) (Some refreshToken) apiKey m)
  end.

Definition getAccessToken (m : Manager) : option jsstring * Manager :=
  if truthyString (cachedAccessToken m) then (cachedAccessToken m, m)
  else
    let (authData, m) := readAuthData m in
    match authData with
    | Some data =>
      if truthyString (accessToken data) then
        (accessToken data, set_cached (accessToken data) (refreshToken data) (apiKey data) m)
      else (None, m)
    | None => (None, m)
    end.

Definition getRefreshToken (m : Manager) : option jsstring * Manager :=
  if truthyString (cachedRefreshToken m) then (cachedRefreshToken m, m)
  else
    let (authData, m) := readAuthData m in
    match authData with
    | Some data =>
      if truthyString (refreshToken data) then
        (refreshToken data, set_cached (accessToken data) (refreshToken data) (apiKey data) m)
      else (None, m)
    | None => (None, m)
    end.

Definition getApiKey (m : Manager) : option jsstring * Manager :=
  if truthyString (cachedApiKey m) then (cachedApiKey m, m)
  else
    let (authData, m) := readAuthData m in
    match authData with
    | Some data =>
      if truthyString (apiKey data) then
        (apiKey data, set_cached (cachedAccessToken m) (cachedRefreshToken m) (apiKey data) m)
      else (None, m)
    | None => (None, m)
    end.

Definition getAllCredentials (m : Manager) : StoredCredentials * Manager :=
  match cachedAccessToken m, cachedRefreshToken m with
  | Some _, Some _ =>
    ({| accessToken := orUndefined (cachedAccessToken m);
        refreshToken := orUndefined (cachedRefreshToken m);
        apiKey := orUndefined (cachedApiKey m) |}, m)
  | _, _ =>
    let (authData, m) := readAuthData m in
    match authData with
    | Some data =>
      (data, set_cached (orUndefined (accessToken data)) (orUndefined (refreshToken data))
                        (orUndefined (apiKey data)) m)
    | None => ({| accessToken := None; refreshToken := None; apiKey := None |}, m)
    end
  end.

Definition clearAuthentication (m : Manager) : Result unit * Manager :=
  match unlink_rejects (fsCalls m) with
  | Some e => (Throw e, called m)
  | None => (Ok tt, set_cached None None None (set_authFile None (called m)))
  end.

Definition clearCache (m : Manager) : Manager := set_cached None None None m.

End WithFileSystem.

End Storage.

(** ** The helpers of authentication over the stored credentials *)

Module AuthHelpers.
Import Storage.

Section WithManager.
Context `{Host} `{BufferHost} `{FileSystem} `{PluginAuth.RefreshEnv}.

(** [getValidAccessToken]; [isTokenExpiringSoon] is called with its default
    threshold of 300 seconds. *)
Definition getValidAccessToken (m : Manager) : Result (option jsstring) * Manager :=
  let (accessToken, m) := getAccessToken m in
  let fresh :=
    match accessToken with
    | Some (c :: t) => negb (Jwt.isTokenExpiringSoon (c :: t) 300 PluginAuth.Date_now)
    | _ => false
    end in
  if fresh then (Ok accessToken, m)
  else
    let (refreshToken, m) := getRefreshToken m in
    match refreshToken with
    | Some (c :: t) =>
      match PluginAuth.refreshAccessToken (c :: t) with
      | Throw e => (Throw e, m)
      | Ok (Some (newAccessToken, newRefreshToken)) =>
        match setAuthentication newAccessToken newRefreshToken None m with
        | (Throw e, m) => (Throw e, m)
        | (Ok _, m) => (Ok (Some newAccessToken), m)
        end
      | Ok None => (Ok accessToken, m)
      end
    | _ => (Ok accessToken, m)
    end.

Definition authenticateWithToken (token : jsstring) (m : Manager) : Result unit * Manager :=
  setAuthentication token [] None m.

Definition isAuthenticated (m : Manager) : bool * Manager :=
  let (token, m) := getAccessToken m in
  match token with
  | Some (c :: t) => (negb (Jwt.isTokenExpired (c :: t) PluginAuth.Date_now), m)
  | _ => (false, m)
  end.

Definition getStoredCredentials (m : Manager) : StoredCredentials * Manager :=
  getAllCredentials m.

Definition clearCredentials (m : Manager) : Result unit * Manager :=
  clearAuthentication m.

End WithManager.

End AuthHelpers.

(** ** Reference decoders and example surroundings

    The statements of Part II hold for every decoder, host and consumer.
    The ones below are used where a statement is run on a concrete input. *)

Module Reference.

(** Modelled from the spec: the varint reader of the decoder ("little-endian
    base-128; each byte's high bit signals continuation; decoder refuses
    inputs exceeding 10 bytes"); the decoder itself ([proto/decoding]) is not
    among the sources.  [None] is a malformed varint. *)
Fixpoint readVarint (data : bytes) (value shift : Z) : option (Z * bytes) :=
  match data with
  | [] => None
  | b :: rest =>
    let value' := Z.lor value (Z.shiftl (Z.land b 0x7f) shift) in
    if Z.land b 0x80 =? 0 then Some (value', rest)
    else if 63 <=? shift then None
    else readVarint rest value' (shift + 7)
  end.

(** Modelled from the spec: [parse_fields(bytes) -> [(field_number, wire_type,
    payload)]] of section 4.1 for the wire types VARINT(0) and LEN(2), the
    tag being [(field_number << 3) | wire_type]; malformed varints and
    truncated LEN payloads fail.  [parseProtoFields] of [proto/decoding] is
    not among the sources. *)
Fixpoint parseFields (fuel : nat) (data : bytes) : Result (list ProtoField) :=
  match data, fuel with
  | [], _ => Ok []
  | _, O => Throw (PlainError (js "out of fuel"))
  | _, S fuel' =>
    match readVarint data 0 0 with
    | None => Throw (PlainError (js "malformed varint"))
    | Some (tag, rest) =>
      let fieldNumber := Z.shiftr tag 3 in
      let wireType := Z.land tag 7 in
      if wireType =? 0 then
        match readVarint rest 0 0 with
        | None => Throw (PlainError (js "malformed varint"))
        | Some (v, rest') =>
          Result_bind (parseFields fuel' rest')
            (fun fields =>
               Ok ({| fieldNumber := fieldNumber; wireType := 0; value := PVNumber v |}
                     :: fields))
        end
      else if wireType =? 2 then
        match readVarint rest 0 0 with
        | None => Throw (PlainError (js "malformed varint"))
        | Some (len, rest') =>
          if Z.of_nat (length rest') <? len then
            Throw (PlainError (js "truncated payload"))
          else
            Result_bind (parseFields fuel' (drop (Z.to_nat len) rest'))
              (fun fields =>
                 Ok ({| fieldNumber := fieldNumber; wireType := 2;
                        value := PVBytes (take (Z.to_nat len) rest') |} :: fields))
        end
      else Throw (PlainError (js "unsupported wire type"))
    end
  end.

Definition parseProtoFields (data : bytes) : Result (list ProtoField) :=
  parseFields (length data) data.

(** Modelled from the spec: [partial_tool_call {1: call_id, 2:
    args_text_delta}] of section 4.2; [parsePartialToolCallUpdate] of
    [proto/tool-calls] is not among the sources. *)
Definition parsePartialToolCallUpdate (data : bytes) : Result PartialToolCallUpdate :=
  Result_bind (parseProtoFields data) (fun fields =>
    Ok (List.fold_left
          (fun p f =>
             match lenField 1 f, lenField 2 f with
             | Some v, _ => {| ptu_callId := decodeText v;
                               ptu_argsTextDelta := ptu_argsTextDelta p |}
             | None, Some v => {| ptu_callId := ptu_callId p;
                                  ptu_argsTextDelta := decodeText v |}
             | None, None => p
             end)
          fields {| ptu_callId := []; ptu_argsTextDelta := [] |})).

(** Modelled from the spec: the layout of [tool_call_started] is not given
    in section 4.2 and [parseToolCallStartedUpdate] is not among the sources;
    this decoder checks the fields and reports no tool call. *)
Definition parseToolCallStartedUpdate (data : bytes) : Result ToolCallStartedUpdate :=
  Result_bind (parseProtoFields data) (fun _ =>
    Ok {| tcs_callId := []; tcs_modelCallId := []; tcs_toolCall := None |}).

(** Modelled from the spec: [ExecServerMessage] with the numbering of
    [ExecClientMessage] in section 4.2 ([1: id], [12: request_context],
    [15: exec_id]); every other variant is reported as unknown.
    [parseExecServerMessage] is not among the sources. *)
Definition parseExecServerMessage (data : bytes) : Result (option ExecRequest) :=
  Result_bind (parseProtoFields data) (fun fields =>
    let id :=
      List.fold_left
        (fun acc f =>
           if (fieldNumber f =? 1) && (wireType f =? 0) then
             match value f with PVNumber n => n | PVBytes _ => acc end
           else acc)
        fields 0 in
    let execId :=
      List.fold_left
        (fun acc f => match lenField 15 f with Some v => Some (decodeText v) | None => acc end)
        fields None in
    if existsb (fun f => match lenField 12 f with Some _ => true | None => false end) fields
    then Ok (Some (RequestContextExec id execId))
    else Ok None).

Definition decoders : ProtoDecoders :=
  Build_ProtoDecoders parseProtoFields parseExecServerMessage
    parseToolCallStartedUpdate parsePartialToolCallUpdate.

(** A JSON text written with ['] for the double quote. *)
Definition jsq (s : string) : jsstring :=
  List.map (fun c => if c =? 39 then 34 else c) (js s).

Definition assistantDoc : jsstring := jsq "{'role':'assistant','content':'Hello from a blob'}".
Definition assistantJson : JSON :=
  JObject [(js "role", JString (js "assistant"));
           (js "content", JString (js "Hello from a blob"))].

Definition secondDoc : jsstring :=
  jsq "{'messages':[{'role':'user','content':'hi'},{'role':'assistant','content':'second'}]}".
Definition secondJson : JSON :=
  JObject [(js "messages",
            JArray [JObject [(js "role", JString (js "user"));
                             (js "content", JString (js "hi"))];
                    JObject [(js "role", JString (js "assistant"));
                             (js "content", JString (js "second"))]])].

(** A host whose [JSON.parse] knows the two documents above and rejects
    every other text, and whose [JSON.stringify] is only asked about the
    empty object. *)
Definition host : Host := {|
  JSON_parse := fun t =>
    if jsstring_eqb t assistantDoc then Some assistantJson
    else if jsstring_eqb t secondDoc then Some secondJson
    else None;
  JSON_stringify := fun _ => js "{}";
  Number_toString := fun n => js (pretty n);
|}.

(** The method by which the result of an exec request is sent. *)
Definition resultKindOf (req : ExecRequest) : AgentService.ResultKind :=
  match req with
  | McpExec _ _ _ _ _ _ _ => AgentService.tool_result
  | ShellExec _ _ _ _ _ => AgentService.shell_result
  | ReadExec _ _ _ => AgentService.read_result
  | LsExec _ _ _ => AgentService.ls_result
  | GrepExec _ _ _ _ _ => AgentService.grep_result
  | WriteExec _ _ _ _ => AgentService.write_result
  | RequestContextExec _ _ => AgentService.request_context_result
  end.

(** A consumer that answers every exec request through the client, with
    [message] as the encoded result, and never stops; a clock that advances
    by [tick] milliseconds per reading; a transport that accepts every
    append. *)
Definition answering (message : bytes) (history : list AgentService.AgentStreamChunk)
    : AgentService.Reaction :=
  match last history with
  | Some (AgentService.exec_request req) =>
    {| AgentService.sends := [(resultKindOf req, execRequestId req, message)];
       AgentService.stops := false |}
  | _ => {| AgentService.sends := []; AgentService.stops := false |}
  end.

Definition streamEnv (message : bytes) (tick : Z) : AgentService.StreamEnv := {|
  AgentService.consumer := answering message;
  AgentService.clock := fun n => tick * Z.of_nat n;
  AgentService.appendResponse := fun _ => None;
|}.

(** A consumer like [chat]: it stops at the first error chunk. *)
Definition stoppingOnError (history : list AgentService.AgentStreamChunk)
    : AgentService.Reaction :=
  match last history with
  | Some (AgentService.error_chunk _) =>
    {| AgentService.sends := []; AgentService.stops := true |}
  | _ => {| AgentService.sends := []; AgentService.stops := false |}
  end.

(** Example frames, built with the encoders of the codec. *)
Definition messageFrame (data : bytes) : AgentService.Frame :=
  {| AgentService.flags := 0; AgentService.frameData := data |}.

Definition trailerFrame (text : jsstring) : AgentService.Frame :=
  {| AgentService.flags := 0x80; AgentService.frameData := TextEncoder_encode text |}.

Definition kvGetFrame (id : Z) (blobId : bytes) : AgentService.Frame :=
  messageFrame
    (Codec.encodeMessageField 4
       (Codec.concatBytes
          [Codec.encodeUint32Field 1 id;
           Codec.encodeMessageField 2 (Codec.encodeMessageField 1 blobId)])).

Definition kvSetFrame (id : Z) (blobId blobData : bytes) : AgentService.Frame :=
  messageFrame
    (Codec.encodeMessageField 4
       (Codec.concatBytes
          [Codec.encodeUint32Field 1 id;
           Codec.encodeMessageField 3
             (Codec.concatBytes [Codec.encodeMessageField 1 blobId;
                                 Codec.encodeMessageField 2 blobData])])).

Definition requestContextFrame (id : Z) : AgentService.Frame :=
  messageFrame
    (Codec.encodeMessageField 2
       (Codec.concatBytes [Codec.encodeUint32Field 1 id; Codec.encodeMessageField 12 []])).

Definition textFrame (text : jsstring) : AgentService.Frame :=
  messageFrame
    (Codec.encodeMessageField 1 (Codec.encodeMessageField 1 (Codec.encodeStringField 1 text))).

Definition turnEndedFrame : AgentService.Frame :=
  messageFrame (Codec.encodeMessageField 1 (Codec.encodeMessageField 14 [])).

Definition heartbeatFrame : AgentService.Frame :=
  messageFrame (Codec.encodeMessageField 1 (Codec.encodeMessageField 13 [])).

(** The trailer of scenario S6. *)
Definition errorTrailer : jsstring :=
  js "grpc-status: 13" ++ [13; 10] ++ js "grpc-message: foo%20bar" ++ [13; 10].

(** One stream on a fresh client. *)
Definition run (env : AgentService.StreamEnv) (reads : list (list AgentService.Frame))
    : AgentService.Outcome unit * AgentService.St :=
  @AgentService.chatStream decoders host env (js "request-1") [0x0a; 0x00]
    (AgentService.Body reads AgentService.EndOfStream) AgentService.newClient.

Definition bridgeEnv : SessionReuse.BridgeEnv := {|
  SessionReuse.clientResolves := fun _ => true;
  SessionReuse.process_cwd := js "/work";
  SessionReuse.Date_now := 1700000000000;
|}.

End Reference.

(** ** Notions used in the statements of Part II *)

Section ExpiryNotions.
Import Plugin.

(** The predicate of the specification, read on a credential whose expiry
    may be missing: no access token, or an expiry at most 60 seconds ahead. *)
Definition expiredByTheSpec (auth : OAuthAuthDetails) (now : Z) : Prop :=
  truthyString (access auth) = false \/
  exists e, expires auth = Some e /\ e <= now + 60000.

Definition tokenWithoutExpiry : OAuthAuthDetails :=
  {| refresh := js "refresh-token"; access := Some (js "access-token"); expires := None |}.

End ExpiryNotions.

Section BridgeNotions.
Import SessionReuse.


(** The read reply with a given [fileSize]. *)
Definition readReply (id : Z) (execId : option jsstring) (content path : jsstring)
    (fileSize : Z) : SessionClientCall :=
  sendReadResult id execId content path
    (Some (Z.of_nat (length (split 10 content)))) (Some fileSize) (Some false).


Definition readingSession : SessionLike :=
  {| id := js "ab12";
     pendingExecs := {[ js "sess_ab12__call_r1" := ReadExec 1 None (js "/tmp/cafe.txt") ]};
     createdAt := 0; lastActivity := 0; state := waiting_tool |}.

Definition plainMessage : OpenAIMessageLite :=
  {| role := RoleTool;
     content := Some (JString (js "line one"));
     tool_calls := None;
     tool_call_id := Some (js "sess_ab12__call_r1") |}.

End BridgeNotions.

Section StreamNotions.
Import AgentService.
Context {env : StreamEnv}.

(** [onlyWire st st']: [st'] differs from [st] at most in the appends made
    and in the client's [currentAppendSeqno]. *)
Definition onlyWire (st st' : St) : Prop :=
  st' = set_wire (wire st') (set_currentAppendSeqno (currentAppendSeqno st') st).

(** The state right after a progress mark: the beat counter is zero, the
    progress flag is set, and the idle clock holds the latest reading of the
    clock. *)
Definition progressMarked (st : St) : Prop :=
  heartbeatSinceProgress st = 0 /\
  hasProgress st = true /\
  exists n, ticks st = S n /\ lastProgressAt st = clock n.

Definition sameIdle (st st' : St) : Prop :=
  heartbeatSinceProgress st' = heartbeatSinceProgress st /\
  hasProgress st' = hasProgress st /\
  lastProgressAt st' = lastProgressAt st /\
  ticks st' = ticks st.

(** A block that, when it ends normally, has marked progress ... *)
Definition Marks (block : M unit) : Prop :=
  forall st st', block st = (Normal tt, st') -> progressMarked st'.

(** ... and one that has either marked progress or left the idle tracker as
    it was. *)
Definition KeepsOrMarks (block : M unit) : Prop :=
  forall st st', block st = (Normal tt, st') -> sameIdle st st' \/ progressMarked st'.

Definition carriesProgress (parsed : ParsedInteractionUpdate) : Prop :=
  truthyString (text parsed) = true \/ toolCallStarted parsed <> None \/
  toolCallCompleted parsed <> None \/ partialToolCall parsed <> None.


(** A piece of the generator all of whose runs, however they end, relate
    the state before to the state behind. *)
Definition Steps (R : St -> St -> Prop) {A} (m : M A) : Prop :=
  forall st o st', m st = (o, st') -> R st st'.

Class StepRelation (R : St -> St -> Prop) := {
  step_refl : forall st, R st st;
  step_trans : forall a b c, R a b -> R b c -> R a c;
}.


(** The sequence numbers of the appends made since the wire had [n0]
    entries; [inSequence n0 st]: they are 0, 1, 2, ... and the stream's counter
    is the next one. *)
Definition seqnosSince (n0 : nat) (st : St) : list Z :=
  List.map append_seqno (drop n0 (wire st)).

Definition countUp (k : nat) : list Z := List.map Z.of_nat (seq 0 k).

Definition inSequence (n0 : nat) (st : St) : Prop :=
  (n0 <= length (wire st))%nat /\
  seqnosSince n0 st = countUp (length (wire st) - n0)%nat /\
  appendSeqno st = Z.of_nat (length (wire st) - n0)%nat.

Definition keepsSequence (n0 : nat) (st st' : St) : Prop :=
  inSequence n0 st -> inSequence n0 st'.



End StreamNotions.

Section FrameNotions.
Import AgentService.
Context `{ProtoDecoders} `{Host}.

(** An inbound message that carries one interaction update and nothing
    else: a message frame whose one field is field 1, with the bytes of the
    update. *)
Definition carriesUpdate (frame : Frame) (update : bytes) : Prop :=
  isTrailer frame = false /\
  exists field,
    parseProtoFields (frameData frame) = Ok [field] /\ lenField 1 field = Some update.

(** An inbound heartbeat, and an inbound end of the turn: an update all of
    whose fields (there is one at least) are [heartbeat] fields (13), or
    [turn_ended] fields (14). *)
Definition carriesOnly (n : Z) (frame : Frame) : Prop :=
  exists update marks,
    carriesUpdate frame update /\
    parseProtoFields update = Ok marks /\
    marks <> [] /\
    Forall (fun mark => fieldNumber mark = n) marks.

(** An inbound text: an update with one [text_delta] (field 1) or
    [token_delta] (field 8) whose one field is the text, and that text is not
    empty. *)
Definition carriesText (frame : Frame) (t : jsstring) : Prop :=
  exists update delta inner textField textBytes,
    carriesUpdate frame update /\
    parseProtoFields update = Ok [delta] /\
    (lenField 1 delta = Some inner \/ lenField 8 delta = Some inner) /\
    parseProtoFields inner = Ok [textField] /\
    lenField 1 textField = Some textBytes /\
    decodeText textBytes = t /\
    t <> [].

(** The field of an inbound text, tool-call, exec, checkpoint, query or
    abort event: an interaction update (field 1) that is no heartbeat and
    carries text or a tool call, an exec request (field 2), a checkpoint
    (field 3), an exec control message (field 5) or a query (field 7). *)
Definition carriesEvent (field : ProtoField) : Prop :=
  (exists v parsed,
      lenField 1 field = Some v /\ parseInteractionUpdate v = Ok parsed /\
      isHeartbeat parsed = false /\ carriesProgress parsed) \/
  (exists v req, lenField 2 field = Some v /\ parseExecServerMessage v = Ok (Some req)) \/
  (exists v, lenField 3 field = Some v \/ lenField 5 field = Some v \/
             lenField 7 field = Some v).

(** The thresholds of a heartbeat that arrives in state [st]: the beats
    since the last progress, this one included, and the time since then. *)
Definition beatsReached (st : St) : Prop :=
  1000 <= heartbeatSinceProgress st + 1.

Definition idleReached `{StreamEnv} (st : St) : Prop :=
  (if hasProgress st then 120000 else 180000) <= clock (ticks st) - lastProgressAt st.

End FrameNotions.

Section BlobNotions.
Import AgentService.
Context `{ProtoDecoders} `{Host}.








(** The list of recorded contents is as it was. *)
Definition keepsBlobs (st st' : St) : Prop :=
  pendingAssistantBlobs st' = pendingAssistantBlobs st.

End BlobNotions.

Section AbsenceNotions.
Context `{ProtoDecoders}.

(** A message some of whose length-delimited fields (those with the numbers
    [outer]) are messages themselves: [absentIn outer inner fields] says that
    in none of them a length-delimited field with the number [inner] is
    present. *)
Definition absentIn (outer : list Z) (inner : Z) (fields : list ProtoField) : Prop :=
  Forall (fun f =>
            forall n v, In n outer -> lenField n f = Some v ->
              exists innerFields,
                parseProtoFields v = Ok innerFields /\
                Forall (fun g => lenField inner g = None) innerFields)
         fields.

End AbsenceNotions.

Section StreamInputs.
Import AgentService.

(** The surroundings and inputs of the example runs. *)
Definition quiet : StreamEnv := Reference.streamEnv [] 10.

Definition recoveryReads : list (list Frame) :=
  [[Reference.kvSetFrame 1 [0x01; 0x02] (TextEncoder_encode Reference.assistantDoc);
    Reference.kvSetFrame 2 [0x03] (TextEncoder_encode Reference.secondDoc)];
   [Reference.turnEndedFrame]].

Definition afterErrorReads : list (list Frame) :=
  [[Reference.trailerFrame Reference.errorTrailer;
    Reference.textFrame (js "hi");
    Reference.turnEndedFrame]].

Definition interleavedReads : list (list Frame) :=
  [[Reference.requestContextFrame 5]; [Reference.kvGetFrame 9 [0x01; 0x02]]].



(** The state of a stream on a fresh client after [n] heartbeats and nothing
    else. *)
Definition afterBeats (n : nat) : St :=
  snd (@framesLoop Reference.decoders Reference.host quiet (js "request-1")
         (repeat Reference.heartbeatFrame n)
         (@streamStart quiet (js "request-1") [0x0a; 0x00] newClient)).

End StreamInputs.

Section BridgeLoopNotions.
Import SessionReuse SessionTools.

(** What the loop of [sendToolResultsToCursor] keeps, whichever way it is
    left: pending requests are only taken away, the session is otherwise as
    it was, the calls made are only added to, and [processedAny] is only set
    together with a call. *)
Definition keptByLoop (run run' : BridgeRun) : Prop :=
  pendingExecs (session run') ⊆ pendingExecs (session run) /\
  SessionReuse.id (session run') = SessionReuse.id (session run) /\
  createdAt (session run') = createdAt (session run) /\
  lastActivity (session run') = lastActivity (session run) /\
  state (session run') = state (session run) /\
  exists more,
    calls run' = calls run ++ more /\
    (processedAny run' = true -> processedAny run = true \/ more <> []).

(** [now - session.lastActivity > timeoutMs] *)
Definition sessionExpired (timeoutMs now : Z) (entry : jsstring * ExpiringSession) : bool :=
  timeoutMs <? now - es_lastActivity (snd entry).

End BridgeLoopNotions.

Section ReaderNotions.
Import ScriptReaders.

(** A field with a scalar value, as the encoders of the codec write it and
    as [analyzeProtoBytes] prints it at the top level; a signed value is
    printed as its unsigned 32-bit form. *)
Inductive ScalarField :=
| UintValue (fieldNumber value : Z)
| IntValue (fieldNumber value : Z)
| StringValue (fieldNumber : Z) (value : jsstring).

Definition encodeScalar (field : ScalarField) : bytes :=
  match field with
  | UintValue f v => Codec.encodeUint32Field f v
  | IntValue f v => Codec.encodeInt32Field f v
  | StringValue f s => Codec.encodeStringField f s
  end.

Definition printedScalar (field : ScalarField) : Printed :=
  match field with
  | UintValue f v => printed_varint 0 f v
  | IntValue f v => printed_varint 0 f (if 0 <=? v then v else v + 0x100000000)
  | StringValue f s => printed_string 0 f (Z.of_nat (length s)) s
  end.

(** The fields that are written at all and read back as they are: a field
    number from 1 to 15, a value other than the default, a text that
    [analyzeProtoBytes] takes for a string. *)
Definition readable (field : ScalarField) : Prop :=
  match field with
  | UintValue f v => 1 <= f <= 15 /\ 0 < v
  | IntValue f v => 1 <= f <= 15 /\ - 2 ^ 31 <= v < 2 ^ 31 /\ v <> 0
  | StringValue f s => 1 <= f <= 15 /\ isPrintable s = true /\ Z.of_nat (length s) < 2 ^ 31
  end.

End ReaderNotions.

Section StorageNotions.
Import Storage.

(** A cached value that is in use (present and not empty) is the value the
    file holds. *)
Definition cachedFromFile (field : StoredCredentials -> option jsstring)
    (cached : option jsstring) (m : Manager) : Prop :=
  truthyString cached = true ->
  exists data, authFile m = Some data /\ field data = cached.

Definition cacheFollowsFile (m : Manager) : Prop :=
  cachedFromFile accessToken (cachedAccessToken m) m /\
  cachedFromFile refreshToken (cachedRefreshToken m) m /\
  cachedFromFile apiKey (cachedApiKey m) m.

End StorageNotions.

Section FurtherInputs.
Import AgentService.

(** A consumer that only iterates: it sends nothing and never stops. *)
Definition silent : StreamEnv := {|
  consumer := fun _ => {| sends := []; stops := false |};
  clock := fun n => 10 * Z.of_nat n;
  appendResponse := fun _ => None;
|}.

(** A session client every call on which rejects. *)
Definition rejectingBridge : SessionReuse.BridgeEnv := {|
  SessionReuse.clientResolves := fun _ => false;
  SessionReuse.process_cwd := js "/work";
  SessionReuse.Date_now := 1700000000000;
|}.

(** A buffer host that decodes every text to the empty buffer, and a refresh
    endpoint that answers every refresh token with the same pair. *)
Definition emptyBuffers : BufferHost := {| Buffer_from_base64 := fun _ => [] |}.

Definition refreshing : PluginAuth.RefreshEnv := {|
  PluginAuth.refreshAccessToken := fun _ => Ok (Some (js "new-access", js "new-refresh"));
  PluginAuth.Date_now := 1700000000000;
|}.

Definition storedCredential : Plugin.OAuthAuthDetails :=
  {| Plugin.refresh := js "old-refresh|key-1";
     Plugin.access := Some (js "old-access");
     Plugin.expires := Some 0 |}.

(** Two KV messages about the blob [01 02]. *)
Definition storeBlob : Kv.KvServerMessage :=
  {| Kv.id := 1; Kv.messageType := Kv.set_blob_args;
     Kv.blobId := Some [0x01; 0x02]; Kv.blobData := Some [0xff; 0xfe] |}.

Definition fetchBlob : Kv.KvServerMessage :=
  {| Kv.id := 2; Kv.messageType := Kv.get_blob_args;
     Kv.blobId := Some [0x01; 0x02]; Kv.blobData := None |}.

(** A file system without failures, a host that reads every payload as
    [{exp: 2000000000}], and the credentials of a stored login. *)
Definition reliableDisk : Storage.FileSystem := {|
  Storage.readFile_rejects := fun _ => false;
  Storage.writeFile_rejects := fun _ => None;
  Storage.unlink_rejects := fun _ => None;
|}.

Definition claimsHost : Host := {|
  JSON_parse := fun _ => Some (JObject [(js "exp", JNumber 2000000000)]);
  JSON_stringify := fun _ => js "{}";
  Number_toString := fun n => js (pretty n);
|}.

Definition storedLogin : Storage.StoredCredentials :=
  {| Storage.accessToken := Some (js "head.claims.sig");
     Storage.refreshToken := Some (js "old-refresh");
     Storage.apiKey := Some (js "key-1") |}.

(** A tool result for a call the session has never made. *)
Definition strayMessage : SessionReuse.OpenAIMessageLite :=
  {| SessionReuse.role := SessionReuse.RoleTool;
     SessionReuse.content := Some (JString (js "late"));
     SessionReuse.tool_calls := None;
     SessionReuse.tool_call_id := Some (js "sess_zz99__call_x") |}.

End FurtherInputs.

(* ===================================================================== *)
(** * Part II.  Properties                                                *)
(* ===================================================================== *)

Section CodecFacts.
Import Codec.

(** *** Bit-level facts used by the varint round trip *)

Lemma testbit_127 (k : Z) : Z.testbit 127 k = (0 <=? k) && (k <? 7).
Proof. change 127 with (Z.ones 7). apply Z.testbit_ones. lia. Qed.

Lemma testbit_128 (k : Z) : Z.testbit 128 k = (k =? 7).
Proof.
  change 128 with (2 ^ 7). destruct (Z.eqb_spec k 7) as [->|Hne].
  - apply Z.pow2_bits_true. lia.
  - apply Z.pow2_bits_false. lia.
Qed.

Ltac bits :=
  apply Z.bits_inj'; intros ?k ?Hk;
  repeat first
    [ rewrite Z.land_spec | rewrite Z.lor_spec
    | rewrite testbit_127 | rewrite testbit_128 | rewrite Z.bits_0 ];
  repeat match goal with
  | |- context [?a <=? ?b] => destruct (Z.leb_spec a b); try lia
  | |- context [?a <? ?b] => destruct (Z.ltb_spec a b); try lia
  | |- context [?a =? ?b] => destruct (Z.eqb_spec a b); try lia
  end;
  simpl; rewrite ?andb_false_r, ?andb_true_r, ?orb_false_r, ?orb_true_r;
  try reflexivity.

Lemma low7_of_continued (v : Z) : Z.land (Z.lor (Z.land v 127) 128) 127 = Z.land v 127.
Proof. bits. Qed.

Lemma flag_of_continued (v : Z) : Z.land (Z.lor (Z.land v 127) 128) 128 = 128.
Proof. bits. Qed.

Lemma low7_of_last (v : Z) : Z.land (Z.land v 127) 127 = Z.land v 127.
Proof. bits. Qed.

Lemma flag_of_last (v : Z) : Z.land (Z.land v 127) 128 = 0.
Proof. bits. Qed.

Lemma glue7 (v s : Z) :
  0 <= s ->
  Z.lor (Z.shiftl (Z.land v 127) s) (Z.shiftl (Z.shiftr v 7) (s + 7)) = Z.shiftl v s.
Proof.
  intros Hs. apply Z.bits_inj'; intros k Hk.
  rewrite Z.lor_spec, !Z.shiftl_spec by lia.
  rewrite Z.land_spec, testbit_127.
  destruct (Z.ltb_spec (k - s) 7) as [Hlt|Hge].
  - rewrite (Z.testbit_neg_r _ (k - (s + 7))) by lia.
    rewrite orb_false_r.
    destruct (Z.leb_spec 0 (k - s)); simpl.
    + now rewrite andb_true_r.
    + rewrite andb_false_r. symmetry. apply Z.testbit_neg_r. lia.
  - rewrite andb_false_r, andb_false_r. simpl.
    rewrite Z.shiftr_spec by lia. f_equal. lia.
Qed.

Lemma small_land_127 (v : Z) : 0 <= v -> Z.shiftr v 7 <= 0 -> Z.land v 127 = v.
Proof.
  intros Hv Hs. change 127 with (Z.ones 7). rewrite Z.land_ones by lia.
  rewrite Z.shiftr_div_pow2 in Hs by lia. change (2 ^ 7) with 128 in *.
  apply Z.mod_small. split; [lia|].
  destruct (Z_lt_dec v 128); [assumption|].
  assert (1 <= v / 128) by (apply Z.div_le_lower_bound; lia). lia.
Qed.

(** *** The encoder, one loop iteration at a time *)

Lemma encodeVarint_unfold (v : Z) :
  encodeVarint v =
  if 0 <? Z.shiftr v 7
  then Z.lor (Z.land v 0x7f) 0x80 :: encodeVarint (Z.shiftr v 7)
  else [Z.land v 0x7f].
Proof.
  rewrite encodeVarint_equation_1. unfold encodeVarint_unfold_clause_1.
  destruct (Z_lt_dec 0 (Z.shiftr v 7)) as [H|H];
    destruct (Z.ltb_spec 0 (Z.shiftr v 7)); try lia; reflexivity.
Qed.

Lemma encodeVarint_nonempty (v : Z) : (1 <= length (encodeVarint v))%nat.
Proof. rewrite encodeVarint_unfold. destruct (0 <? Z.shiftr v 7); simpl; lia. Qed.

Lemma shiftr7_lt (v : Z) : 0 < Z.shiftr v 7 -> 0 <= Z.shiftr v 7 < v.
Proof.
  rewrite Z.shiftr_div_pow2 by lia. change (2 ^ 7) with 128. intros H.
  assert (0 < v).
  { destruct (Z_lt_dec 0 v); [assumption|].
    assert (v / 128 <= 0) by (apply Z.div_le_upper_bound; lia). lia. }
  split; [lia|]. apply Z.div_lt; lia.
Qed.

(** Decoding an encoded value that starts at [offset] and is followed by
    arbitrary bytes: the loop ORs [v << shift] into the accumulator and
    stops right behind the encoding. *)
Lemma varintLoop_encodeVarint (v : Z) :
  0 <= v ->
  forall (tail : bytes) (acc shift : Z) (offset : nat),
    0 <= shift ->
    varintLoop (encodeVarint v ++ tail) acc shift offset =
    (Z.lor acc (Z.shiftl v shift), (offset + length (encodeVarint v))%nat).
Proof.
  intros Hv. generalize Hv. pattern v.
  apply Z_lt_induction; [clear v Hv | exact Hv].
  intros v IH Hv tail acc shift offset Hs.
  rewrite encodeVarint_unfold.
  destruct (Z.ltb_spec 0 (Z.shiftr v 7)) as [Hlt|Hge].
  - pose proof (shiftr7_lt v Hlt) as Hdec.
    cbn [app varintLoop].
    rewrite low7_of_continued, flag_of_continued.
    change (128 =? 0) with false. cbv iota.
    rewrite IH by lia.
    rewrite <- Z.lor_assoc, glue7 by lia.
    f_equal. cbn [length]. lia.
  - cbn [app varintLoop].
    rewrite low7_of_last, flag_of_last. change (0 =? 0) with true. cbv iota.
    rewrite small_land_127 by lia. f_equal. cbn [length]. lia.
Qed.

Lemma encodeVarint_length_le (n : nat) :
  forall v, 0 <= v < 2 ^ (7 * Z.of_nat (S n)) -> (length (encodeVarint v) <= S n)%nat.
Proof.
  induction n as [|n IH]; intros v Hv; rewrite encodeVarint_unfold.
  - change (2 ^ (7 * Z.of_nat 1)) with 128 in Hv.
    assert (Z.shiftr v 7 = 0) as ->.
    { rewrite Z.shiftr_div_pow2 by lia. apply Z.div_small. exact Hv. }
    simpl. lia.
  - destruct (Z.ltb_spec 0 (Z.shiftr v 7)) as [Hlt|Hge]; [|simpl; lia].
    cbn [length]. apply le_n_S, IH.
    rewrite Z.shiftr_div_pow2 in * by lia. split; [lia|].
    apply Z.div_lt_upper_bound; [lia|].
    rewrite <- Z.pow_add_r by lia.
    replace (7 + 7 * Z.of_nat (S n)) with (7 * Z.of_nat (S (S n))) by lia.
    lia.
Qed.

Lemma analyzeProtoBytes_varint_encodeVarint (v : Z) :
  0 <= v ->
  analyzeProtoBytes_varint (encodeVarint v) 0 = (v, length (encodeVarint v)).
Proof.
  intros Hv. unfold analyzeProtoBytes_varint. rewrite drop_0.
  rewrite <- (app_nil_r (encodeVarint v)) at 1.
  rewrite varintLoop_encodeVarint by lia.
  rewrite Z.shiftl_0_r, Z.lor_0_l. reflexivity.
Qed.

(** C2.  For every unsigned [v] below [2^64] the varint decoder of
    [analyzeProtoBytes] reads [v] back from [encodeVarint v] and stops behind
    its last byte; the encoding has at least one and at most ten bytes; and
    0, 127 and 300 encode to [00], [7f] and [ac 02]. *)
Theorem varint_roundtrip (v : Z) :
  0 <= v < 2 ^ 64 ->
  (analyzeProtoBytes_varint (encodeVarint v) 0 = (v, length (encodeVarint v))
   /\ (1 <= length (encodeVarint v) <= 10)%nat)
  /\ encodeVarint 0 = [0x00]
  /\ encodeVarint 127 = [0x7f]
  /\ encodeVarint 300 = [0xac; 0x02].
Proof.
  intros Hv. repeat split; try reflexivity.
  - apply analyzeProtoBytes_varint_encodeVarint. lia.
  - apply encodeVarint_nonempty.
  - apply (encodeVarint_length_le 9).
    split; [lia|]. eapply Z.lt_le_trans; [apply Hv|].
    apply Z.pow_le_mono_r; lia.
Qed.

Lemma varint_roundtrip_witness :
  0 <= 300 < 2 ^ 64 /\
  analyzeProtoBytes_varint (encodeVarint 300) 0 = (300, length (encodeVarint 300)).
Proof.
  split; [lia|]. apply (varint_roundtrip 300). lia.
Defined.

(** Behind a one-byte field key, as [analyzeProtoBytes] meets it. *)
Lemma analyzeProtoBytes_varint_after_key (key v : Z) (tail : bytes) :
  0 <= v ->
  analyzeProtoBytes_varint (key :: encodeVarint v ++ tail) 1 =
  (v, S (length (encodeVarint v))).
Proof.
  intros Hv. unfold analyzeProtoBytes_varint. cbn [drop].
  rewrite drop_0, varintLoop_encodeVarint by lia.
  rewrite Z.shiftl_0_r, Z.lor_0_l. reflexivity.
Qed.

(** *** The two copies of the varint encoder agree *)

Lemma DebugScript_encodeVarint_unfold (v : Z) :
  DebugScript.encodeVarint v =
  if 0x7f <? v
  then Z.lor (Z.land v 0x7f) 0x80 :: DebugScript.encodeVarint (Z.shiftr v 7)
  else [Z.land v 0x7f].
Proof.
  rewrite DebugScript.encodeVarint_equation_1.
  unfold DebugScript.encodeVarint_unfold_clause_1.
  destruct (Z_lt_dec 0x7f v); destruct (Z.ltb_spec 0x7f v); try lia; reflexivity.
Qed.

Lemma more_bytes_iff (v : Z) : 0 < Z.shiftr v 7 <-> 0x7f < v.
Proof.
  rewrite Z.shiftr_div_pow2 by lia. change (2 ^ 7) with 128. split; intros Hv.
  - destruct (Z_lt_dec 0x7f v); [assumption|].
    assert (v / 128 <= 0); [|lia].
    destruct (Z_le_dec 0 v).
    + rewrite Z.div_small; lia.
    + apply Z.div_le_upper_bound; lia.
  - apply Z.div_str_pos. lia.
Qed.

Lemma DebugScript_encodeVarint_agrees (v : Z) :
  DebugScript.encodeVarint v = encodeVarint v.
Proof.
  destruct (Z_le_dec v 0x7f) as [Hsmall|Hbig].
  - rewrite DebugScript_encodeVarint_unfold, encodeVarint_unfold.
    destruct (Z.ltb_spec 0x7f v); [lia|].
    destruct (Z.ltb_spec 0 (Z.shiftr v 7)) as [Hs|Hs]; [|reflexivity].
    apply more_bytes_iff in Hs. lia.
  - assert (0 <= v) as Hv by lia. clear Hbig. generalize Hv. pattern v.
    apply Z_lt_induction; [clear v Hv | exact Hv].
    intros v IH Hv.
    rewrite DebugScript_encodeVarint_unfold, encodeVarint_unfold.
    destruct (Z.ltb_spec 0x7f v) as [Hb|Hb];
      destruct (Z.ltb_spec 0 (Z.shiftr v 7)) as [Hs|Hs];
      try reflexivity.
    + rewrite IH; [reflexivity | apply shiftr7_lt; exact Hs | apply shiftr7_lt; exact Hs].
    + exfalso. apply more_bytes_iff in Hb. lia.
    + exfalso. apply more_bytes_iff in Hs. lia.
Qed.

(** Scenario S3: the MCP success wrapping of the text [test result]. *)
Example mcp_result_wrap :
  DebugScript.encodeMcpResult (Some (js "test result")) None
  = [0x0a; 0x11; 0x0a; 0x0f; 0x0a; 0x0d; 0x0a; 0x0b;
     0x74; 0x65; 0x73; 0x74; 0x20; 0x72; 0x65; 0x73; 0x75; 0x6c; 0x74].
Proof. vm_compute. reflexivity. Qed.

(** The script's copy of the integer field encoder does not leave out the
    default value; the codec copy does. *)
Example DebugScript_emits_zero :
  DebugScript.encodeUint32Field 1 0 = [0x08; 0x00] /\ encodeUint32Field 1 0 = [].
Proof. split; reflexivity. Qed.

(** Scenario S4: the envelope of a shell result with [id = 0] and
    [exec_id = ex], read back with the reference field decoder: no field 1,
    field 15 with the exec id, and in field 2 the success variant whose fields
    1, 2, 5 and 7 are present and 3, 4 and 6 left out. *)
Example shell_result_envelope :
  let envelope :=
    buildExecClientMessageWithShellResult 0 (Some (js "ex"))
      (encodeShellResult (js "echo") (js "/") (js "ok" ++ [10]) [] 0 (Some 100)) in
  List.map (fun f => (fieldNumber f, wireType f))
    <$> (match Reference.parseProtoFields envelope with
         | Ok fields => Some fields | Throw _ => None end)
    = Some [(15, 2); (2, 2)]
  /\ encodeShellSuccess (js "echo") (js "/") (js "ok" ++ [10]) [] 0 (Some 100)
     = encodeStringField 1 (js "echo") ++ encodeStringField 2 (js "/")
       ++ encodeStringField 5 (js "ok" ++ [10]) ++ encodeInt32Field 7 100.
Proof. split; vm_compute; reflexivity. Qed.

(** *** Default values *)

Example stream_close_1 : buildExecClientControlMessage 1 = [0x0a; 0x02; 0x08; 0x01].
Proof. reflexivity. Qed.

Example stream_close_0 : buildExecClientControlMessage 0 = [0x0a; 0x00].
Proof. reflexivity. Qed.

Lemma id_survives_get (fields : list ProtoField) (m : Kv.KvServerMessage) :
  Kv.id (List.fold_left Kv.getBlobArgsField fields m) = Kv.id m.
Proof.
  revert m. induction fields as [|f fields IH]; intros m; [reflexivity|].
  cbn [List.fold_left]. rewrite IH. unfold Kv.getBlobArgsField.
  destruct (lenField 1 f); reflexivity.
Qed.

Lemma id_survives_set (fields : list ProtoField) (m : Kv.KvServerMessage) :
  Kv.id (List.fold_left Kv.setBlobArgsField fields m) = Kv.id m.
Proof.
  revert m. induction fields as [|f fields IH]; intros m; [reflexivity|].
  cbn [List.fold_left]. rewrite IH. unfold Kv.setBlobArgsField.
  destruct (lenField 1 f); [reflexivity|]. destruct (lenField 2 f); reflexivity.
Qed.

Lemma kvField_keeps_id `{ProtoDecoders} (m m' : Kv.KvServerMessage) (f : ProtoField) :
  ~ (fieldNumber f = 1 /\ wireType f = 0) ->
  Kv.kvField m f = Ok m' -> Kv.id m' = Kv.id m.
Proof.
  intros Hf. unfold Kv.kvField.
  destruct (Z.eqb_spec (fieldNumber f) 1) as [H1|H1];
    destruct (Z.eqb_spec (wireType f) 0) as [H0|H0]; cbn [andb];
    try (exfalso; apply Hf; split; assumption).
  all: destruct (lenField 2 f) as [v|];
    [ destruct (parseProtoFields v); cbn; intros [= <-]; rewrite id_survives_get; reflexivity
    | destruct (lenField 3 f) as [v|];
      [ destruct (parseProtoFields v); cbn; intros [= <-]; rewrite id_survives_set; reflexivity
      | intros [= <-]; reflexivity ] ].
Qed.

Lemma foldM_kvField_keeps_id `{ProtoDecoders} (fields : list ProtoField) :
  Forall (fun f => ~ (fieldNumber f = 1 /\ wireType f = 0)) fields ->
  forall m m', Result_foldM Kv.kvField fields m = Ok m' -> Kv.id m' = Kv.id m.
Proof.
  induction 1 as [|f fields Hf _ IH]; intros m m'; cbn [Result_foldM].
  - intros [= <-]. reflexivity.
  - destruct (Kv.kvField m f) as [m1|e] eqn:E; cbn [Result_bind]; [|discriminate].
    intros Hrest. rewrite (IH _ _ Hrest). eapply kvField_keeps_id; eassumption.
Qed.

Lemma text_survives_delta (innerFields : list ProtoField)
    (p : AgentService.ParsedInteractionUpdate) :
  Forall (fun g => lenField 1 g = None) innerFields ->
  AgentService.text (List.fold_left AgentService.deltaField innerFields p)
  = AgentService.text p.
Proof.
  intros Hall. revert p. induction Hall as [|g rest Hg _ IH]; intros p; [reflexivity|].
  cbn [List.fold_left]. rewrite IH. unfold AgentService.deltaField. rewrite Hg. reflexivity.
Qed.

Lemma interactionField_keeps_text `{ProtoDecoders} `{Host}
    (p p' : AgentService.ParsedInteractionUpdate) (f : ProtoField) :
  (forall n v, In n [1; 8] -> lenField n f = Some v ->
     exists innerFields,
       parseProtoFields v = Ok innerFields /\
       Forall (fun g => lenField 1 g = None) innerFields) ->
  AgentService.interactionField p f = Ok p' ->
  AgentService.text p' = AgentService.text p.
Proof.
  intros Hf. unfold AgentService.interactionField.
  destruct (lenField 1 f) as [v|] eqn:E1.
  { destruct (Hf 1 v (or_introl eq_refl) E1) as (innerFields & -> & Hall).
    cbn [Result_bind]. intros [= <-]. apply text_survives_delta, Hall. }
  destruct (lenField 2 f) as [v|].
  { destruct (parseToolCallStartedUpdate v); cbn [Result_bind]; [|discriminate].
    intros [= <-]. destruct (AgentService.toolCallInfo _); reflexivity. }
  destruct (lenField 3 f) as [v|].
  { destruct (parseToolCallStartedUpdate v); cbn [Result_bind]; [|discriminate].
    intros [= <-]. destruct (AgentService.toolCallInfo _); reflexivity. }
  destruct (lenField 7 f) as [v|].
  { destruct (parsePartialToolCallUpdate v); cbn [Result_bind]; [|discriminate].
    intros [= <-]. reflexivity. }
  destruct (lenField 8 f) as [v|] eqn:E8.
  { destruct (Hf 8 v (or_intror (or_introl eq_refl)) E8) as (innerFields & -> & Hall).
    cbn [Result_bind]. intros [= <-]. apply text_survives_delta, Hall. }
  destruct (fieldNumber f =? 14); [intros [= <-]; reflexivity|].
  destruct (fieldNumber f =? 13); intros [= <-]; reflexivity.
Qed.

Lemma foldM_interactionField_keeps_text `{ProtoDecoders} `{Host} (fields : list ProtoField) :
  absentIn [1; 8] 1 fields ->
  forall p p',
    Result_foldM AgentService.interactionField fields p = Ok p' ->
    AgentService.text p' = AgentService.text p.
Proof.
  induction 1 as [|f fields Hf _ IH]; intros p p'; cbn [Result_foldM].
  - intros [= <-]. reflexivity.
  - destruct (AgentService.interactionField p f) as [p1|e] eqn:E; cbn [Result_bind];
      [|discriminate].
    intros Hrest. rewrite (IH _ _ Hrest). eapply interactionField_keeps_text; eassumption.
Qed.

Lemma blobId_survives (fields : list ProtoField) (m : Kv.KvServerMessage) :
  Forall (fun g => lenField 1 g = None) fields ->
  Kv.blobId (List.fold_left Kv.getBlobArgsField fields m) = Kv.blobId m /\
  Kv.blobId (List.fold_left Kv.setBlobArgsField fields m) = Kv.blobId m.
Proof.
  intros Hall. revert m. induction Hall as [|g rest Hg _ IH]; intros m; [split; reflexivity|].
  cbn [List.fold_left]. destruct (IH (Kv.getBlobArgsField m g)) as [-> _].
  destruct (IH (Kv.setBlobArgsField m g)) as [_ ->].
  unfold Kv.getBlobArgsField, Kv.setBlobArgsField. rewrite Hg.
  split; [reflexivity|]. destruct (lenField 2 g); reflexivity.
Qed.

Lemma blobData_survives (fields : list ProtoField) (m : Kv.KvServerMessage) :
  (Kv.blobData (List.fold_left Kv.getBlobArgsField fields m) = Kv.blobData m) /\
  (Forall (fun g => lenField 2 g = None) fields ->
   Kv.blobData (List.fold_left Kv.setBlobArgsField fields m) = Kv.blobData m).
Proof.
  split.
  - revert m. induction fields as [|g rest IH]; intros m; [reflexivity|].
    cbn [List.fold_left]. rewrite IH. unfold Kv.getBlobArgsField.
    destruct (lenField 1 g); reflexivity.
  - intros Hall. revert m. induction Hall as [|g rest Hg _ IH]; intros m; [reflexivity|].
    cbn [List.fold_left]. rewrite IH. unfold Kv.setBlobArgsField. rewrite Hg.
    destruct (lenField 1 g); reflexivity.
Qed.

Lemma kvField_keeps_blob `{ProtoDecoders} (m m' : Kv.KvServerMessage) (f : ProtoField) :
  Kv.kvField m f = Ok m' ->
  ((forall n v, In n [2; 3] -> lenField n f = Some v ->
      exists innerFields,
        parseProtoFields v = Ok innerFields /\
        Forall (fun g => lenField 1 g = None) innerFields) ->
   Kv.blobId m' = Kv.blobId m) /\
  ((forall n v, In n [3] -> lenField n f = Some v ->
      exists innerFields,
        parseProtoFields v = Ok innerFields /\
        Forall (fun g => lenField 2 g = None) innerFields) ->
   Kv.blobData m' = Kv.blobData m).
Proof.
  unfold Kv.kvField.
  destruct ((fieldNumber f =? 1) && (wireType f =? 0)).
  { intros [= <-]. destruct (value f); split; reflexivity. }
  destruct (lenField 2 f) as [v|] eqn:E2.
  { destruct (parseProtoFields v) as [argsFields|e] eqn:Ep; cbn [Result_bind]; [|discriminate].
    intros [= <-]. split.
    - intros Hf. destruct (Hf 2 v (or_introl eq_refl) E2) as (innerFields & Hp & Hall).
      rewrite Ep in Hp. injection Hp as <-.
      rewrite (proj1 (blobId_survives _ _ Hall)). reflexivity.
    - intros _. rewrite (proj1 (blobData_survives _ _)). reflexivity. }
  destruct (lenField 3 f) as [v|] eqn:E3.
  { destruct (parseProtoFields v) as [argsFields|e] eqn:Ep; cbn [Result_bind]; [|discriminate].
    intros [= <-]. split.
    - intros Hf.
      destruct (Hf 3 v (or_intror (or_introl eq_refl)) E3) as (innerFields & Hp & Hall).
      rewrite Ep in Hp. injection Hp as <-.
      rewrite (proj2 (blobId_survives _ _ Hall)). reflexivity.
    - intros Hf. destruct (Hf 3 v (or_introl eq_refl) E3) as (innerFields & Hp & Hall).
      rewrite Ep in Hp. injection Hp as <-.
      rewrite (proj2 (blobData_survives _ _) Hall). reflexivity. }
  intros [= <-]. split; reflexivity.
Qed.

Lemma foldM_kvField_keeps_blob `{ProtoDecoders} (fields : list ProtoField) :
  forall m m',
    Result_foldM Kv.kvField fields m = Ok m' ->
    (absentIn [2; 3] 1 fields -> Kv.blobId m' = Kv.blobId m) /\
    (absentIn [3] 2 fields -> Kv.blobData m' = Kv.blobData m).
Proof.
  induction fields as [|f fields IH]; intros m m'; cbn [Result_foldM].
  - intros [= <-]. split; reflexivity.
  - destruct (Kv.kvField m f) as [m1|e] eqn:E; cbn [Result_bind]; [|discriminate].
    intros Hrest. destruct (IH _ _ Hrest) as [Hid Hdata].
    destruct (kvField_keeps_blob _ _ _ E) as [Hid1 Hdata1]. split.
    + intros Habs. apply Forall_cons in Habs as [Hf Hrest'].
      rewrite (Hid Hrest'). apply Hid1, Hf.
    + intros Habs. apply Forall_cons in Habs as [Hf Hrest'].
      rewrite (Hdata Hrest'). apply Hdata1, Hf.
Qed.

(** C7, amended.  An unsigned or signed integer field with value 0 and a
    string field with the empty string encode to no byte at all, so that a
    message whose non-message fields all hold default values (a
    [ShellSuccess], a stream close, a request id) encodes to the empty byte
    string.  Conversely a [KvServerMessage] in which the integer [id] is
    absent decodes with the default, [id = 0]; an absent string or bytes
    field does not decode as the empty string: the text of an interaction
    update in which no text is present decodes as [null], and the blob id and
    the blob data of a KV message in which they are absent are left
    undefined. *)
Theorem default_values_omitted `{ProtoDecoders} `{Host} :
  (forall fieldNumber, encodeUint32Field fieldNumber 0 = []) /\
  (forall fieldNumber, encodeInt32Field fieldNumber 0 = []) /\
  (forall fieldNumber, encodeStringField fieldNumber [] = []) /\
  (forall executionTimeMs,
      truthyNumber executionTimeMs = false ->
      encodeShellSuccess [] [] [] [] 0 executionTimeMs = []) /\
  encodeExecClientStreamClose 0 = [] /\
  encodeBidiRequestId [] = [] /\
  (forall data fields m,
      parseProtoFields data = Ok fields ->
      Forall (fun f => ~ (fieldNumber f = 1 /\ wireType f = 0)) fields ->
      Kv.parseKvServerMessage data = Ok m ->
      Kv.id m = 0) /\
  (forall data fields p,
      parseProtoFields data = Ok fields ->
      absentIn [1; 8] 1 fields ->
      AgentService.parseInteractionUpdate data = Ok p ->
      AgentService.text p = None) /\
  (forall data fields m,
      parseProtoFields data = Ok fields ->
      Kv.parseKvServerMessage data = Ok m ->
      (absentIn [2; 3] 1 fields -> Kv.blobId m = None) /\
      (absentIn [3] 2 fields -> Kv.blobData m = None)).
Proof.
  split; [reflexivity|]. split; [reflexivity|]. split; [reflexivity|].
  split; [intros t Ht; unfold encodeShellSuccess; rewrite Ht; reflexivity|].
  split; [reflexivity|]. split; [reflexivity|]. split; [|split].
  - intros data fields m Hparse Habsent. unfold Kv.parseKvServerMessage.
    rewrite Hparse. cbn [Result_bind]. intros Hfold.
    apply (foldM_kvField_keeps_id fields Habsent) in Hfold. exact Hfold.
  - intros data fields p Hparse Habsent. unfold AgentService.parseInteractionUpdate.
    rewrite Hparse. cbn [Result_bind]. intros Hfold.
    apply (foldM_interactionField_keeps_text fields Habsent) in Hfold. exact Hfold.
  - intros data fields m Hparse. unfold Kv.parseKvServerMessage.
    rewrite Hparse. cbn [Result_bind]. intros Hfold.
    exact (foldM_kvField_keeps_blob fields _ _ Hfold).
Qed.

End CodecFacts.

(** C7, as stated, fails for string and bytes fields.  The update of a text
    delta with the empty text, as the encoders write it, carries no text
    field; it decodes with the text [null], not with the empty string.  A
    [set_blob_args] without fields decodes with no blob id at all, not with
    the empty bytes. *)
Lemma default_values_counterexample :
  Codec.encodeMessageField 1 (Codec.encodeStringField 1 []) = [0x0a; 0x00] /\
  (exists p,
      @AgentService.parseInteractionUpdate Reference.decoders Reference.host
        (Codec.encodeMessageField 1 (Codec.encodeStringField 1 [])) = Ok p /\
      AgentService.text p = None /\
      AgentService.text p <> Some []) /\
  (exists m,
      @Kv.parseKvServerMessage Reference.decoders (Codec.encodeMessageField 3 []) = Ok m /\
      Kv.messageType m = Kv.set_blob_args /\
      Kv.blobId m = None /\
      Kv.blobId m <> Some []).
Proof.
  split; [reflexivity|]. split.
  - eexists. split; [vm_compute; reflexivity|]. split; [reflexivity|discriminate].
  - eexists. split; [vm_compute; reflexivity|]. split; [reflexivity|].
    split; [reflexivity|discriminate].
Qed.

Lemma default_values_omitted_witness :
  Codec.encodeShellSuccess [] [] [] [] 0 (Some 0) = [] /\
  (exists m,
      @Kv.parseKvServerMessage Reference.decoders
        (Codec.encodeMessageField 2 (Codec.encodeMessageField 1 [0x01; 0x02])) = Ok m /\
      Kv.messageType m = Kv.get_blob_args /\ Kv.id m = 0) /\
  (exists p,
      @AgentService.parseInteractionUpdate Reference.decoders Reference.host
        (Codec.encodeMessageField 1 (Codec.encodeStringField 1 [])) = Ok p /\
      AgentService.text p = None) /\
  (exists m,
      @Kv.parseKvServerMessage Reference.decoders
        (Codec.encodeUint32Field 1 7 ++ Codec.encodeMessageField 3 []) = Ok m /\
      Kv.id m = 7 /\ Kv.blobId m = None /\ Kv.blobData m = None).
Proof.
  pose proof (@default_values_omitted Reference.decoders Reference.host)
    as (_ & _ & _ & Hshell & _ & _ & Hid & Htext & Hblob).
  split; [apply Hshell; reflexivity|]. split; [|split].
  - eexists. split; [vm_compute; reflexivity|]. split; [reflexivity|].
    apply (Hid (Codec.encodeMessageField 2 (Codec.encodeMessageField 1 [0x01; 0x02]))
               [ {| fieldNumber := 2; wireType := 2; value := PVBytes [0x0a; 0x02; 0x01; 0x02] |} ]);
      [vm_compute; reflexivity | | vm_compute; reflexivity].
    repeat constructor. cbn. intros [[=] _].
  - eexists. split; [vm_compute; reflexivity|].
    apply (Htext (Codec.encodeMessageField 1 (Codec.encodeStringField 1 []))
                 [ {| fieldNumber := 1; wireType := 2; value := PVBytes [] |} ]);
      [vm_compute; reflexivity | | vm_compute; reflexivity].
    repeat constructor. intros n v [<-|[<-|[]]] Hv; vm_compute in Hv; [|discriminate Hv].
    injection Hv as <-. exists []. split; [vm_compute; reflexivity|constructor].
  - eexists. split; [vm_compute; reflexivity|]. split; [reflexivity|].
    assert (forall outer inner,
               @absentIn Reference.decoders outer inner
                 [ {| fieldNumber := 1; wireType := 0; value := PVNumber 7 |};
                   {| fieldNumber := 3; wireType := 2; value := PVBytes [] |} ])
      as Habs.
    { intros outer inner. repeat constructor; intros n v _ Hv; unfold lenField in Hv;
        cbn [fieldNumber wireType value lenValue] in Hv;
        destruct (_ =? n); try discriminate Hv;
        injection Hv as <-; exists []; (split; [vm_compute; reflexivity|constructor]). }
    destruct (Hblob (Codec.encodeUint32Field 1 7 ++ Codec.encodeMessageField 3 [])
                [ {| fieldNumber := 1; wireType := 0; value := PVNumber 7 |};
                  {| fieldNumber := 3; wireType := 2; value := PVBytes [] |} ]
                {| Kv.id := 7; Kv.messageType := Kv.set_blob_args;
                   Kv.blobId := None; Kv.blobData := None |})
      as [Hi Hd]; [vm_compute; reflexivity | vm_compute; reflexivity |].
    split; [apply Hi, Habs | apply Hd, Habs].
Defined.

(** ** Tool-call ids *)

Section SessionIdFacts.
Import SessionReuse.

Lemma stripPrefix_app (p s : jsstring) : stripPrefix p (p ++ s) = Some s.
Proof.
  induction p as [|c p IH]; [destruct s; reflexivity|].
  cbn [app stripPrefix]. rewrite Z.eqb_refl. exact IH.
Qed.

Lemma startsWith_app (p s : jsstring) : startsWith p (p ++ s) = true.
Proof.
  induction p as [|c p IH]; [destruct s; reflexivity|].
  cbn [app startsWith]. rewrite Z.eqb_refl. exact IH.
Qed.

Lemma alnumPlusThen_cons (lit rest : jsstring) (c : Z) :
  alnumPlusThen lit (c :: rest) =
  if isAlnum c then
    match alnumPlusThen lit rest with
    | Some group => Some (c :: group)
    | None => if startsWith lit rest then Some [c] else None
    end
  else None.
Proof. reflexivity. Qed.

(** Behind a run of alphanumeric characters that is followed by a literal
    starting with another character, the group is the whole run: the greedy
    match succeeds without giving anything back. *)
Lemma alnumPlusThen_run (c0 : Z) (lit' sid tail : jsstring) :
  isAlnum c0 = false ->
  sid <> [] ->
  Forall (fun c => isAlnum c = true) sid ->
  alnumPlusThen (c0 :: lit') (sid ++ (c0 :: lit') ++ tail) = Some sid.
Proof.
  intros Hc0 Hne Hall. induction Hall as [|c sid Hc Hall IH]; [congruence|].
  change ((c :: sid) ++ (c0 :: lit') ++ tail)
    with (c :: (sid ++ (c0 :: lit') ++ tail)).
  rewrite alnumPlusThen_cons, Hc.
  destruct sid as [|c' sid].
  - change ([] ++ (c0 :: lit') ++ tail) with (c0 :: (lit' ++ tail)).
    rewrite alnumPlusThen_cons, Hc0.
    change (c0 :: (lit' ++ tail)) with ((c0 :: lit') ++ tail).
    rewrite startsWith_app. reflexivity.
  - rewrite IH by discriminate. reflexivity.
Qed.

(** C8.  The session id parsed out of [makeToolCallId sid base] is [sid],
    for every non-empty alphanumeric [sid] and every [base]. *)
Theorem tool_call_id_reversible (sid base : jsstring) :
  sid <> [] ->
  Forall (fun c => isAlnum c = true) sid ->
  parseSessionIdFromToolCallId (Some (makeToolCallId sid base)) = Some sid.
Proof.
  intros Hne Hall. unfold parseSessionIdFromToolCallId, makeToolCallId.
  change (js "sess_" ++ sid ++ js "__call_" ++ base)
    with (115 :: (js "ess_" ++ sid ++ js "__call_" ++ base)).
  cbv iota beta.
  change (115 :: (js "ess_" ++ sid ++ js "__call_" ++ base))
    with (js "sess_" ++ (sid ++ js "__call_" ++ base)).
  rewrite stripPrefix_app.
  change (js "__call_") with (95 :: js "_call_").
  apply alnumPlusThen_run; [reflexivity | assumption | assumption].
Qed.

Lemma tool_call_id_reversible_witness :
  parseSessionIdFromToolCallId
    (Some (makeToolCallId (js "a1b2c3d4e5f6") (js "toolu01ABC")))
  = Some (js "a1b2c3d4e5f6").
Proof.
  apply tool_call_id_reversible.
  - discriminate.
  - repeat constructor.
Defined.

End SessionIdFacts.

(** ** Token expiry *)

Section ExpiryFacts.
Import Plugin.

(** C9, as stated, fails: a credential that has an access token but no
    numeric expiry counts as expired, although neither condition of the spec's
    predicate holds for it. *)
Lemma expiry_predicate_counterexample :
  ~ (accessTokenExpired tokenWithoutExpiry 0 = true <-> expiredByTheSpec tokenWithoutExpiry 0).
Proof.
  intros [Hto _]. destruct (Hto eq_refl) as [Hacc | (e & He & _)]; discriminate.
Qed.

(** C9, amended.  The credential needs a refresh exactly when it has no
    (non-empty) access token, or no numeric expiry, or an expiry that is at
    most 60 seconds ahead; with an access token and an expiry more than 60
    seconds ahead it is not expired. *)
Theorem accessTokenExpired_iff (auth : OAuthAuthDetails) (now : Z) :
  (accessTokenExpired auth now = true <->
   truthyString (access auth) = false \/ expires auth = None \/
   exists e, expires auth = Some e /\ e <= now + 60000)
  /\ (forall e, truthyString (access auth) = true -> expires auth = Some e ->
                now + 60000 < e -> accessTokenExpired auth now = false).
Proof.
  unfold accessTokenExpired.
  destruct (truthyString (access auth)), (expires auth) as [e|]; cbn.
  - split.
    + rewrite Z.leb_le. split.
      * intros Hle. right. right. exists e. split; [reflexivity | lia].
      * intros [?|[?|(e' & [= <-] & Hle)]]; try discriminate. lia.
    + intros e' _ [= <-] Hlt. apply Z.leb_gt. lia.
  - split; [|discriminate]. split; auto.
  - split; [|discriminate]. split; auto.
  - split; [|discriminate]. split; auto.
Qed.

Lemma accessTokenExpired_iff_witness :
  accessTokenExpired
    {| refresh := js "r"; access := Some (js "tok"); expires := Some 200000 |} 100000
  = false.
Proof.
  apply (proj2 (accessTokenExpired_iff
                  {| refresh := js "r"; access := Some (js "tok"); expires := Some 200000 |}
                  100000) 200000); [reflexivity | reflexivity | lia].
Defined.

End ExpiryFacts.

(** ** Blob analysis *)

Section BlobFacts.
Context `{ProtoDecoders} `{Host}.

Lemma analyzeAsText_valid (data : bytes) (t : jsstring) :
  TextDecoder_decode true data = Some t ->
  Kv.analyzeAsText data =
  Ok {| Kv.type := match JSON_parse t with
                   | Some _ => Kv.json_blob
                   | None => Kv.text_blob
                   end;
        Kv.json := JSON_parse t;
        Kv.text := Some t;
        Kv.protoFields := None |}.
Proof.
  intros Ht. unfold Kv.analyzeAsText, Kv.decodeFatal, Kv.parseJson.
  rewrite Ht. cbn [Result_bind]. destruct (JSON_parse t); reflexivity.
Qed.

Lemma analyzeAsText_invalid (data : bytes) :
  TextDecoder_decode true data = None ->
  exists e, Kv.analyzeAsText data = Throw e.
Proof.
  intros Ht. unfold Kv.analyzeAsText, Kv.decodeFatal. rewrite Ht.
  eexists. reflexivity.
Qed.

(** Whatever the bytes, the analysis returns. *)
Lemma analyzeBlobData_total (data : bytes) :
  exists analysis, Kv.analyzeBlobData data = Ok analysis.
Proof.
  unfold Kv.analyzeBlobData.
  destruct (Kv.analyzeAsText data) as [analysis|e]; [eexists; reflexivity|].
  destruct (Kv.analyzeAsProto data) as [[analysis|]|e']; eexists; reflexivity.
Qed.

(** C10.  [analyzeBlobData] returns for every byte array, without throwing,
    an analysis whose type is one of the four classifications; when the
    bytes are valid UTF-8 the type is [json] if the text parses as JSON and
    [text] otherwise, and when they are not it is [protobuf] or [binary]. *)
Theorem analyzeBlobData_classifies (data : bytes) :
  exists analysis,
    Kv.analyzeBlobData data = Ok analysis /\
    (Kv.type analysis = Kv.json_blob \/ Kv.type analysis = Kv.text_blob \/
     Kv.type analysis = Kv.protobuf_blob \/ Kv.type analysis = Kv.binary_blob) /\
    match TextDecoder_decode true data with
    | Some t =>
      Kv.text analysis = Some t /\
      Kv.type analysis = match JSON_parse t with
                         | Some _ => Kv.json_blob
                         | None => Kv.text_blob
                         end
    | None =>
      Kv.type analysis = Kv.protobuf_blob \/ Kv.type analysis = Kv.binary_blob
    end.
Proof.
  unfold Kv.analyzeBlobData.
  destruct (TextDecoder_decode true data) as [t|] eqn:Ht.
  - rewrite (analyzeAsText_valid data t Ht).
    eexists. split; [reflexivity|]. cbn.
    destruct (JSON_parse t); auto.
  - destruct (analyzeAsText_invalid data Ht) as [e ->].
    unfold Kv.analyzeAsProto.
    destruct (parseProtoFields data) as [fields|e']; cbn [Result_bind].
    + destruct ((0 <? Z.of_nat (length fields)) && (Z.of_nat (length fields) <? 100));
        eexists; (split; [reflexivity|]); cbn; auto.
    + eexists. split; [reflexivity|]. cbn. auto.
Qed.


End BlobFacts.


Example analyzeBlobData_json :
  Kv.type <$> (match @Kv.analyzeBlobData Reference.decoders Reference.host
                       (TextEncoder_encode Reference.assistantDoc) with
               | Ok a => Some a | Throw _ => None end) = Some Kv.json_blob.
Proof. vm_compute. reflexivity. Qed.

Example analyzeBlobData_binary :
  @Kv.analyzeBlobData Reference.decoders Reference.host [0xff; 0xfe] = Ok Kv.binaryAnalysis.
Proof. vm_compute. reflexivity. Qed.

Example analyzeBlobData_protobuf :
  Kv.type <$> (match @Kv.analyzeBlobData Reference.decoders Reference.host
                       [0x0a; 0x02; 0xc3; 0x28] with
               | Ok a => Some a | Throw _ => None end) = Some Kv.protobuf_blob.
Proof. vm_compute. reflexivity. Qed.

(** ** The tool bridge: read results *)

Section BridgeFacts.
Import SessionReuse.

Lemma split_length (sep : Z) (s : jsstring) :
  length (split sep s) = S (length (List.filter (fun c => c =? sep) s)).
Proof.
  induction s as [|c s IH]; [reflexivity|].
  cbn [split List.filter]. destruct (c =? sep); cbn [length].
  - rewrite IH. reflexivity.
  - destruct (split sep s); cbn [length] in *; lia.
Qed.



Context `{Host} `{BridgeEnv}.


End BridgeFacts.


(** ** The chat stream *)

Section StreamFacts.
Import AgentService.
Context {decoders : ProtoDecoders} {host : Host} {env : StreamEnv}.

(** *** What the pieces of the generator change *)

Lemma onlyWire_refl (st : St) : onlyWire st st.
Proof. destruct st; reflexivity. Qed.

Lemma onlyWire_trans (a b c : St) : onlyWire a b -> onlyWire b c -> onlyWire a c.
Proof. unfold onlyWire. intros Hab Hbc. rewrite Hbc, Hab. reflexivity. Qed.

Lemma onlyWire_set_wire (st : St) (w : list Append) : onlyWire st (set_wire w st).
Proof. destruct st; reflexivity. Qed.

Lemma onlyWire_set_currentAppendSeqno (st : St) (n : Z) :
  onlyWire st (set_currentAppendSeqno n st).
Proof. destruct st; reflexivity. Qed.

Lemma bidiAppend_onlyWire (requestId : jsstring) (seqno : Z) (data : bytes) (st : St) :
  onlyWire st (snd (bidiAppend requestId seqno data st)).
Proof.
  unfold bidiAppend. destruct (appendResponse _); apply onlyWire_set_wire.
Qed.

Lemma sendResult_onlyWire (kind : ResultKind) (id : Z) (message : bytes) (st : St) :
  onlyWire st (snd (sendResult kind id message st)).
Proof.
  unfold sendResult, bind, get, throw, modify.
  destruct (currentRequestId st) as [[|c rid]|]; cbn [snd]; try apply onlyWire_refl.
  pose proof (bidiAppend_onlyWire (c :: rid) (currentAppendSeqno st)
                (Codec.buildAgentClientMessageWithExec message) st) as H1.
  destruct (bidiAppend (c :: rid) _ _ st) as [[[]|e|] st1]; cbn [snd] in *; try exact H1.
  set (st2 := set_currentAppendSeqno (currentAppendSeqno st1 + 1) st1).
  assert (onlyWire st st2) as H2
    by (eapply onlyWire_trans; [exact H1 | apply onlyWire_set_currentAppendSeqno]).
  pose proof (bidiAppend_onlyWire (default [] (currentRequestId st2)) (currentAppendSeqno st2)
                (Codec.buildAgentClientMessageWithExecControl
                   (Codec.buildExecClientControlMessage id)) st2) as H3.
  destruct (bidiAppend (default [] (currentRequestId st2)) _ _ st2) as [[[]|e|] st3];
    cbn [snd] in *;
    try (eapply onlyWire_trans; [exact H2 | exact H3]).
  eapply onlyWire_trans; [|apply onlyWire_set_currentAppendSeqno].
  eapply onlyWire_trans; [exact H2 | exact H3].
Qed.

Lemma runSends_onlyWire (calls : list (ResultKind * Z * bytes)) (st : St) :
  onlyWire st (runSends calls st).
Proof.
  unfold runSends. revert st. induction calls as [|call calls IH]; intros st.
  - apply onlyWire_refl.
  - cbn [List.fold_left]. eapply onlyWire_trans; [apply sendResult_onlyWire | apply IH].
Qed.

(** The fields a send leaves alone. *)
Lemma onlyWire_fields (st st' : St) :
  onlyWire st st' ->
  blobStore st' = blobStore st /\
  currentRequestId st' = currentRequestId st /\
  pendingAssistantBlobs st' = pendingAssistantBlobs st /\
  appendSeqno st' = appendSeqno st /\
  lastProgressAt st' = lastProgressAt st /\
  heartbeatSinceProgress st' = heartbeatSinceProgress st /\
  hasProgress st' = hasProgress st /\
  turnEnded st' = turnEnded st /\
  hasStreamedText st' = hasStreamedText st /\
  yielded st' = yielded st /\
  ticks st' = ticks st.
Proof. intros ->. repeat split. Qed.

(** [yield]: the chunk goes out, the consumer's sends run, and the consumer
    decides whether the generator goes on. *)
Lemma yield_spec (chunk : AgentStreamChunk) (st : St) :
  exists st',
    yield chunk st =
      (if stops (consumer (yielded st ++ [chunk])) then Returned else Normal tt, st') /\
    onlyWire (set_yielded (yielded st ++ [chunk]) st) st'.
Proof.
  unfold yield.
  exists (runSends (sends (consumer (yielded (set_yielded (yielded st ++ [chunk]) st))))
                   (set_yielded (yielded st ++ [chunk]) st)).
  split; [|apply runSends_onlyWire].
  destruct (stops _); reflexivity.
Qed.

Lemma yield_fields (chunk : AgentStreamChunk) (st : St) (o : Outcome unit) (st' : St) :
  yield chunk st = (o, st') ->
  o = (if stops (consumer (yielded st ++ [chunk])) then Returned else Normal tt) /\
  yielded st' = yielded st ++ [chunk] /\
  blobStore st' = blobStore st /\
  currentRequestId st' = currentRequestId st /\
  pendingAssistantBlobs st' = pendingAssistantBlobs st /\
  appendSeqno st' = appendSeqno st /\
  lastProgressAt st' = lastProgressAt st /\
  heartbeatSinceProgress st' = heartbeatSinceProgress st /\
  hasProgress st' = hasProgress st /\
  turnEnded st' = turnEnded st /\
  hasStreamedText st' = hasStreamedText st /\
  ticks st' = ticks st.
Proof.
  destruct (yield_spec chunk st) as (st1 & Hy & Hw). rewrite Hy. intros [= <- <-].
  apply onlyWire_fields in Hw. cbn in Hw. intuition.
Qed.

(** *** Heartbeats and progress *)

Lemma progressMarked_sameIdle (st st' : St) :
  progressMarked st -> sameIdle st st' -> progressMarked st'.
Proof.
  intros (Hb & Hp & n & Ht & Hl) (Hb' & Hp' & Hl' & Ht').
  repeat split; [congruence | congruence |].
  exists n. split; congruence.
Qed.

Lemma markProgress_spec (st : St) :
  markProgress st =
  (Normal tt,
   set_hasProgress true
     (set_lastProgressAt (clock (ticks st))
        (set_ticks (S (ticks st)) (set_heartbeatSinceProgress 0 st)))).
Proof. reflexivity. Qed.

Lemma Marks_markProgress : Marks markProgress.
Proof.
  intros st st'. rewrite markProgress_spec. intros [= <-].
  repeat split. exists (ticks st). split; reflexivity.
Qed.

Lemma Marks_then_markProgress {A} (m : M A) : Marks (bind m (fun _ => markProgress)).
Proof.
  intros st st'. unfold bind. destruct (m st) as [[a|e|] st1]; try discriminate.
  apply Marks_markProgress.
Qed.

Lemma Marks_bind_r (b1 b2 : M unit) : Marks b2 -> Marks (bind b1 (fun _ => b2)).
Proof.
  intros H2 st st'. unfold bind. destruct (b1 st) as [[[]|e|] st1]; try discriminate.
  apply H2.
Qed.

Lemma Marks_bind_l (b1 b2 : M unit) :
  Marks b1 -> KeepsOrMarks b2 -> Marks (bind b1 (fun _ => b2)).
Proof.
  intros H1 H2 st st'. unfold bind.
  destruct (b1 st) as [[[]|e|] st1] eqn:E1; try discriminate.
  intros E2. destruct (H2 _ _ E2) as [Hsame|Hm]; [|exact Hm].
  eapply progressMarked_sameIdle; [apply (H1 _ _ E1) | exact Hsame].
Qed.

Lemma KeepsOrMarks_bind (b1 b2 : M unit) :
  KeepsOrMarks b1 -> KeepsOrMarks b2 -> KeepsOrMarks (bind b1 (fun _ => b2)).
Proof.
  intros H1 H2 st st'. unfold bind.
  destruct (b1 st) as [[[]|e|] st1] eqn:E1; try discriminate.
  intros E2. destruct (H1 _ _ E1) as [Hs1|Hm1], (H2 _ _ E2) as [Hs2|Hm2]; auto.
  - left. destruct Hs1 as (?&?&?&?), Hs2 as (?&?&?&?). repeat split; congruence.
  - right. eapply progressMarked_sameIdle; eassumption.
Qed.

Lemma KeepsOrMarks_ret : KeepsOrMarks (ret tt).
Proof. intros st st' [= <-]. left. repeat split. Qed.

Lemma KeepsOrMarks_Marks (b : M unit) : Marks b -> KeepsOrMarks b.
Proof. intros Hm st st' E. right. eapply Hm, E. Qed.

Lemma KeepsOrMarks_turnEnded (b : bool) : KeepsOrMarks (when b (modify (set_turnEnded true))).
Proof. destruct b; intros st st' [= <-]; left; repeat split. Qed.

(** One heartbeat, spelled out. *)
Lemma onHeartbeat_spec (st : St) :
  let st1 := set_ticks (S (ticks st))
               (set_heartbeatSinceProgress (heartbeatSinceProgress st + 1) st) in
  let idleLimit := if hasProgress st then 120000 else 180000 in
  onHeartbeat st =
  if (1000 <=? heartbeatSinceProgress st + 1)
     || (idleLimit <=? clock (ticks st) - lastProgressAt st)
  then (Normal tt, set_turnEnded true st1)
  else yield heartbeat st1.
Proof.
  cbv zeta. unfold onHeartbeat, bind, modify, now, get.
  cbn [ticks heartbeatSinceProgress hasProgress lastProgressAt set_ticks
       set_heartbeatSinceProgress].
  unfold HEARTBEAT_MAX_PROGRESS, HEARTBEAT_MAX_NOPROGRESS,
    HEARTBEAT_IDLE_MS_PROGRESS, HEARTBEAT_IDLE_MS_NOPROGRESS.
  destruct (hasProgress st);
    match goal with |- context [if ?c then _ else _] => destruct c end; reflexivity.
Qed.

Lemma onInteractionUpdate_parsed (v : bytes) (parsed : ParsedInteractionUpdate) (st : St) :
  parseInteractionUpdate v = Ok parsed ->
  onInteractionUpdate v st =
  bind
    (when (truthyString (text parsed))
       (bind (yield (text_chunk (default [] (text parsed))))
          (fun _ => bind (modify (set_hasStreamedText true)) (fun _ => markProgress))))
    (fun _ => bind
       (match toolCallStarted parsed with
        | Some info => bind (yield (tool_call_started info)) (fun _ => markProgress)
        | None => ret tt
        end)
    (fun _ => bind
       (match toolCallCompleted parsed with
        | Some info => bind (yield (tool_call_completed info)) (fun _ => markProgress)
        | None => ret tt
        end)
    (fun _ => bind
       (match partialToolCall parsed with
        | Some p => bind (yield (partial_tool_call (partialInfo p) (ptu_argsTextDelta p)))
                      (fun _ => markProgress)
        | None => ret tt
        end)
    (fun _ => bind (when (isComplete parsed) (modify (set_turnEnded true)))
    (fun _ => when (isHeartbeat parsed) onHeartbeat))))) st.
Proof. intros Hp. unfold onInteractionUpdate. rewrite Hp. reflexivity. Qed.

Lemma Marks_progress_update (parsed : ParsedInteractionUpdate) :
  isHeartbeat parsed = false ->
  carriesProgress parsed ->
  Marks
    (bind
      (when (truthyString (text parsed))
         (bind (yield (text_chunk (default [] (text parsed))))
            (fun _ => bind (modify (set_hasStreamedText true)) (fun _ => markProgress))))
      (fun _ => bind
         (match toolCallStarted parsed with
          | Some info => bind (yield (tool_call_started info)) (fun _ => markProgress)
          | None => ret tt
          end)
      (fun _ => bind
         (match toolCallCompleted parsed with
          | Some info => bind (yield (tool_call_completed info)) (fun _ => markProgress)
          | None => ret tt
          end)
      (fun _ => bind
         (match partialToolCall parsed with
          | Some p => bind (yield (partial_tool_call (partialInfo p) (ptu_argsTextDelta p)))
                        (fun _ => markProgress)
          | None => ret tt
          end)
      (fun _ => bind (when (isComplete parsed) (modify (set_turnEnded true)))
      (fun _ => when (isHeartbeat parsed) onHeartbeat)))))).
Proof.
  intros Hhb Hprog. rewrite Hhb. cbn [when].
  assert (KeepsOrMarks
            (bind (when (isComplete parsed) (modify (set_turnEnded true)))
                  (fun _ => ret tt))) as Htail
    by (apply KeepsOrMarks_bind; [apply KeepsOrMarks_turnEnded | apply KeepsOrMarks_ret]).
  assert (forall c : AgentStreamChunk, Marks (bind (yield c) (fun _ => markProgress))) as Hy
    by (intros c; apply Marks_then_markProgress).
  assert (forall t, Marks (bind (yield (text_chunk t))
            (fun _ => bind (modify (set_hasStreamedText true)) (fun _ => markProgress)))) as Ht
    by (intros t; apply Marks_bind_r, Marks_then_markProgress).
  destruct Hprog as [Hp|[Hp|[Hp|Hp]]].
  - rewrite Hp. cbn [when]. apply Marks_bind_l; [apply Ht|].
    repeat (apply KeepsOrMarks_bind;
            [match goal with
             | |- KeepsOrMarks (match ?x with _ => _ end) =>
               destruct x; [apply KeepsOrMarks_Marks, Hy | apply KeepsOrMarks_ret]
             end|]).
    exact Htail.
  - apply Marks_bind_r.
    destruct (toolCallStarted parsed) as [info|]; [|congruence].
    apply Marks_bind_l; [apply Hy|].
    repeat (apply KeepsOrMarks_bind;
            [match goal with
             | |- KeepsOrMarks (match ?x with _ => _ end) =>
               destruct x; [apply KeepsOrMarks_Marks, Hy | apply KeepsOrMarks_ret]
             end|]).
    exact Htail.
  - do 2 apply Marks_bind_r.
    destruct (toolCallCompleted parsed) as [info|]; [|congruence].
    apply Marks_bind_l; [apply Hy|].
    repeat (apply KeepsOrMarks_bind;
            [match goal with
             | |- KeepsOrMarks (match ?x with _ => _ end) =>
               destruct x; [apply KeepsOrMarks_Marks, Hy | apply KeepsOrMarks_ret]
             end|]).
    exact Htail.
  - do 3 apply Marks_bind_r.
    destruct (partialToolCall parsed) as [p|]; [|congruence].
    apply Marks_bind_l; [apply Hy | exact Htail].
Qed.

(** *** Reasoning about all runs of a piece of the generator *)

Section StepsFacts.
Context (R : St -> St -> Prop) {HR : StepRelation R}.

Lemma Steps_ret {A} (a : A) : Steps R (ret a).
Proof. intros st o st' [= <- <-]. apply step_refl. Qed.

Lemma Steps_throw {A} (e : JsError) : Steps R (@throw A e).
Proof. intros st o st' [= <- <-]. apply step_refl. Qed.

Lemma Steps_get : Steps R get.
Proof. intros st o st' [= <- <-]. apply step_refl. Qed.

Lemma Steps_liftResult {A} (r : Result A) : Steps R (liftResult r).
Proof. destruct r; [apply Steps_ret | apply Steps_throw]. Qed.

Lemma Steps_modify (f : St -> St) : (forall st, R st (f st)) -> Steps R (modify f).
Proof. intros Hf st o st' [= <- <-]. apply Hf. Qed.

Lemma Steps_now : (forall st n, R st (set_ticks n st)) -> Steps R now.
Proof. intros Hf st o st' [= <- <-]. apply Hf. Qed.

Lemma Steps_bind {A B} (m : M A) (k : A -> M B) :
  Steps R m -> (forall a, Steps R (k a)) -> Steps R (bind m k).
Proof.
  intros Hm Hk st o st'. unfold bind.
  destruct (m st) as [[a|e|] st1] eqn:E; pose proof (Hm _ _ _ E) as H1.
  - intros E2. eapply step_trans; [exact H1 | eapply Hk, E2].
  - intros [= <- <-]. exact H1.
  - intros [= <- <-]. exact H1.
Qed.

Lemma Steps_tryCatch {A} (body : M A) (handler : JsError -> M A) :
  Steps R body -> (forall e, Steps R (handler e)) -> Steps R (tryCatch body handler).
Proof.
  intros Hb Hh st o st'. unfold tryCatch.
  destruct (body st) as [[a|e|] st1] eqn:E; pose proof (Hb _ _ _ E) as H1.
  - intros [= <- <-]. exact H1.
  - intros E2. eapply step_trans; [exact H1 | eapply Hh, E2].
  - intros [= <- <-]. exact H1.
Qed.

Lemma Steps_tryFinally {A} (body : M A) (cleanup : St -> St) :
  Steps R body -> (forall st, R st (cleanup st)) -> Steps R (tryFinally body cleanup).
Proof.
  intros Hb Hc st o st'. unfold tryFinally.
  destruct (body st) as [o1 st1] eqn:E. intros [= <- <-].
  eapply step_trans; [eapply Hb, E | apply Hc].
Qed.

Lemma Steps_when (b : bool) (m : M unit) : Steps R m -> Steps R (when b m).
Proof. destruct b; [auto | intros _; apply Steps_ret]. Qed.

Lemma Steps_forEach {A} (l : list A) (body : A -> M unit) :
  (forall x, Steps R (body x)) -> Steps R (forEach l body).
Proof.
  intros Hb. induction l as [|x l IH]; cbn [forEach]; [apply Steps_ret|].
  apply Steps_bind; [apply Hb | intros _; exact IH].
Qed.

End StepsFacts.

(** The structure of a piece is walked through with the lemmas above; [leaf]
    settles the assignments, the clock, the appends and the yields. *)
Ltac steps_with leaf :=
  repeat first
    [ match goal with H : _ |- Steps _ _ => solve [apply H] end
    | solve [apply Steps_ret; exact _]
    | solve [apply Steps_get; exact _]
    | solve [apply Steps_throw; exact _]
    | solve [apply Steps_liftResult; exact _]
    | leaf
    | apply Steps_when; try exact _
    | apply Steps_forEach; try exact _; intros ?
    | apply Steps_tryCatch; try exact _; [|intros ?]
    | apply Steps_bind; try exact _; [|intros ?]
    | match goal with |- Steps _ (match ?x with _ => _ end) => destruct x end ].

(** The handlers of the stream, from the fields of a message up to the read
    loop, for a relation that the leaves and the KV handler respect. *)
Section HandlersStep.
Context (R : St -> St -> Prop) {HR : StepRelation R}.
Hypothesis R_assign :
  forall (f : St -> St),
    (forall st, wire (f st) = wire st /\ appendSeqno (f st) = appendSeqno st /\
                yielded (f st) = yielded st /\
                hasStreamedText (f st) = hasStreamedText st) ->
    forall st, R st (f st).
Hypothesis R_yield : forall chunk, Steps R (yield chunk).
Hypothesis R_text :
  forall (t : jsstring) (rest : M unit), Steps R rest ->
    Steps R (bind (yield (text_chunk t))
               (fun _ => bind (modify (set_hasStreamedText true)) (fun _ => rest))).
Hypothesis R_kv : forall requestId v, Steps R (onKvServerMessage requestId v).

Ltac leaf :=
  first
    [ apply R_yield
    | apply R_text
    | apply R_kv
    | apply Steps_modify; try exact _;
      apply R_assign; intros ?; repeat split; reflexivity
    | apply Steps_now; try exact _;
      intros ? ?; apply (R_assign (set_ticks _)); intros ?; repeat split; reflexivity ].

Lemma Steps_markProgress : Steps R markProgress.
Proof. unfold markProgress. steps_with leaf. Qed.

Lemma Steps_onHeartbeat : Steps R onHeartbeat.
Proof. unfold onHeartbeat. steps_with leaf. Qed.

Lemma Steps_dispatchField (requestId : jsstring) (field : ProtoField) :
  Steps R (dispatchField requestId field).
Proof.
  pose proof Steps_markProgress. pose proof Steps_onHeartbeat.
  unfold dispatchField, onInteractionUpdate, onCheckpoint, onExecServerMessage,
    onExecServerControl, onInteractionQuery.
  steps_with leaf.
Qed.

Lemma Steps_onServerField (requestId : jsstring) (field : ProtoField) :
  Steps R (onServerField requestId field).
Proof. pose proof Steps_dispatchField. unfold onServerField. steps_with leaf. Qed.

Lemma Steps_framesLoop (requestId : jsstring) (frames : list Frame) :
  Steps R (framesLoop requestId frames).
Proof.
  pose proof Steps_onServerField.
  induction frames as [|frame rest IH]; cbn [framesLoop]; [apply Steps_ret; exact _|].
  unfold onTrailer, onMessage. steps_with leaf.
Qed.

Lemma Steps_readsLoop (requestId : jsstring) (reads : list (list Frame)) (ending : StreamEnd) :
  Steps R (readsLoop requestId reads ending).
Proof.
  pose proof Steps_framesLoop.
  induction reads as [|frames rest IH]; cbn [readsLoop]; steps_with leaf.
Qed.

Lemma Steps_afterLoop : Steps R afterLoop.
Proof. unfold afterLoop. steps_with leaf. Qed.

End HandlersStep.

(** *** Streamed text is logged *)











(** *** The end of the turn *)

Lemma chatStream_Body (requestId : jsstring) (messageBody : bytes)
    (reads : list (list Frame)) (ending : StreamEnd) (st : St) :
  appendResponse (length (wire st)) = None ->
  chatStream requestId messageBody (Body reads ending) st =
  tryCatch
    (tryFinally (bind (readsLoop requestId reads ending) (fun _ => afterLoop))
                (set_currentRequestId None))
    onStreamError
    (streamStart requestId messageBody st).
Proof.
  intros Hok. unfold chatStream, tryCatch, bind, modify, now, get, bidiAppend, streamLoop.
  cbn [wire set_appendSeqno set_ticks set_lastProgressAt set_heartbeatSinceProgress
       set_hasProgress set_currentRequestId set_currentAppendSeqno].
  rewrite Hok. reflexivity.
Qed.

(** *** From an inbound frame to its handler *)

Lemma lenField_number (n : Z) (f : ProtoField) (b : bytes) :
  lenField n f = Some b -> fieldNumber f = n.
Proof. unfold lenField. destruct (Z.eqb_spec (fieldNumber f) n); [auto|discriminate]. Qed.

Lemma lenField_other (n k : Z) (f : ProtoField) :
  fieldNumber f = n -> k <> n -> lenField k f = None.
Proof.
  intros Hn Hk. unfold lenField. rewrite Hn.
  destruct (Z.eqb_spec n k); [congruence|reflexivity].
Qed.

(** The field of a server message goes to the handler of its number. *)
Lemma dispatchField_to (requestId : jsstring) (field : ProtoField) (n : Z) (v : bytes)
    (st : St) :
  lenField n field = Some v ->
  dispatchField requestId field st =
  bind
    (if n =? 1 then onInteractionUpdate v
     else if n =? 3 then onCheckpoint v
     else if n =? 2 then onExecServerMessage v
     else if n =? 4 then onKvServerMessage requestId v
     else if n =? 5 then onExecServerControl v
     else if n =? 7 then onInteractionQuery v
     else ret tt)
    (fun _ => ret tt) st.
Proof.
  intros Hf. pose proof (lenField_number _ _ _ Hf) as Hn.
  unfold dispatchField.
  assert (forall k, lenField k field = if k =? n then Some v else None) as Hlen.
  { intros k. destruct (Z.eqb_spec k n) as [->|Hk]; [exact Hf|].
    apply (lenField_other n); assumption. }
  rewrite !Hlen. clear Hlen Hf Hn. unfold bind, ret.
  assert (n = 1 \/ n = 3 \/ n = 2 \/ n = 4 \/ n = 5 \/ n = 7 \/
          (n <> 1 /\ n <> 3 /\ n <> 2 /\ n <> 4 /\ n <> 5 /\ n <> 7)) as Hcases by lia.
  destruct Hcases as [->|[->|[->|[->|[->|[->|Hnone]]]]]].
  - cbn [Z.eqb Pos.eqb]. destruct (onInteractionUpdate v st) as [[[]|e|] st1]; reflexivity.
  - cbn [Z.eqb Pos.eqb]. destruct (onCheckpoint v st) as [[[]|e|] st1]; reflexivity.
  - cbn [Z.eqb Pos.eqb]. destruct (onExecServerMessage v st) as [[[]|e|] st1]; reflexivity.
  - cbn [Z.eqb Pos.eqb].
    destruct (onKvServerMessage requestId v st) as [[[]|e|] st1]; reflexivity.
  - cbn [Z.eqb Pos.eqb]. destruct (onExecServerControl v st) as [[[]|e|] st1]; reflexivity.
  - cbn [Z.eqb Pos.eqb]. destruct (onInteractionQuery v st) as [[[]|e|] st1]; reflexivity.
  - repeat match goal with
           | |- context [?k =? n] =>
             replace (k =? n) with false by (symmetry; apply Z.eqb_neq; lia)
           | |- context [n =? ?k] =>
             replace (n =? k) with false by (symmetry; apply Z.eqb_neq; lia)
           end.
    reflexivity.
Qed.

(** A message frame with one field: that field is handled, and the loop
    over the frames goes on unless the turn has ended. *)
Lemma onMessage_one_field (requestId : jsstring) (frame : Frame) (field : ProtoField)
    (st : St) :
  parseProtoFields (frameData frame) = Ok [field] ->
  onMessage requestId frame st = onServerField requestId field st.
Proof.
  intros Hparse. unfold onMessage, bind. rewrite Hparse. cbn [liftResult ret forEach].
  unfold bind, ret. destruct (onServerField requestId field st) as [[[]|e|] st1]; reflexivity.
Qed.

Lemma onHeartbeat_not_thrown (st : St) (e : JsError) (st' : St) :
  onHeartbeat st <> (Thrown e, st').
Proof.
  rewrite onHeartbeat_spec. cbv zeta.
  destruct (_ || _); [discriminate|]. unfold yield. destruct (stops _); discriminate.
Qed.

(** The fields of a heartbeat, and those of an end of the turn, set their
    flag and nothing else. *)
Lemma interactionField_mark (n : Z) (p : ParsedInteractionUpdate) (mark : ProtoField) :
  n = 13 \/ n = 14 ->
  fieldNumber mark = n ->
  interactionField p mark = Ok (if n =? 14 then set_isComplete p else set_isHeartbeat p).
Proof.
  intros Hn Hmark. unfold interactionField.
  rewrite !(lenField_other n) by (assumption || lia).
  rewrite Hmark. destruct Hn as [-> | ->]; reflexivity.
Qed.

Lemma parseInteractionUpdate_marks (n : Z) (update : bytes) (marks : list ProtoField) :
  n = 13 \/ n = 14 ->
  parseProtoFields update = Ok marks ->
  marks <> [] ->
  Forall (fun mark => fieldNumber mark = n) marks ->
  parseInteractionUpdate update =
  Ok {| text := None; isComplete := n =? 14; isHeartbeat := n =? 13;
        toolCallStarted := None; toolCallCompleted := None; partialToolCall := None |}.
Proof.
  intros Hn Hparse Hne Hall. unfold parseInteractionUpdate. rewrite Hparse.
  cbn [Result_bind].
  destruct Hall as [|mark marks Hmark Hall]; [congruence|]. clear Hne Hparse.
  cbn [Result_foldM]. rewrite (interactionField_mark n) by assumption.
  cbn [Result_bind].
  assert (forall p,
            isComplete p = (n =? 14) -> isHeartbeat p = (n =? 13) ->
            text p = None -> toolCallStarted p = None -> toolCallCompleted p = None ->
            partialToolCall p = None ->
            Result_foldM interactionField marks p = Ok p) as Hrest.
  { induction Hall as [|m marks Hm _ IH]; intros p Hc Hh Ht Hs Hd Hp; [reflexivity|].
    cbn [Result_foldM]. rewrite (interactionField_mark n) by assumption.
    cbn [Result_bind].
    assert ((if n =? 14 then set_isComplete p else set_isHeartbeat p) = p) as ->.
    { destruct p as [t c h s d q]. cbn in *. subst.
      destruct Hn as [-> | ->]; reflexivity. }
    apply IH; assumption. }
  destruct Hn as [-> | ->]; cbn [Z.eqb Pos.eqb]; apply Hrest; reflexivity.
Qed.

(** An inbound heartbeat is handled by the heartbeat step and by nothing
    else; an inbound end of the turn sets the flag. *)
Lemma onMessage_update (requestId : jsstring) (frame : Frame) (update : bytes) (st : St) :
  carriesUpdate frame update ->
  onMessage requestId frame st =
  tryCatch (bind (onInteractionUpdate update) (fun _ => ret tt))
    (fun parseErr =>
       yield (error_chunk (js "Parse error in field " ++ numberToString 1
                             ++ js ": " ++ err_message parseErr))) st.
Proof.
  intros (_ & field & Hparse & Hfield).
  rewrite (onMessage_one_field requestId frame field st Hparse).
  unfold onServerField, tryCatch.
  rewrite (dispatchField_to requestId field 1 update st Hfield).
  rewrite (lenField_number _ _ _ Hfield). reflexivity.
Qed.

Lemma onMessage_heartbeat (requestId : jsstring) (frame : Frame) (st : St) :
  carriesOnly 13 frame -> onMessage requestId frame st = onHeartbeat st.
Proof.
  intros (update & marks & Hupdate & Hparse & Hne & Hall).
  rewrite (onMessage_update requestId frame update st Hupdate).
  unfold tryCatch, bind, ret.
  rewrite (onInteractionUpdate_parsed update _ st
             (parseInteractionUpdate_marks 13 update marks (or_introl eq_refl)
                Hparse Hne Hall)).
  cbn [text isComplete isHeartbeat toolCallStarted toolCallCompleted partialToolCall
       truthyString when Z.eqb Pos.eqb].
  unfold bind, ret.
  pose proof (onHeartbeat_not_thrown st) as Hno.
  destruct (onHeartbeat st) as [[[]|e|] st1]; try reflexivity.
  destruct (Hno e st1 eq_refl).
Qed.

Lemma onMessage_turn_end (requestId : jsstring) (frame : Frame) (st : St) :
  carriesOnly 14 frame -> onMessage requestId frame st = (Normal tt, set_turnEnded true st).
Proof.
  intros (update & marks & Hupdate & Hparse & Hne & Hall).
  rewrite (onMessage_update requestId frame update st Hupdate).
  unfold tryCatch, bind, ret.
  rewrite (onInteractionUpdate_parsed update _ st
             (parseInteractionUpdate_marks 14 update marks (or_intror eq_refl)
                Hparse Hne Hall)).
  reflexivity.
Qed.

Lemma Marks_onInteractionUpdate (v : bytes) (parsed : ParsedInteractionUpdate) :
  parseInteractionUpdate v = Ok parsed ->
  isHeartbeat parsed = false ->
  carriesProgress parsed ->
  Marks (onInteractionUpdate v).
Proof.
  intros Hp Hhb Hprog st st'. rewrite (onInteractionUpdate_parsed v parsed st Hp).
  apply (Marks_progress_update parsed Hhb Hprog).
Qed.

Lemma Marks_onExecServerMessage (v : bytes) (req : ExecRequest) :
  parseExecServerMessage v = Ok (Some req) -> Marks (onExecServerMessage v).
Proof.
  intros Hp st st'. unfold onExecServerMessage. rewrite Hp.
  apply (Marks_then_markProgress (yield (exec_request req))).
Qed.

Lemma Marks_onCheckpoint (v : bytes) : Marks (onCheckpoint v).
Proof.
  intros st st'. unfold onCheckpoint.
  destruct (parseProtoFields v) as [fields|e]; [|discriminate].
  apply (Marks_then_markProgress (yield checkpoint)).
Qed.

Lemma Marks_onInteractionQuery (v : bytes) : Marks (onInteractionQuery v).
Proof.
  intros st st'. unfold onInteractionQuery.
  destruct (parseProtoFields v) as [fields|e]; [|discriminate].
  apply (Marks_then_markProgress (yield (interaction_query _ _))).
Qed.

Lemma Marks_onExecServerControl (v : bytes) : Marks (onExecServerControl v).
Proof.
  intros st st'. unfold onExecServerControl.
  destruct (parseProtoFields v) as [fields|e]; [|discriminate].
  apply (Marks_then_markProgress (forEach fields _)).
Qed.

(** The field of an event, handled to the end, has marked progress. *)
Lemma Marks_dispatchField (requestId : jsstring) (field : ProtoField) :
  carriesEvent field -> Marks (dispatchField requestId field).
Proof.
  intros Hevent st st' Hrun.
  assert (forall n v handler,
             lenField n field = Some v ->
             (if n =? 1 then onInteractionUpdate v
              else if n =? 3 then onCheckpoint v
              else if n =? 2 then onExecServerMessage v
              else if n =? 4 then onKvServerMessage requestId v
              else if n =? 5 then onExecServerControl v
              else if n =? 7 then onInteractionQuery v
              else ret tt) = handler ->
             Marks handler -> progressMarked st') as Hvia.
  { intros n v handler Hf <- Hm.
    rewrite (dispatchField_to requestId field n v st Hf) in Hrun.
    revert Hrun. apply Marks_bind_l; [exact Hm | apply KeepsOrMarks_ret]. }
  destruct Hevent as [(v & parsed & Hf & Hp & Hhb & Hprog)
                     |[(v & req & Hf & Hp)|(v & [Hf|[Hf|Hf]])]].
  - apply (Hvia 1 v _ Hf eq_refl). eapply Marks_onInteractionUpdate; eassumption.
  - apply (Hvia 2 v _ Hf eq_refl). eapply Marks_onExecServerMessage; eassumption.
  - apply (Hvia 3 v _ Hf eq_refl). apply Marks_onCheckpoint.
  - apply (Hvia 5 v _ Hf eq_refl). apply Marks_onExecServerControl.
  - apply (Hvia 7 v _ Hf eq_refl). apply Marks_onInteractionQuery.
Qed.

(** The update of an inbound text. *)
Lemma parseInteractionUpdate_text (update : bytes) (delta textField : ProtoField)
    (inner textBytes : bytes) :
  parseProtoFields update = Ok [delta] ->
  lenField 1 delta = Some inner \/ lenField 8 delta = Some inner ->
  parseProtoFields inner = Ok [textField] ->
  lenField 1 textField = Some textBytes ->
  parseInteractionUpdate update =
  Ok {| text := Some (decodeText textBytes); isComplete := false; isHeartbeat := false;
        toolCallStarted := None; toolCallCompleted := None; partialToolCall := None |}.
Proof.
  intros Hupdate Hdelta Hinner Htext. unfold parseInteractionUpdate.
  rewrite Hupdate. cbn [Result_bind Result_foldM]. unfold interactionField.
  destruct Hdelta as [Hd|Hd].
  - rewrite Hd, Hinner. cbn [Result_bind List.fold_left]. unfold deltaField.
    rewrite Htext. reflexivity.
  - pose proof (lenField_number _ _ _ Hd) as Hn.
    rewrite !(lenField_other 8 _ delta Hn) by lia.
    rewrite Hd, Hinner. cbn [Result_bind List.fold_left]. unfold deltaField.
    rewrite Htext. reflexivity.
Qed.

Lemma onMessage_text (requestId : jsstring) (frame : Frame) (t : jsstring)
    (st : St) (o : Outcome unit) (st' : St) :
  carriesText frame t ->
  onMessage requestId frame st = (o, st') ->
  yielded st' = yielded st ++ [text_chunk t] /\
  (o = Normal tt -> hasStreamedText st' = true /\ progressMarked st').
Proof.
  intros (update & delta & inner & textField & textBytes
          & Hupdate & Hparse & Hdelta & Hinner & Htext & Ht & Hne) Hrun.
  rewrite (onMessage_update requestId frame update st Hupdate) in Hrun.
  unfold tryCatch, bind, ret in Hrun.
  rewrite (onInteractionUpdate_parsed update _ st
             (parseInteractionUpdate_text update delta textField inner textBytes
                Hparse Hdelta Hinner Htext)) in Hrun.
  cbn [text isComplete isHeartbeat toolCallStarted toolCallCompleted partialToolCall] in Hrun.
  rewrite Ht in Hrun. destruct t as [|c t]; [congruence|].
  cbn [truthyString when default from_option id] in Hrun. unfold bind, ret in Hrun.
  destruct (yield (text_chunk (c :: t)) st) as [[[]|e|] st1] eqn:Hy.
  - apply yield_fields in Hy.
    destruct Hy as (_ & Hy & _ & _ & _ & _ & _ & _ & _ & _ & _ & _).
    unfold modify in Hrun. rewrite markProgress_spec in Hrun.
    injection Hrun as <- <-. cbn. split; [exact Hy|].
    intros _. split; [reflexivity|]. repeat split.
    exists (ticks st1). split; reflexivity.
  - apply yield_fields in Hy. destruct Hy as (Ho & _).
    destruct (stops _); discriminate.
  - apply yield_fields in Hy.
    destruct Hy as (_ & Hy & _). injection Hrun as <- <-.
    split; [exact Hy | discriminate].
Qed.

Lemma framesLoop_turn_ended (requestId : jsstring) (frame : Frame) (rest : list Frame)
    (st st' : St) :
  isTrailer frame = false ->
  onMessage requestId frame st = (Normal tt, st') ->
  turnEnded st' = true ->
  framesLoop requestId (frame :: rest) st = (Normal tt, st').
Proof.
  intros Htrailer Hmsg Hturn. cbn [framesLoop]. rewrite Htrailer.
  unfold bind, get, ret. rewrite Hmsg, Hturn. reflexivity.
Qed.

Lemma readsLoop_turn_ended (requestId : jsstring) (reads : list (list Frame))
    (ending : StreamEnd) (st : St) :
  turnEnded st = true -> readsLoop requestId reads ending st = (Normal tt, st).
Proof.
  intros Hturn. destruct reads; cbn [readsLoop]; unfold bind, get, ret; rewrite Hturn;
    reflexivity.
Qed.

(** C4.  (a) An inbound heartbeat (a message frame whose interaction update
    holds heartbeat fields only) is handled by the heartbeat step, which adds
    one to the beat counter and leaves the idle clock and the progress flag
    as they are; it ends the turn (sets [turnEnded], with no chunk yielded)
    exactly when the counter has reached 1000 or the time since the last
    progress mark has reached 180000 ms before any progress and 120000 ms
    after; otherwise a heartbeat chunk is yielded and the turn goes on.
    (b) The forced end is that of an inbound [turn_ended]: either way the
    frame sets the same flag, the frames behind it are not handled, and the
    read loop is left.  (c) Text, tool-call, exec, checkpoint, query and
    abort events that are handled to the end mark progress: the counter is
    zero again, the idle clock is the latest clock reading, and the thresholds
    after progress apply; an inbound text yields its chunk and marks
    progress.  (d) The stream starts with the counter at zero, no progress,
    and the idle clock at the time of the start. *)
Theorem heartbeat_policy :
  (forall requestId frame st,
      carriesOnly 13 frame -> onMessage requestId frame st = onHeartbeat st) /\
  (forall st o st',
      onHeartbeat st = (o, st') ->
      heartbeatSinceProgress st' = heartbeatSinceProgress st + 1 /\
      lastProgressAt st' = lastProgressAt st /\
      hasProgress st' = hasProgress st /\
      ticks st' = S (ticks st) /\
      hasStreamedText st' = hasStreamedText st /\
      pendingAssistantBlobs st' = pendingAssistantBlobs st /\
      (beatsReached st \/ idleReached st ->
       o = Normal tt /\ turnEnded st' = true /\ yielded st' = yielded st) /\
      (~ (beatsReached st \/ idleReached st) ->
       turnEnded st' = turnEnded st /\ yielded st' = yielded st ++ [heartbeat])) /\
  (forall requestId frame st,
      carriesOnly 14 frame ->
      onMessage requestId frame st = (Normal tt, set_turnEnded true st)) /\
  (forall requestId frame rest st,
      carriesOnly 14 frame \/
      carriesOnly 13 frame /\ (beatsReached st \/ idleReached st) ->
      exists st',
        framesLoop requestId (frame :: rest) st = (Normal tt, st') /\
        turnEnded st' = true /\ yielded st' = yielded st /\
        forall reads ending, readsLoop requestId reads ending st' = (Normal tt, st')) /\
  (forall v st,
      parseInteractionUpdate v =
        Ok {| text := None; isComplete := false; isHeartbeat := true;
              toolCallStarted := None; toolCallCompleted := None;
              partialToolCall := None |} ->
      onInteractionUpdate v st = onHeartbeat st) /\
  (forall v st,
      parseInteractionUpdate v =
        Ok {| text := None; isComplete := true; isHeartbeat := false;
              toolCallStarted := None; toolCallCompleted := None;
              partialToolCall := None |} ->
      onInteractionUpdate v st = (Normal tt, set_turnEnded true st)) /\
  (forall v parsed,
      parseInteractionUpdate v = Ok parsed ->
      isHeartbeat parsed = false ->
      carriesProgress parsed ->
      Marks (onInteractionUpdate v)) /\
  (forall v req, parseExecServerMessage v = Ok (Some req) -> Marks (onExecServerMessage v)) /\
  (forall v, Marks (onCheckpoint v)) /\
  (forall v, Marks (onInteractionQuery v)) /\
  (forall v, Marks (onExecServerControl v)) /\
  (forall requestId frame field st st',
      parseProtoFields (frameData frame) = Ok [field] ->
      carriesEvent field ->
      dispatchField requestId field st = (Normal tt, st') ->
      onMessage requestId frame st = (Normal tt, st') /\ progressMarked st') /\
  (forall requestId frame t st o st',
      carriesText frame t ->
      onMessage requestId frame st = (o, st') ->
      yielded st' = yielded st ++ [text_chunk t] /\
      (o = Normal tt -> hasStreamedText st' = true /\ progressMarked st')) /\
  (forall requestId messageBody reads ending st,
      appendResponse (length (wire st)) = None ->
      exists st0,
        chatStream requestId messageBody (Body reads ending) st =
        tryCatch
          (tryFinally (bind (readsLoop requestId reads ending) (fun _ => afterLoop))
                      (set_currentRequestId None))
          onStreamError st0 /\
        heartbeatSinceProgress st0 = 0 /\ hasProgress st0 = false /\
        lastProgressAt st0 = clock (ticks st) /\ ticks st0 = S (ticks st) /\
        turnEnded st0 = false).
Proof.
  assert (forall st o st',
      onHeartbeat st = (o, st') ->
      heartbeatSinceProgress st' = heartbeatSinceProgress st + 1 /\
      lastProgressAt st' = lastProgressAt st /\
      hasProgress st' = hasProgress st /\
      ticks st' = S (ticks st) /\
      hasStreamedText st' = hasStreamedText st /\
      pendingAssistantBlobs st' = pendingAssistantBlobs st /\
      (beatsReached st \/ idleReached st ->
       o = Normal tt /\ turnEnded st' = true /\ yielded st' = yielded st) /\
      (~ (beatsReached st \/ idleReached st) ->
       turnEnded st' = turnEnded st /\ yielded st' = yielded st ++ [heartbeat])) as Hbeat.
  { intros st o st' Hrun. unfold beatsReached, idleReached.
    rewrite onHeartbeat_spec in Hrun. cbv zeta in Hrun.
    destruct (Z.leb_spec 1000 (heartbeatSinceProgress st + 1)) as [Hb|Hb];
      destruct (Z.leb_spec (if hasProgress st then 120000 else 180000)
                           (clock (ticks st) - lastProgressAt st)) as [Hi|Hi];
      cbn [orb] in Hrun;
      [injection Hrun as <- <-; cbn; repeat (split; [reflexivity|]);
       (split; [intros _; repeat split; reflexivity
               | intros Hn; exfalso; apply Hn; auto]) ..|].
    apply yield_fields in Hrun. cbn in Hrun.
    destruct Hrun as (_ & Hy & _ & _ & Hblobs & _ & Hlast & Hbeats & Hprog & Hturn
                      & Htext & Hticks).
    repeat (split; [assumption|]).
    split; [intros [?|?]; lia | intros _; split; assumption]. }
  split; [intros; apply onMessage_heartbeat; assumption|].
  split; [exact Hbeat|].
  split; [intros; apply onMessage_turn_end; assumption|].
  split.
  { intros requestId frame rest st [Hend|[Hhb Hreached]].
    - exists (set_turnEnded true st).
      assert (isTrailer frame = false) as Htrailer
        by (destruct Hend as (u & m & (Ht & _) & _); exact Ht).
      split; [|split; [reflexivity|split; [reflexivity|]]].
      + apply framesLoop_turn_ended; [exact Htrailer| |reflexivity].
        apply onMessage_turn_end; exact Hend.
      + intros reads ending. apply readsLoop_turn_ended. reflexivity.
    - assert (isTrailer frame = false) as Htrailer
        by (destruct Hhb as (u & m & (Ht & _) & _); exact Ht).
      destruct (onHeartbeat st) as [o st'] eqn:Hrun.
      destruct (Hbeat st o st' Hrun) as (_ & _ & _ & _ & _ & _ & Hclose & _).
      destruct (Hclose Hreached) as (-> & Hturn & Hy).
      exists st'. split; [|split; [exact Hturn|split; [exact Hy|]]].
      + apply framesLoop_turn_ended; [exact Htrailer| |exact Hturn].
        rewrite (onMessage_heartbeat requestId frame st Hhb). exact Hrun.
      + intros reads ending. apply readsLoop_turn_ended. exact Hturn. }
  split; [intros v st Hp; rewrite (onInteractionUpdate_parsed v _ st Hp); reflexivity|].
  split; [intros v st Hp; rewrite (onInteractionUpdate_parsed v _ st Hp); reflexivity|].
  split; [intros; eapply Marks_onInteractionUpdate; eassumption|].
  split; [intros; eapply Marks_onExecServerMessage; eassumption|].
  split; [apply Marks_onCheckpoint|].
  split; [apply Marks_onInteractionQuery|].
  split; [apply Marks_onExecServerControl|].
  split.
  { intros requestId frame field st st' Hparse Hevent Hrun. split.
    - rewrite (onMessage_one_field requestId frame field st Hparse).
      unfold onServerField, tryCatch. rewrite Hrun. reflexivity.
    - exact (Marks_dispatchField requestId field Hevent st st' Hrun). }
  split; [intros requestId frame t st o st'; apply onMessage_text|].
  intros requestId messageBody reads ending st Hok.
  exists (streamStart requestId messageBody st).
  split; [apply chatStream_Body; exact Hok|]. repeat split.
Qed.


(** *** The assistant contents recorded *)

#[local] Instance keepsBlobs_steps : StepRelation keepsBlobs.
Proof. split; unfold keepsBlobs; [reflexivity | intros a b c Hab Hbc; congruence]. Qed.
























(** *** Append sequence numbers *)

Lemma keepsSequence_steps (n0 : nat) : StepRelation (keepsSequence n0).
Proof. split; unfold keepsSequence; auto. Qed.

Lemma inSequence_assign (n0 : nat) (f : St -> St) :
  (forall st, wire (f st) = wire st /\ appendSeqno (f st) = appendSeqno st /\
              yielded (f st) = yielded st /\
              hasStreamedText (f st) = hasStreamedText st) ->
  forall st, keepsSequence n0 st (f st).
Proof.
  intros Hf st. destruct (Hf st) as (Hw & Ha & _).
  unfold keepsSequence, inSequence, seqnosSince. rewrite Hw, Ha. auto.
Qed.

Lemma countUp_S (k : nat) : countUp (S k) = countUp k ++ [Z.of_nat k].
Proof. unfold countUp. rewrite seq_S, List.map_app. reflexivity. Qed.

(** One more append, numbered with the stream's counter, which then moves
    on by one. *)
Lemma inSequence_append (n0 : nat) (st st' : St) (call : Append) :
  inSequence n0 st ->
  wire st' = wire st ++ [call] ->
  append_seqno call = appendSeqno st ->
  appendSeqno st' = appendSeqno st + 1 ->
  inSequence n0 st'.
Proof.
  intros (Hn & Hs & Ha) Hw Hc Ha'. unfold inSequence, seqnosSince in *.
  rewrite Hw, length_app. cbn [length].
  replace (length (wire st) + 1 - n0)%nat with (S (length (wire st) - n0)) by lia.
  split; [lia|]. split.
  - rewrite drop_app_le by exact Hn. rewrite List.map_app, Hs, countUp_S.
    cbn [List.map]. rewrite Hc, Ha. reflexivity.
  - rewrite Ha', Ha. lia.
Qed.

Section InSequence.
Hypothesis no_sends : forall history, sends (consumer history) = [].
Hypothesis all_accepted : forall n, appendResponse n = None.
Variable n0 : nat.

Lemma sequence_yield (chunk : AgentStreamChunk) : Steps (keepsSequence n0) (yield chunk).
Proof.
  intros st o st'. unfold yield. rewrite no_sends. cbn [runSends List.fold_left].
  intros E.
  assert (st' = set_yielded (yielded st ++ [chunk]) st) as ->
    by (destruct (stops _); injection E as _ <-; reflexivity).
  intros HJ. exact HJ.
Qed.

Lemma sequence_text (t : jsstring) (rest : M unit) :
  Steps (keepsSequence n0) rest ->
  Steps (keepsSequence n0)
    (bind (yield (text_chunk t))
       (fun _ => bind (modify (set_hasStreamedText true)) (fun _ => rest))).
Proof.
  intros Hrest. pose proof (keepsSequence_steps n0).
  apply Steps_bind; [exact _ | apply sequence_yield | intros _].
  apply Steps_bind; [exact _ | | intros _; exact Hrest].
  apply Steps_modify. intros st HJ. exact HJ.
Qed.

(** A KV message: the reply, if there is one, is numbered with the stream's
    counter, and the counter moves on. *)
Lemma sequence_onKvServerMessage (requestId : jsstring) (v : bytes) :
  Steps (keepsSequence n0) (onKvServerMessage requestId v).
Proof.
  intros st o st' E HJ. unfold onKvServerMessage, bind, liftResult, get in E.
  destruct (Kv.parseKvServerMessage v) as [kvMsg|e]; cbn [ret throw] in E;
    [|injection E as <- <-; exact HJ].
  unfold handleKvMessage in E.
  destruct (Kv.messageType kvMsg), (Kv.blobId kvMsg) as [blobId|],
    (Kv.blobData kvMsg) as [blobData|];
    try (cbn in E; injection E as <- <-; exact HJ).
  1,2: unfold bind, get, bidiAppend, modify, ret in E; rewrite all_accepted in E;
    injection E as <- <-;
    eapply inSequence_append; [exact HJ | reflexivity | reflexivity | reflexivity].
  all: destruct (analyzeBlobData_total blobData) as (analysis & Ha);
    unfold bind, get, bidiAppend, modify, liftResult, ret in E;
    rewrite Ha in E; cbn [ret] in E; rewrite all_accepted in E;
    injection E as <- <-;
    eapply inSequence_append; [exact HJ | reflexivity | reflexivity | reflexivity].
Qed.

Lemma sequence_readsLoop (requestId : jsstring) (reads : list (list Frame))
    (ending : StreamEnd) :
  Steps (keepsSequence n0) (readsLoop requestId reads ending).
Proof.
  apply (Steps_readsLoop (keepsSequence n0) (HR := keepsSequence_steps n0)).
  - exact (inSequence_assign n0).
  - exact sequence_yield.
  - exact sequence_text.
  - exact sequence_onKvServerMessage.
Qed.

Lemma sequence_afterLoop : Steps (keepsSequence n0) afterLoop.
Proof.
  apply (Steps_afterLoop (keepsSequence n0) (HR := keepsSequence_steps n0)).
  exact sequence_yield.
Qed.

End InSequence.

(** X14.  As long as the consumer sends no result through the client and
    every append is accepted, the appends of a stream (the run request and
    the KV replies) are numbered 0, 1, 2, ... however the stream ends. *)
Lemma kv_replies_in_sequence (requestId : jsstring) (messageBody : bytes)
    (reads : list (list Frame)) (ending : StreamEnd) (st0 : St)
    (o : Outcome unit) (stF : St) :
  (forall history, sends (consumer history) = []) ->
  (forall n, appendResponse n = None) ->
  chatStream requestId messageBody (Body reads ending) st0 = (o, stF) ->
  seqnosSince (length (wire st0)) stF
  = countUp (length (wire stF) - length (wire st0)).
Proof.
  intros Hquiet Hok Hrun. rewrite chatStream_Body in Hrun by apply Hok.
  pose proof (keepsSequence_steps (length (wire st0))) as HR.
  assert (Steps (keepsSequence (length (wire st0)))
            (tryCatch
               (tryFinally
                  (bind (readsLoop requestId reads ending) (fun _ => afterLoop))
                  (set_currentRequestId None))
               onStreamError)) as Hsteps.
  { apply Steps_tryCatch; [exact _ | | intros e].
    - apply Steps_tryFinally; [exact _ | | intros st HJ; exact HJ].
      apply Steps_bind; [exact _ | apply sequence_readsLoop; assumption | intros _].
      apply sequence_afterLoop; assumption.
    - unfold onStreamError.
      apply Steps_bind; [exact _ | apply Steps_modify; intros st HJ; exact HJ | intros _].
      destruct (isAbortError e); [apply Steps_ret; exact _ | apply sequence_yield; assumption]. }
  assert (inSequence (length (wire st0)) (streamStart requestId messageBody st0)) as Hstart.
  { unfold inSequence, seqnosSince, streamStart; cbn.
    rewrite length_app, drop_app_length. cbn.
    replace (length (wire st0) + 1 - length (wire st0))%nat with 1%nat by lia.
    split; [lia|]. split; reflexivity. }
  exact (proj1 (proj2 (Hsteps _ _ _ Hrun Hstart))).
Qed.

(** A send between two KV replies: its two appends take the client's
    counter forward, the stream's own counter stays, and the next KV reply
    repeats the number of the first of them. *)
Lemma seqno_reused_after_send (kind : ResultKind) (id : Z) (message : bytes)
    (kvMsg : Kv.KvServerMessage)
    (blobId : bytes) (c : Z) (requestId : jsstring) (st st1 st2 : St) (o : Outcome Z) :
  (forall n, appendResponse n = None) ->
  currentRequestId st = Some (c :: requestId) ->
  currentAppendSeqno st = appendSeqno st ->
  Kv.messageType kvMsg = Kv.get_blob_args ->
  Kv.blobId kvMsg = Some blobId ->
  sendResult kind id message st = (Normal tt, st1) ->
  handleKvMessage kvMsg (c :: requestId) (appendSeqno st1) st1 = (o, st2) ->
  seqnosSince (length (wire st)) st2
  = [appendSeqno st; appendSeqno st + 1; appendSeqno st].
Proof.
  intros Hok Hrid Hsync Htype Hblob Hsend Hkv.
  unfold sendResult, bind, get, modify, bidiAppend in Hsend.
  rewrite Hrid in Hsend. cbn in Hsend. rewrite !Hok in Hsend. cbn in Hsend.
  injection Hsend as <-.
  unfold handleKvMessage in Hkv. rewrite Htype, Hblob in Hkv.
  unfold bind, get, modify, bidiAppend, ret in Hkv. cbn in Hkv.
  rewrite Hok in Hkv. injection Hkv as _ <-.
  unfold seqnosSince. cbn.
  rewrite <- !app_assoc, drop_app_length. cbn. rewrite Hsync. reflexivity.
Qed.

(** *** Trailers *)




Lemma framesLoop_trailer (requestId : jsstring) (frame : Frame) (rest : list Frame) :
  isTrailer frame = true ->
  framesLoop requestId (frame :: rest) =
  bind (onTrailer frame) (fun _ => framesLoop requestId rest).
Proof. intros Ht. cbn [framesLoop]. rewrite Ht. reflexivity. Qed.



End StreamFacts.

(** *** The stream on concrete inputs *)

Section StreamExamples.
Import AgentService.


Lemma heartbeat_policy_witness :
  @carriesOnly Reference.decoders 13 Reference.heartbeatFrame /\
  beatsReached (afterBeats 999) /\
  (exists st',
      @framesLoop Reference.decoders Reference.host quiet (js "request-1")
        [Reference.heartbeatFrame; Reference.textFrame (js "late")] (afterBeats 999)
        = (Normal tt, st') /\
      turnEnded st' = true /\ yielded st' = repeat heartbeat 999) /\
  (exists st',
      @onMessage Reference.decoders Reference.host quiet (js "request-1")
        (Reference.textFrame (js "hi")) (afterBeats 5) = (Normal tt, st') /\
      yielded st' = repeat heartbeat 5 ++ [text_chunk (js "hi")] /\
      heartbeatSinceProgress st' = 0 /\ hasProgress st' = true).
Proof.
  assert (@carriesOnly Reference.decoders 13 Reference.heartbeatFrame) as Hframe.
  { exists (Codec.encodeMessageField 13 []).
    eexists. split; [|split; [vm_compute; reflexivity|split; [discriminate|]]].
    - split; [reflexivity|]. eexists. split; vm_compute; reflexivity.
    - repeat constructor. }
  assert (beatsReached (afterBeats 999)) as Hbeats
    by (unfold beatsReached; vm_compute; discriminate).
  assert (@carriesText Reference.decoders (Reference.textFrame (js "hi")) (js "hi")) as Htext.
  { exists (Codec.encodeMessageField 1 (Codec.encodeStringField 1 (js "hi"))).
    do 4 eexists. split; [|split; [vm_compute; reflexivity|]].
    - split; [reflexivity|]. eexists. split; vm_compute; reflexivity.
    - split; [left; vm_compute; reflexivity|]. split; [vm_compute; reflexivity|].
      split; [vm_compute; reflexivity|]. split; [vm_compute; reflexivity|discriminate]. }
  split; [exact Hframe|]. split; [exact Hbeats|].
  destruct (@heartbeat_policy Reference.decoders Reference.host quiet)
    as (_ & _ & _ & Hclose & _ & _ & _ & _ & _ & _ & _ & _ & Hprogress & _).
  split.
  - destruct (Hclose (js "request-1") Reference.heartbeatFrame
                [Reference.textFrame (js "late")] (afterBeats 999)
                (or_intror (conj Hframe (or_introl Hbeats))))
      as (st' & Hloop & Hturn & Hy & _).
    exists st'. split; [exact Hloop|]. split; [exact Hturn|].
    rewrite Hy. vm_compute. reflexivity.
  - destruct (@onMessage Reference.decoders Reference.host quiet (js "request-1")
                (Reference.textFrame (js "hi")) (afterBeats 5)) as [o st'] eqn:Hrun.
    assert (o = Normal tt) as ->
      by (apply (f_equal fst) in Hrun; vm_compute in Hrun; congruence).
    destruct (Hprogress (js "request-1") (Reference.textFrame (js "hi")) (js "hi")
                (afterBeats 5) (Normal tt) st' Htext Hrun) as (Hy & Hmarked).
    destruct (Hmarked eq_refl) as (_ & Hzero & Hflag & _).
    exists st'. split; [reflexivity|]. split; [|split; assumption].
    rewrite Hy. vm_compute. reflexivity.
Defined.

(** Scenario S5: a text event and then 1000 heartbeats; the last one ends
    the turn. *)
Example heartbeat_starvation :
  yielded (snd (Reference.run quiet
                  [Reference.textFrame (js "hi") :: repeat Reference.heartbeatFrame 1000]))
  = text_chunk (js "hi") :: repeat heartbeat 999 ++ [done].
Proof. vm_compute. reflexivity. Qed.





(** The trailer as the last frame of the body: the error chunk is followed
    by the [done] of the end of the stream. *)
Example trailer_error_then_done :
  yielded (snd (Reference.run quiet [[Reference.trailerFrame Reference.errorTrailer]]))
  = [error_chunk (js "foo bar"); done].
Proof. vm_compute. reflexivity. Qed.

(** A consumer like [chat], which stops at an error chunk, does end the
    stream at the trailer. *)
Example trailer_error_stops_chat :
  let result :=
    Reference.run {| consumer := Reference.stoppingOnError;
                     clock := fun _ => 0;
                     appendResponse := fun _ => None |} afterErrorReads in
  fst result = Returned /\
  yielded (snd result) = [error_chunk (js "foo bar")] /\
  currentRequestId (snd result) = None.
Proof. vm_compute. repeat split. Qed.

(** C1 fails on the code.  The server asks for a tool execution, the
    consumer sends the result and the stream close (appends 1 and 2), and the
    server then asks for a blob: the reply to it goes out with the stream's
    own counter, which the two sends have not advanced, that is with
    [append_seqno = 1] again. *)
Theorem append_seqno_repeats :
  List.map append_seqno
    (wire (snd (Reference.run (Reference.streamEnv [0x08; 0x05] 10) interleavedReads)))
  = [0; 1; 2; 1].
Proof. vm_compute. reflexivity. Qed.

End StreamExamples.

(* ===================================================================== *)
(** * Part III.  Further properties of the sources                        *)
(* ===================================================================== *)

(** ** The readers of the scripts against the encoders *)

Section ReaderFacts.
Import ScriptReaders.

(** *** 32-bit arithmetic on small values *)

Lemma toInt32_small (z : Z) : 0 <= z < 2 ^ 31 -> toInt32 z = z.
Proof.
  intros Hz. unfold toInt32. rewrite Z.mod_small; lia.
Qed.

Lemma lor_below (n a b : Z) :
  0 <= n -> 0 <= a < 2 ^ n -> 0 <= b < 2 ^ n -> 0 <= Z.lor a b < 2 ^ n.
Proof.
  intros Hn Ha Hb.
  rewrite <- (Z.mod_small a (2 ^ n)), <- (Z.mod_small b (2 ^ n)) by lia.
  rewrite <- !Z.land_ones by lia. rewrite <- Z.land_lor_distr_l.
  rewrite Z.land_ones by lia. apply Z.mod_pos_bound. lia.
Qed.

Lemma land_127_bounds (v : Z) : 0 <= Z.land v 127 < 128.
Proof.
  change 127 with (Z.ones 7). rewrite Z.land_ones by lia.
  change (2 ^ 7) with 128. apply Z.mod_pos_bound. lia.
Qed.

Lemma land_127_le (v : Z) : 0 <= v -> Z.land v 127 <= v.
Proof.
  intros Hv. change 127 with (Z.ones 7). rewrite Z.land_ones by lia.
  apply Z.mod_le; lia.
Qed.

(** One accumulation step of the 32-bit readers agrees with the exact one
    as long as the value stays below [2^31]. *)
Lemma accumulate32 (acc byte shift v : Z) :
  0 <= acc < 2 ^ 31 -> 0 <= byte < 256 -> 0 <= shift <= 31 ->
  Z.land byte 127 = Z.land v 127 -> 0 <= v < 2 ^ (31 - shift) ->
  js_or acc (js_shl (js_and byte 0x7f) shift)
  = Z.lor acc (Z.shiftl (Z.land v 127) shift)
  /\ 0 <= Z.lor acc (Z.shiftl (Z.land v 127) shift) < 2 ^ 31.
Proof.
  intros Hacc Hbyte Hshift Hlow Hv.
  assert (0 <= Z.shiftl (Z.land v 127) shift < 2 ^ 31) as Hpart.
  { rewrite Z.shiftl_mul_pow2 by lia.
    pose proof (land_127_bounds v). pose proof (land_127_le v ltac:(lia)).
    assert (0 < 2 ^ shift) by (apply Z.pow_pos_nonneg; lia).
    split; [nia|].
    apply Z.le_lt_trans with (v * 2 ^ shift); [nia|].
    replace (2 ^ 31) with (2 ^ (31 - shift) * 2 ^ shift)
      by (rewrite <- Z.pow_add_r by lia; f_equal; lia).
    nia. }
  unfold js_or, js_shl, js_and.
  rewrite (toInt32_small byte) by lia. rewrite (toInt32_small 127) by lia.
  rewrite Hlow.
  rewrite (toInt32_small (Z.land v 127)) by (pose proof (land_127_bounds v); lia).
  replace (Z.land shift 31) with shift.
  2:{ change 31 with (Z.ones 5). rewrite Z.land_ones by lia.
      change (2 ^ 5) with 32. rewrite Z.mod_small; lia. }
  rewrite (toInt32_small (Z.shiftl _ _)) by exact Hpart.
  rewrite (toInt32_small acc) by lia.
  rewrite (toInt32_small (Z.shiftl _ _)) by exact Hpart.
  split; [reflexivity|]. apply lor_below; lia.
Qed.


Lemma continued_byte_bounds (v : Z) : 128 <= Z.lor (Z.land v 127) 128 < 256.
Proof.
  pose proof (land_127_bounds v) as Hb.
  assert (Z.lor (Z.land v 127) 128 = Z.land v 127 + 128) as ->; [|lia].
  rewrite <- Z.lxor_lor by apply flag_of_last.
  symmetry. apply Z.add_nocarry_lxor, flag_of_last.
Qed.

Lemma shiftr7_below (v n : Z) :
  0 < Z.shiftr v 7 -> 0 <= n -> v < 2 ^ n -> 7 < n /\ Z.shiftr v 7 < 2 ^ (n - 7).
Proof.
  intros Hpos Hn Hv. rewrite Z.shiftr_div_pow2 in * by lia. change (2 ^ 7) with 128 in *.
  assert (128 <= v).
  { destruct (Z_le_dec 128 v); [assumption|].
    destruct (Z_le_dec 0 v).
    - rewrite Z.div_small in Hpos; lia.
    - assert (v / 128 <= 0) by (apply Z.div_le_upper_bound; lia). lia. }
  assert (7 < n).
  { destruct (Z_lt_dec 7 n); [assumption|].
    assert (2 ^ n <= 2 ^ 7) by (apply Z.pow_le_mono_r; lia).
    change (2 ^ 7) with 128 in *. lia. }
  split; [assumption|].
  apply Z.div_lt_upper_bound; [lia|].
  replace (128 * 2 ^ (n - 7)) with (2 ^ n); [assumption|].
  change 128 with (2 ^ 7). rewrite <- Z.pow_add_r by lia. f_equal. lia.
Qed.

(** The length reader on an encoded value below [2^31]. *)
Lemma lengthLoop_encodeVarint (v : Z) :
  0 <= v ->
  forall (tail : bytes) (acc shift : Z) (offset : nat),
    0 <= shift <= 31 -> v < 2 ^ (31 - shift) -> 0 <= acc < 2 ^ 31 ->
    lengthLoop (Codec.encodeVarint v ++ tail) acc shift offset =
    (Z.lor acc (Z.shiftl v shift), (offset + length (Codec.encodeVarint v))%nat).
Proof.
  intros Hv. generalize Hv. pattern v.
  apply Z_lt_induction; [clear v Hv | exact Hv].
  intros v IH Hv tail acc shift offset Hs Hbound Hacc.
  rewrite encodeVarint_unfold.
  destruct (Z.ltb_spec 0 (Z.shiftr v 7)) as [Hlt|Hge].
  - pose proof (shiftr7_lt v Hlt) as Hdec.
    pose proof (shiftr7_below v (31 - shift) Hlt ltac:(lia) Hbound) as [Hroom Hnext].
    pose proof (continued_byte_bounds v) as Hbyte.
    cbn [app lengthLoop].
    destruct (accumulate32 acc (Z.lor (Z.land v 127) 128) shift v) as [-> Hacc'];
      try lia; [apply low7_of_continued|].
    unfold js_and at 1. rewrite !toInt32_small by lia.
    rewrite flag_of_continued. change (128 =? 0) with false. cbv iota.
    rewrite IH; try lia.
    + rewrite <- Z.lor_assoc, glue7 by lia. f_equal. cbn [length]. lia.
    + replace (31 - (shift + 7)) with (31 - shift - 7) by lia. exact Hnext.
  - pose proof (land_127_bounds v) as Hbyte.
    cbn [app lengthLoop].
    destruct (accumulate32 acc (Z.land v 127) shift v) as [-> Hacc'];
      try lia; [apply low7_of_last|].
    unfold js_and at 1. rewrite !toInt32_small by lia.
    rewrite flag_of_last. change (0 =? 0) with true. cbv iota.
    rewrite small_land_127 by lia. f_equal. cbn [length]. lia.
Qed.

(** [parseVarInt] on an encoded value below [2^31]. *)
Lemma parseVarIntLoop_encodeVarint (v : Z) :
  0 <= v ->
  forall (tail : bytes) (acc shift : Z) (i : nat),
    0 <= shift <= 31 -> v < 2 ^ (31 - shift) -> 0 <= acc < 2 ^ 31 ->
    parseVarIntLoop (Codec.encodeVarint v ++ tail) acc shift i =
    (Z.lor acc (Z.shiftl v shift), (i + length (Codec.encodeVarint v))%nat).
Proof.
  intros Hv. generalize Hv. pattern v.
  apply Z_lt_induction; [clear v Hv | exact Hv].
  intros v IH Hv tail acc shift i Hs Hbound Hacc.
  rewrite encodeVarint_unfold.
  destruct (Z.ltb_spec 0 (Z.shiftr v 7)) as [Hlt|Hge].
  - pose proof (shiftr7_lt v Hlt) as Hdec.
    pose proof (shiftr7_below v (31 - shift) Hlt ltac:(lia) Hbound) as [Hroom Hnext].
    pose proof (continued_byte_bounds v) as Hbyte.
    cbn [app parseVarIntLoop].
    destruct (accumulate32 acc (Z.lor (Z.land v 127) 128) shift v) as [-> Hacc'];
      try lia; [apply low7_of_continued|].
    destruct (Z.leb_spec 128 (Z.lor (Z.land v 127) 128)); [|lia].
    rewrite IH; try lia.
    + rewrite <- Z.lor_assoc, glue7 by lia. f_equal. cbn [length]. lia.
    + replace (31 - (shift + 7)) with (31 - shift - 7) by lia. exact Hnext.
  - pose proof (land_127_bounds v) as Hbyte.
    cbn [app parseVarIntLoop].
    destruct (accumulate32 acc (Z.land v 127) shift v) as [-> Hacc'];
      try lia; [apply low7_of_last|].
    destruct (Z.leb_spec 128 (Z.land v 127)); [lia|].
    rewrite small_land_127 by lia. f_equal. cbn [length]. lia.
Qed.


(** The key of a field: [(fieldNumber << 3) | wireType] and its two parts. *)
Lemma tag_value (f w : Z) :
  0 <= f < 2 ^ 28 -> 0 <= w < 8 -> js_or (js_shl f 3) w = 8 * f + w.
Proof.
  intros Hf Hw. unfold js_or, js_shl.
  rewrite (toInt32_small f) by lia. change (Z.land 3 31) with 3.
  rewrite Z.shiftl_mul_pow2 by lia. change (2 ^ 3) with 8.
  rewrite (toInt32_small (f * 8)) by lia. rewrite (toInt32_small (f * 8)) by lia.
  rewrite (toInt32_small w) by lia.
  assert (Z.land (f * 8) w = 0) as Hdisjoint.
  { assert (w = Z.land (Z.ones 3) w) as ->.
    { rewrite Z.land_comm, Z.land_ones by lia. symmetry. apply Z.mod_small.
      change (2 ^ 3) with 8. lia. }
    rewrite Z.land_assoc, (Z.land_ones (f * 8)) by lia. change (2 ^ 3) with 8.
    rewrite Z.mod_mul by lia. reflexivity. }
  rewrite <- Z.lxor_lor by exact Hdisjoint.
  rewrite <- Z.add_nocarry_lxor by exact Hdisjoint. lia.
Qed.

Lemma tag_parts (f w : Z) :
  0 <= f < 2 ^ 28 -> 0 <= w < 8 ->
  js_sar (8 * f + w) 3 = f /\ js_and (8 * f + w) 7 = w.
Proof.
  intros Hf Hw. unfold js_sar, js_and.
  rewrite (toInt32_small (8 * f + w)) by lia. rewrite (toInt32_small 7) by lia.
  change (Z.land 3 31) with 3. split.
  - rewrite Z.shiftr_div_pow2 by lia. change (2 ^ 3) with 8.
    symmetry. apply Z.div_unique with w; lia.
  - change 7 with (Z.ones 3). rewrite Z.land_ones by lia. change (2 ^ 3) with 8.
    symmetry. apply Z.mod_unique with f; lia.
Qed.

Lemma encodeVarint_small (x : Z) : 0 <= x < 128 -> Codec.encodeVarint x = [x].
Proof.
  intros Hx. rewrite encodeVarint_unfold.
  assert (Z.shiftr x 7 = 0) as Hs.
  { rewrite Z.shiftr_div_pow2 by lia. apply Z.div_small. exact Hx. }
  rewrite Hs. cbn. rewrite small_land_127 by lia. reflexivity.
Qed.

Lemma encodeFieldKey_small (f w : Z) :
  1 <= f <= 15 -> 0 <= w < 8 -> Codec.encodeFieldKey f w = [8 * f + w].
Proof.
  intros Hf Hw. unfold Codec.encodeFieldKey.
  rewrite tag_value by lia. apply encodeVarint_small. lia.
Qed.


Lemma slice_middle (before m tail : bytes) :
  slice (before ++ m ++ tail) (Z.of_nat (length before))
        (Z.of_nat (length before) + Z.of_nat (length m)) = m.
Proof.
  unfold slice. rewrite !length_app.
  destruct (Z.ltb_spec (Z.of_nat (length before)) 0); [lia|].
  destruct (Z.ltb_spec (Z.of_nat (length before) + Z.of_nat (length m)) 0); [lia|].
  rewrite Z.min_l by lia. rewrite Z.min_l by lia.
  rewrite Nat2Z.id.
  replace (Z.to_nat (Z.of_nat (length before) + Z.of_nat (length m) - Z.of_nat (length before)))
    with (length m) by lia.
  rewrite drop_app_length. apply take_app_length.
Qed.

(** *** One field, at any position of the array *)

Lemma byteAt_middle (before rest : bytes) (key : Z) :
  byteAt (before ++ key :: rest) (Z.of_nat (length before)) = Some key.
Proof.
  unfold byteAt. destruct (Z.ltb_spec (Z.of_nat (length before)) 0); [lia|].
  rewrite Nat2Z.id. apply list_lookup_middle. reflexivity.
Qed.

Lemma drop_behind_key (before rest : bytes) (key : Z) :
  drop (S (length before)) (before ++ key :: rest) = rest.
Proof.
  rewrite (cons_middle key before rest), app_assoc.
  replace (S (length before)) with (length (before ++ [key]))
    by (rewrite length_app; cbn [length]; lia).
  apply drop_app_length.
Qed.

Lemma analyzeProtoBytes_field_varint (f v : Z) (before tail : bytes) :
  1 <= f <= 15 -> 0 <= v ->
  analyzeProtoBytes_field (before ++ (8 * f + 0) :: Codec.encodeVarint v ++ tail)
    (Z.of_nat (length before))
  = Some (VarintField f v,
          Z.of_nat (length before) + Z.of_nat (S (length (Codec.encodeVarint v)))).
Proof.
  intros Hf Hv. unfold analyzeProtoBytes_field.
  rewrite length_app. cbn [length].
  match goal with |- context [?a <? ?b] => destruct (Z.ltb_spec a b); [|lia] end.
  rewrite byteAt_middle.
  destruct (tag_parts f 0) as [-> ->]; [lia|lia|].
  change (0 =? 0) with true. cbv iota.
  unfold varintFrom.
  destruct (Z.ltb_spec (Z.of_nat (length before) + 1) 0); [lia|].
  replace (Z.to_nat (Z.of_nat (length before) + 1)) with (S (length before)) by lia.
  unfold Codec.analyzeProtoBytes_varint. rewrite drop_behind_key.
  rewrite varintLoop_encodeVarint by lia.
  rewrite Z.shiftl_0_r, Z.lor_0_l. f_equal. f_equal. lia.
Qed.

Lemma analyzeProtoBytes_field_len (f : Z) (before m tail : bytes) :
  1 <= f <= 15 -> Z.of_nat (length m) < 2 ^ 31 ->
  analyzeProtoBytes_field
    (before ++ (8 * f + 2) :: Codec.encodeVarint (Z.of_nat (length m)) ++ m ++ tail)
    (Z.of_nat (length before))
  = Some (LenField f (Z.of_nat (length m)) m,
          Z.of_nat (length before)
          + Z.of_nat (S (length (Codec.encodeVarint (Z.of_nat (length m))) + length m))).
Proof.
  intros Hf Hm. unfold analyzeProtoBytes_field.
  rewrite length_app. cbn [length].
  match goal with |- context [?a <? ?b] => destruct (Z.ltb_spec a b); [|lia] end.
  rewrite byteAt_middle.
  destruct (tag_parts f 2) as [-> ->]; [lia|lia|].
  change (2 =? 0) with false. change (2 =? 2) with true. cbv iota.
  replace (Z.to_nat (Z.of_nat (length before) + 1)) with (S (length before)) by lia.
  rewrite drop_behind_key.
  rewrite lengthLoop_encodeVarint by (change (31 - 0) with 31; lia).
  rewrite Z.shiftl_0_r, Z.lor_0_l.
  f_equal. f_equal; [|lia]. f_equal.
  set (enc := Codec.encodeVarint (Z.of_nat (length m))).
  replace (before ++ (8 * f + 2) :: enc ++ m ++ tail)
    with ((before ++ (8 * f + 2) :: enc) ++ m ++ tail)
    by (rewrite <- app_assoc; reflexivity).
  replace (S (length before) + length enc)%nat
    with (length (before ++ (8 * f + 2) :: enc))
    by (rewrite length_app; cbn [length]; lia).
  apply slice_middle.
Qed.

(** *** Printable text *)

Lemma printable_ascii (c : Z) : isPrintableChar c = true -> 0 <= c < 128.
Proof. unfold isPrintableChar. lia. Qed.

Lemma encode_ascii (s : jsstring) :
  Forall (fun c => 0 <= c < 128) s -> TextEncoder_encode s = s.
Proof.
  induction 1 as [|c s Hc _ IH]; [reflexivity|].
  cbn [TextEncoder_encode]. unfold isHighSurrogate, isLowSurrogate, utf8_of_codepoint.
  destruct (Z.leb_spec 0xD800 c); [lia|]. destruct (Z.leb_spec 0xDC00 c); [lia|].
  destruct (Z.ltb_spec c 0x80); [|lia]. cbn [andb app]. rewrite IH. reflexivity.
Qed.

Lemma codepoints_ascii (s : bytes) :
  Forall (fun c => 0 <= c < 128) s -> utf8_codepoints false s None = Some s.
Proof.
  induction 1 as [|c s Hc _ IH]; [reflexivity|].
  cbn [utf8_codepoints]. unfold utf8_lead.
  destruct (Z.leb_spec c 0x7F); [|lia]. rewrite IH. reflexivity.
Qed.

Lemma utf16_ascii (s : bytes) :
  Forall (fun c => 0 <= c < 128) s -> List.concat (List.map utf16_of_codepoint s) = s.
Proof.
  induction 1 as [|c s Hc _ IH]; [reflexivity|].
  cbn [List.map concat]. rewrite IH. unfold utf16_of_codepoint.
  destruct (Z.ltb_spec c 0x10000); [reflexivity|lia].
Qed.

Lemma decode_ascii (s : bytes) :
  Forall (fun c => 0 <= c < 128) s -> decodeText s = s.
Proof.
  intros Hs. unfold decodeText, TextDecoder_decode.
  assert (stripBom s = s) as ->.
  { destruct Hs as [|c s Hc Hs]; [reflexivity|].
    unfold stripBom. destruct c as [|p|p]; try reflexivity.
    repeat (destruct p as [p|p|]; try reflexivity); lia. }
  rewrite codepoints_ascii by exact Hs. cbn [fmap option_fmap option_map default].
  apply utf16_ascii, Hs.
Qed.

Lemma isPrintable_ascii (s : jsstring) :
  isPrintable s = true -> Forall (fun c => 0 <= c < 128) s /\ s <> [].
Proof.
  unfold isPrintable. intros H. apply andb_true_iff in H as [Hall Hne]. split.
  - apply Forall_forall. intros c Hc. apply list_elem_of_In in Hc.
    rewrite forallb_forall in Hall. apply printable_ascii, Hall, Hc.
  - destruct s; [discriminate|discriminate].
Qed.

(** *** The fields the encoders write *)

Lemma encodeMessageField_bytes (f : Z) (m : bytes) :
  1 <= f <= 15 ->
  Codec.encodeMessageField f m
  = (8 * f + 2) :: Codec.encodeVarint (Z.of_nat (length m)) ++ m.
Proof.
  intros Hf. unfold Codec.encodeMessageField, Codec.concatBytes.
  rewrite encodeFieldKey_small by lia. cbn [concat app]. rewrite app_nil_r. reflexivity.
Qed.

Lemma field_of_message (f : Z) (before m tail : bytes) :
  1 <= f <= 15 -> Z.of_nat (length m) < 2 ^ 31 ->
  analyzeProtoBytes_field (before ++ Codec.encodeMessageField f m ++ tail)
    (Z.of_nat (length before))
  = Some (LenField f (Z.of_nat (length m)) m,
          Z.of_nat (length before) + Z.of_nat (length (Codec.encodeMessageField f m))).
Proof.
  intros Hf Hm. rewrite encodeMessageField_bytes by exact Hf.
  cbn [app]. rewrite <- app_assoc. rewrite analyzeProtoBytes_field_len by assumption.
  f_equal. f_equal. f_equal. cbn [length]. rewrite length_app. lia.
Qed.

Lemma field_of_uint (f v : Z) (before tail : bytes) :
  1 <= f <= 15 -> 0 < v ->
  analyzeProtoBytes_field (before ++ Codec.encodeUint32Field f v ++ tail)
    (Z.of_nat (length before))
  = Some (VarintField f v,
          Z.of_nat (length before) + Z.of_nat (length (Codec.encodeUint32Field f v))).
Proof.
  intros Hf Hv. unfold Codec.encodeUint32Field.
  destruct (Z.eqb_spec v 0); [lia|].
  unfold Codec.concatBytes. rewrite encodeFieldKey_small by lia.
  cbn [concat app]. rewrite app_nil_r.
  apply analyzeProtoBytes_field_varint; lia.
Qed.

Lemma field_of_int (f v : Z) (before tail : bytes) :
  1 <= f <= 15 -> - 2 ^ 31 <= v < 2 ^ 31 -> v <> 0 ->
  analyzeProtoBytes_field (before ++ Codec.encodeInt32Field f v ++ tail)
    (Z.of_nat (length before))
  = Some (VarintField f (if 0 <=? v then v else v + 0x100000000),
          Z.of_nat (length before) + Z.of_nat (length (Codec.encodeInt32Field f v))).
Proof.
  intros Hf Hv Hnz. unfold Codec.encodeInt32Field.
  destruct (Z.eqb_spec v 0); [lia|].
  unfold Codec.concatBytes. rewrite encodeFieldKey_small by lia.
  cbn [concat app]. rewrite app_nil_r.
  apply analyzeProtoBytes_field_varint; [lia|].
  destruct (Z.leb_spec 0 v); lia.
Qed.

Lemma field_of_string (f : Z) (s : jsstring) (before tail : bytes) :
  1 <= f <= 15 -> isPrintable s = true -> Z.of_nat (length s) < 2 ^ 31 ->
  analyzeProtoBytes_field (before ++ Codec.encodeStringField f s ++ tail)
    (Z.of_nat (length before))
  = Some (LenField f (Z.of_nat (length s)) s,
          Z.of_nat (length before) + Z.of_nat (length (Codec.encodeStringField f s))).
Proof.
  intros Hf Hs Hlen. destruct (isPrintable_ascii s Hs) as [Hascii Hne].
  destruct s as [|c s]; [congruence|].
  change (Codec.encodeStringField f (c :: s))
    with (Codec.encodeMessageField f (TextEncoder_encode (c :: s))).
  rewrite (encode_ascii (c :: s) Hascii). apply field_of_message; assumption.
Qed.

Lemma unsigned_form (v : Z) :
  - 2 ^ 31 <= v < 2 ^ 31 -> toInt32 (if 0 <=? v then v else v + 0x100000000) = v.
Proof.
  intros Hv. unfold toInt32. destruct (Z.leb_spec 0 v).
  - rewrite Z.mod_small; lia.
  - replace (v + 4294967296 + 2 ^ 31) with (v + 2 ^ 31 + 1 * 2 ^ 32) by lia.
    rewrite Z.mod_add by lia. rewrite Z.mod_small; lia.
Qed.

Lemma analyzeProtoBytes_from_S (fuel : nat) (bytes : bytes) (depth : nat) (offset : Z) :
  analyzeProtoBytes_from (S fuel) bytes depth offset =
  match analyzeProtoBytes_field bytes offset with
  | None => Some []
  | Some (VarintField fieldNumber value, next) =>
    cons (printed_varint depth fieldNumber value)
      <$> analyzeProtoBytes_from fuel bytes depth next
  | Some (LenField fieldNumber len data, next) =>
    if isPrintable (decodeText data) then
      cons (printed_string depth fieldNumber len (decodeText data))
        <$> analyzeProtoBytes_from fuel bytes depth next
    else
      match analyzeProtoBytes_from fuel data (S depth) 0 with
      | None => None
      | Some nested =>
        (fun rest => printed_message depth fieldNumber len :: nested ++ rest)
          <$> analyzeProtoBytes_from fuel bytes depth next
      end
  | Some (OtherField fieldNumber wireType, _) =>
    Some [printed_unknown depth fieldNumber wireType]
  end.
Proof. reflexivity. Qed.

(** A run that has returned returns the same with more turns allowed. *)
Lemma analyzeProtoBytes_from_more (fuel : nat) :
  forall (bytes : bytes) (depth : nat) (offset : Z) (lines : list Printed),
    analyzeProtoBytes_from fuel bytes depth offset = Some lines ->
    analyzeProtoBytes_from (S fuel) bytes depth offset = Some lines.
Proof.
  induction fuel as [|fuel IH]; intros bytes depth offset lines; [discriminate|].
  rewrite (analyzeProtoBytes_from_S (S fuel)), (analyzeProtoBytes_from_S fuel).
  destruct (analyzeProtoBytes_field bytes offset) as [[[f v|f len data|f w] next]|];
    try (intros H; exact H).
  - destruct (analyzeProtoBytes_from fuel bytes depth next) as [rest|] eqn:E;
      [|discriminate].
    rewrite (IH _ _ _ _ E). intros H; exact H.
  - destruct (isPrintable (decodeText data)).
    + destruct (analyzeProtoBytes_from fuel bytes depth next) as [rest|] eqn:E;
        [|discriminate].
      rewrite (IH _ _ _ _ E). intros H; exact H.
    + destruct (analyzeProtoBytes_from fuel data (S depth) 0) as [nested|] eqn:En;
        [|discriminate].
      rewrite (IH _ _ _ _ En).
      destruct (analyzeProtoBytes_from fuel bytes depth next) as [rest|] eqn:E;
        [|discriminate].
      rewrite (IH _ _ _ _ E). intros H; exact H.
Qed.

Lemma analyzeProtoBytes_from_enough (fuel fuel' : nat) (bytes : bytes) (depth : nat)
    (offset : Z) (lines : list Printed) :
  (fuel <= fuel')%nat ->
  analyzeProtoBytes_from fuel bytes depth offset = Some lines ->
  analyzeProtoBytes_from fuel' bytes depth offset = Some lines.
Proof.
  intros Hle Hrun. induction Hle as [|fuel' _ IH]; [exact Hrun|].
  apply analyzeProtoBytes_from_more, IH.
Qed.

(** A message of scalar fields is read to its end, one turn per field and
    one more to leave the loop. *)
Lemma scalars_read_back (fields : list ScalarField) :
  Forall readable fields ->
  forall before : bytes,
    analyzeProtoBytes_from (S (length fields))
      (before ++ List.concat (List.map encodeScalar fields)) 0 (Z.of_nat (length before))
    = Some (List.map printedScalar fields).
Proof.
  induction 1 as [|field fields Hfield _ IH]; intros before.
  - cbn [List.map concat length analyzeProtoBytes_from]. rewrite app_nil_r.
    unfold analyzeProtoBytes_field. rewrite Z.ltb_irrefl. reflexivity.
  - cbn [List.map concat length].
    specialize (IH (before ++ encodeScalar field)).
    rewrite length_app, Nat2Z.inj_add, <- app_assoc in IH.
    rewrite analyzeProtoBytes_from_S.
    destruct field as [f v|f v|f s]; cbn [encodeScalar printedScalar readable] in *.
    + destruct Hfield as [Hf Hv]. rewrite field_of_uint by assumption.
      rewrite IH. reflexivity.
    + destruct Hfield as (Hf & Hv & Hnz). rewrite field_of_int by assumption.
      rewrite IH. reflexivity.
    + destruct Hfield as (Hf & Hs & Hlen). rewrite field_of_string by assumption.
      destruct (isPrintable_ascii s Hs) as [Hascii _].
      rewrite (decode_ascii s Hascii), Hs, IH. reflexivity.
Qed.

(** X1.  [analyzeProtoBytes] reads back what the encoders of the codec
    write with a field number from 1 to 15, at any position of an array and
    whatever follows: a turn of its loop prints an unsigned integer field with
    its value, a signed one with the unsigned 32-bit form of its value (which
    [toInt32] turns back into the value), a string field of printable ASCII
    with its text, and goes on right behind the field; a message field (of
    less than [2^31] bytes) whose payload does not read as printable text is
    first descended into, and the loop goes on behind it if that descent
    returns.  A message of such integer and string fields is read to its end:
    the analysis returns once it is given more turns than there are fields,
    with one line per field, in order. *)
Theorem analyzeProtoBytes_reads_back :
  (forall f before tail depth fuel,
      1 <= f <= 15 ->
      let here := Z.of_nat (length before) in
      (forall v, 0 < v ->
         let field := Codec.encodeUint32Field f v in
         analyzeProtoBytes_from (S fuel) (before ++ field ++ tail) depth here
         = cons (printed_varint depth f v)
             <$> analyzeProtoBytes_from fuel (before ++ field ++ tail) depth
                   (here + Z.of_nat (length field))) /\
      (forall v, - 2 ^ 31 <= v < 2 ^ 31 -> v <> 0 ->
         let field := Codec.encodeInt32Field f v in
         exists raw,
           toInt32 raw = v /\
           analyzeProtoBytes_from (S fuel) (before ++ field ++ tail) depth here
           = cons (printed_varint depth f raw)
               <$> analyzeProtoBytes_from fuel (before ++ field ++ tail) depth
                     (here + Z.of_nat (length field))) /\
      (forall s, isPrintable s = true -> Z.of_nat (length s) < 2 ^ 31 ->
         let field := Codec.encodeStringField f s in
         analyzeProtoBytes_from (S fuel) (before ++ field ++ tail) depth here
         = cons (printed_string depth f (Z.of_nat (length s)) s)
             <$> analyzeProtoBytes_from fuel (before ++ field ++ tail) depth
                   (here + Z.of_nat (length field))) /\
      (forall m, Z.of_nat (length m) < 2 ^ 31 -> isPrintable (decodeText m) = false ->
         let field := Codec.encodeMessageField f m in
         analyzeProtoBytes_from (S fuel) (before ++ field ++ tail) depth here
         = match analyzeProtoBytes_from fuel m (S depth) 0 with
           | None => None
           | Some nested =>
             (fun rest => printed_message depth f (Z.of_nat (length m)) :: nested ++ rest)
               <$> analyzeProtoBytes_from fuel (before ++ field ++ tail) depth
                     (here + Z.of_nat (length field))
           end)) /\
  (forall fields fuel,
      Forall readable fields ->
      (length fields < fuel)%nat ->
      analyzeProtoBytes fuel (List.concat (List.map encodeScalar fields))
      = Some (List.map printedScalar fields)).
Proof.
  split.
  - intros f before tail depth fuel Hf here. split; [|split; [|split]].
    + intros v Hv field. rewrite analyzeProtoBytes_from_S.
      unfold here, field. rewrite field_of_uint by assumption. reflexivity.
    + intros v Hv Hnz field. exists (if 0 <=? v then v else v + 0x100000000).
      split; [apply unsigned_form, Hv|]. rewrite analyzeProtoBytes_from_S.
      unfold here, field. rewrite field_of_int by assumption. reflexivity.
    + intros s Hs Hlen field. rewrite analyzeProtoBytes_from_S.
      unfold here, field. rewrite field_of_string by assumption.
      destruct (isPrintable_ascii s Hs) as [Hascii _].
      rewrite (decode_ascii s Hascii), Hs. reflexivity.
    + intros m Hm Htext field. rewrite analyzeProtoBytes_from_S.
      unfold here, field. rewrite field_of_message by assumption.
      rewrite Htext. reflexivity.
  - intros fields fuel Hfields Hfuel.
    apply (analyzeProtoBytes_from_enough (S (length fields))); [lia|].
    exact (scalars_read_back fields Hfields []).
Qed.

Lemma analyzeProtoBytes_reads_back_witness :
  let fields := [UintValue 1 5; StringValue 2 (js "hi"); IntValue 7 (-1)] in
  analyzeProtoBytes 4 (List.concat (List.map encodeScalar fields))
  = Some [printed_varint 0 1 5; printed_string 0 2 2 (js "hi");
          printed_varint 0 7 4294967295].
Proof.
  refine (proj2 analyzeProtoBytes_reads_back
            [UintValue 1 5; StringValue 2 (js "hi"); IntValue 7 (-1)] 4%nat _ _).
  - repeat constructor; vm_compute; congruence.
  - cbn. lia.
Defined.

(** A payload whose length reads as a negative number sends the loop back
    to where it was: the descent into the payload [0a fa ff ff ff 0f]
    (length -6 behind six bytes) reads its one field over and over, and
    neither it nor the analysis of a message that carries it returns. *)
Example analyzeProtoBytes_need_not_return (fuel depth : nat) :
  analyzeProtoBytes_from fuel [0x0a; 0xfa; 0xff; 0xff; 0xff; 0x0f] depth 0 = None /\
  analyzeProtoBytes fuel (Codec.encodeMessageField 2 [0x0a; 0xfa; 0xff; 0xff; 0xff; 0x0f])
  = None.
Proof.
  assert (forall fuel depth,
            analyzeProtoBytes_from fuel [0x0a; 0xfa; 0xff; 0xff; 0xff; 0x0f] depth 0 = None)
    as Hloop.
  { clear. induction fuel as [|fuel IH]; intros depth; [reflexivity|].
    rewrite analyzeProtoBytes_from_S.
    assert (analyzeProtoBytes_field [0x0a; 0xfa; 0xff; 0xff; 0xff; 0x0f] 0
            = Some (LenField 1 (-6) [], 0)) as -> by (vm_compute; reflexivity).
    change (isPrintable (decodeText [])) with false. cbv iota.
    rewrite IH. destruct (analyzeProtoBytes_from fuel [] (S depth) 0); reflexivity. }
  split; [apply Hloop|].
  unfold analyzeProtoBytes. destruct fuel as [|fuel]; [reflexivity|].
  rewrite analyzeProtoBytes_from_S.
  assert (analyzeProtoBytes_field
            (Codec.encodeMessageField 2 [0x0a; 0xfa; 0xff; 0xff; 0xff; 0x0f]) 0
          = Some (LenField 2 6 [0x0a; 0xfa; 0xff; 0xff; 0xff; 0x0f], 8)) as ->
    by (vm_compute; reflexivity).
  assert (isPrintable (decodeText [0x0a; 0xfa; 0xff; 0xff; 0xff; 0x0f]) = false) as ->
    by (vm_compute; reflexivity).
  rewrite Hloop. reflexivity.
Qed.

(** X2.  [decodeTag] inverts [encodeTagAndWireType] of the comparison script
    at any position of an array: for a field number below [2^28] and a wire
    type below 8 it returns the two, and the offset right behind the tag. *)
Theorem decodeTag_inverts_encodeTagAndWireType (f w : Z) (before tail : bytes) :
  0 <= f < 2 ^ 28 -> 0 <= w < 8 ->
  decodeTag (before ++ DebugScript.encodeTagAndWireType f w ++ tail) (length before)
  = {| tag_fieldNumber := f;
       tag_wireType := w;
       tag_newOffset := length before + length (DebugScript.encodeTagAndWireType f w) |}.
Proof.
  intros Hf Hw. unfold decodeTag, parseVarInt, DebugScript.encodeTagAndWireType.
  rewrite drop_app_length, tag_value by lia.
  rewrite DebugScript_encodeVarint_agrees.
  rewrite parseVarIntLoop_encodeVarint; try (change (31 - 0) with 31; lia).
  rewrite Z.shiftl_0_r, Z.lor_0_l.
  destruct (tag_parts f w) as [-> ->]; [lia|lia|]. reflexivity.
Qed.

Lemma decodeTag_inverts_encodeTagAndWireType_witness :
  decodeTag (DebugScript.encodeTagAndWireType 15 2 ++ [0x04]) 0
  = {| tag_fieldNumber := 15; tag_wireType := 2; tag_newOffset := 1 |}.
Proof.
  refine (decodeTag_inverts_encodeTagAndWireType 15 2 [] [0x04] _ _); lia.
Defined.

(** X3.  The two copies of the encoders write the same bytes for every
    varint, every key and every message field, and for every integer other
    than 0 and every string other than the empty one; for these two default
    values the copy of the comparison script writes the key and a zero byte
    where the codec writes nothing. *)
Theorem encoder_copies_agree :
  (forall v, DebugScript.encodeVarint v = Codec.encodeVarint v) /\
  (forall f w, DebugScript.encodeTagAndWireType f w = Codec.encodeFieldKey f w) /\
  (forall f m, DebugScript.encodeMessageField f m = Codec.encodeMessageField f m) /\
  (forall f v, v <> 0 -> DebugScript.encodeUint32Field f v = Codec.encodeUint32Field f v) /\
  (forall f s, s <> [] -> DebugScript.encodeStringField f s = Codec.encodeStringField f s) /\
  (forall f, DebugScript.encodeUint32Field f 0 = Codec.encodeFieldKey f 0 ++ [0]
             /\ Codec.encodeUint32Field f 0 = []) /\
  (forall f, DebugScript.encodeStringField f [] = Codec.encodeFieldKey f 2 ++ [0]
             /\ Codec.encodeStringField f [] = []).
Proof.
  assert (forall f w, DebugScript.encodeTagAndWireType f w = Codec.encodeFieldKey f w) as Hkey.
  { intros f w. unfold DebugScript.encodeTagAndWireType, Codec.encodeFieldKey.
    apply DebugScript_encodeVarint_agrees. }
  assert (forall f m, DebugScript.encodeMessageField f m = Codec.encodeMessageField f m) as Hmsg.
  { intros f m. unfold DebugScript.encodeMessageField, Codec.encodeMessageField.
    rewrite Hkey, DebugScript_encodeVarint_agrees. reflexivity. }
  split; [exact DebugScript_encodeVarint_agrees|]. split; [exact Hkey|].
  split; [exact Hmsg|]. split; [|split; [|split]].
  - intros f v Hv. unfold DebugScript.encodeUint32Field, Codec.encodeUint32Field.
    destruct (Z.eqb_spec v 0); [contradiction|].
    rewrite Hkey, DebugScript_encodeVarint_agrees. reflexivity.
  - intros f s Hs. destruct s as [|c s]; [contradiction|].
    exact (Hmsg f (TextEncoder_encode (c :: s))).
  - intros f. split; [|reflexivity].
    unfold DebugScript.encodeUint32Field, DebugScript.concatBytes.
    rewrite Hkey, DebugScript_encodeVarint_agrees, encodeVarint_small by lia.
    cbn [concat]. rewrite app_nil_r. reflexivity.
  - intros f. split; [|reflexivity].
    unfold DebugScript.encodeStringField, DebugScript.concatBytes.
    cbn [TextEncoder_encode length]. change (Z.of_nat 0) with 0.
    rewrite Hkey, DebugScript_encodeVarint_agrees, encodeVarint_small by lia.
    cbn [concat]. rewrite !app_nil_r. reflexivity.
Qed.

Lemma encoder_copies_agree_witness :
  DebugScript.encodeUint32Field 1 5 = Codec.encodeUint32Field 1 5.
Proof.
  refine (proj1 (proj2 (proj2 (proj2 encoder_copies_agree))) 1 5 _). lia.
Defined.

End ReaderFacts.

(** ** The client: blob store, result sends, and the ends of a stream *)

Section ClientFacts.
Import AgentService.
Context {decoders : ProtoDecoders} {host : Host} {env : StreamEnv}.

(** *** The blob store *)

Lemma hexChar_inj (a b : Z) :
  0 <= a < 16 -> 0 <= b < 16 -> hexChar a = hexChar b -> a = b.
Proof.
  unfold hexChar. intros Ha Hb.
  destruct (Z.ltb_spec a 10), (Z.ltb_spec b 10); lia.
Qed.

Lemma nibbles (x : Z) :
  0 <= x < 256 ->
  0 <= Z.shiftr x 4 < 16 /\ 0 <= Z.land x 15 < 16 /\ x = 16 * Z.shiftr x 4 + Z.land x 15.
Proof.
  intros Hx. rewrite Z.shiftr_div_pow2 by lia. change 15 with (Z.ones 4).
  rewrite Z.land_ones by lia. change (2 ^ 4) with 16.
  pose proof (Z.div_mod x 16 ltac:(lia)). pose proof (Z.mod_pos_bound x 16 ltac:(lia)).
  assert (x / 16 < 16) by (apply Z.div_lt_upper_bound; lia).
  assert (0 <= x / 16) by (apply Z.div_pos; lia).
  lia.
Qed.

Lemma blobIdToKey_inj (a b : bytes) :
  Forall (fun x => 0 <= x < 256) a ->
  Forall (fun x => 0 <= x < 256) b ->
  blobIdToKey a = blobIdToKey b -> a = b.
Proof.
  unfold blobIdToKey, hexOfBytes. intros Ha. revert b.
  induction Ha as [|x a Hx Ha IH]; intros b Hb; destruct Hb as [|y b Hy Hb];
    cbn [List.map concat app]; intros Heq; try discriminate; [reflexivity|].
  injection Heq as Hhi Hlo Hrest.
  destruct (nibbles x Hx) as (? & ? & Ex). destruct (nibbles y Hy) as (? & ? & Ey).
  apply hexChar_inj in Hhi; [|lia|lia]. apply hexChar_inj in Hlo; [|lia|lia].
  f_equal; [lia|]. apply IH; assumption.
Qed.

Lemma bidiAppend_wire (requestId : jsstring) (seqno : Z) (data : bytes) (st : St)
    (o : Outcome unit) (st' : St) :
  bidiAppend requestId seqno data st = (o, st') ->
  st' = set_wire (wire st ++ [{| ap_requestId := requestId; append_seqno := seqno;
                                 ap_data := data |}]) st.
Proof.
  unfold bidiAppend. destruct (appendResponse (length (wire st))); intros [= <- <-]; reflexivity.
Qed.

Lemma handleKvMessage_set_stores (kvMsg : Kv.KvServerMessage) (requestId : jsstring)
    (seqno : Z) (blobId blobData : bytes) (st : St) (o : Outcome Z) (st' : St) :
  Kv.messageType kvMsg = Kv.set_blob_args ->
  Kv.blobId kvMsg = Some blobId ->
  Kv.blobData kvMsg = Some blobData ->
  handleKvMessage kvMsg requestId seqno st = (o, st') ->
  blobStore st' = <[blobIdToKey blobId := blobData]> (blobStore st).
Proof.
  intros Ht Hid Hdata. unfold handleKvMessage. rewrite Ht, Hid, Hdata.
  destruct (analyzeBlobData_total blobData) as (analysis & Ha).
  rewrite Ha. unfold bind, modify, liftResult, ret.
  match goal with |- context [bidiAppend ?r ?n ?d ?s] =>
    pose proof (bidiAppend_wire r n d s) as Hw;
    destruct (bidiAppend r n d s) as [[[]|e|] st1]
  end; specialize (Hw _ _ eq_refl); subst st1; intros [= <- <-]; reflexivity.
Qed.

Lemma handleKvMessage_get (kvMsg : Kv.KvServerMessage) (requestId : jsstring)
    (seqno : Z) (blobId : bytes) (st : St) (o : Outcome Z) (st' : St) :
  Kv.messageType kvMsg = Kv.get_blob_args ->
  Kv.blobId kvMsg = Some blobId ->
  handleKvMessage kvMsg requestId seqno st = (o, st') ->
  st' = set_wire
          (wire st ++
           [{| ap_requestId := requestId; append_seqno := seqno;
               ap_data :=
                 Kv.buildAgentClientMessageWithKv
                   (Kv.buildKvClientMessage (Kv.id kvMsg) Kv.get_blob_result
                      (match blobStore st !! blobIdToKey blobId with
                       | Some data => Codec.encodeMessageField 1 data
                       | None => []
                       end)) |}]) st.
Proof.
  intros Ht Hid. unfold handleKvMessage. rewrite Ht, Hid.
  unfold bind, get, ret.
  match goal with |- context [bidiAppend ?r ?n ?d ?s] =>
    pose proof (bidiAppend_wire r n d s) as Hw;
    destruct (bidiAppend r n d s) as [[[]|e|] st1]
  end; specialize (Hw _ _ eq_refl); subst st1; intros [= <- <-]; reflexivity.
Qed.

(** X5.  A blob stored by a [set_blob_args] message is what a later
    [get_blob_args] message for the same blob id is answered with (result
    field 1 with the stored bytes), also when the append of the first reply
    failed; a request for any other blob id is answered as it would have been
    before, with an empty result when that blob has never been stored; and a
    request does not change the store. *)
Theorem blob_store_round_trip (setMsg getMsg : Kv.KvServerMessage)
    (blobId other blobData : bytes) (requestId requestId' : jsstring) (seqno seqno' : Z)
    (st st1 st2 : St) (o o' : Outcome Z) :
  Kv.messageType setMsg = Kv.set_blob_args ->
  Kv.blobId setMsg = Some blobId ->
  Kv.blobData setMsg = Some blobData ->
  Kv.messageType getMsg = Kv.get_blob_args ->
  Kv.blobId getMsg = Some other ->
  Forall (fun x => 0 <= x < 256) blobId ->
  Forall (fun x => 0 <= x < 256) other ->
  handleKvMessage setMsg requestId seqno st = (o, st1) ->
  handleKvMessage getMsg requestId' seqno' st1 = (o', st2) ->
  let result :=
    if bool_decide (other = blobId) then Codec.encodeMessageField 1 blobData
    else match blobStore st !! blobIdToKey other with
         | Some data => Codec.encodeMessageField 1 data
         | None => []
         end in
  wire st2 =
    wire st1 ++
    [{| ap_requestId := requestId'; append_seqno := seqno';
        ap_data := Kv.buildAgentClientMessageWithKv
                     (Kv.buildKvClientMessage (Kv.id getMsg) Kv.get_blob_result result) |}]
  /\ blobStore st2 = blobStore st1.
Proof.
  intros Hset Hid Hdata Hget Hother Hbytes Hbytes' Hrun1 Hrun2 result.
  pose proof (handleKvMessage_set_stores _ _ _ _ _ _ _ _ Hset Hid Hdata Hrun1) as Hstore.
  pose proof (handleKvMessage_get _ _ _ _ _ _ _ Hget Hother Hrun2) as ->.
  split; [|reflexivity]. cbn [wire set_wire]. do 4 f_equal.
  unfold result. rewrite Hstore. destruct (bool_decide_reflect (other = blobId)) as [->|Hne].
  - rewrite lookup_insert_eq. reflexivity.
  - rewrite lookup_insert_ne; [reflexivity|].
    intros Heq. apply Hne. symmetry. apply blobIdToKey_inj; assumption.
Qed.

(** *** Sending a result *)

(** X6.  On an active stream whose two appends are accepted, sending a
    result makes exactly two appends, the result message and then the stream
    close for the same exec id, numbered with the client's counter and the
    next number; the counter advances by two and nothing else of the client
    changes. *)
Theorem sendResult_two_appends (kind : ResultKind) (id : Z) (execClientMsg : bytes) (c : Z)
    (rid : jsstring) (st : St) :
  currentRequestId st = Some (c :: rid) ->
  appendResponse (length (wire st)) = None ->
  appendResponse (S (length (wire st))) = None ->
  exists st',
    sendResult kind id execClientMsg st = (Normal tt, st') /\
    wire st' =
      wire st ++
      [{| ap_requestId := c :: rid; append_seqno := currentAppendSeqno st;
          ap_data := Codec.buildAgentClientMessageWithExec execClientMsg |};
       {| ap_requestId := c :: rid; append_seqno := currentAppendSeqno st + 1;
          ap_data := Codec.buildAgentClientMessageWithExecControl
                       (Codec.buildExecClientControlMessage id) |}] /\
    currentAppendSeqno st' = currentAppendSeqno st + 2 /\
    onlyWire st st'.
Proof.
  intros Hrid Hfirst Hsecond.
  unfold sendResult, bind, get. rewrite Hrid.
  unfold bidiAppend at 1. rewrite Hfirst.
  unfold modify at 1. cbn [currentRequestId set_wire set_currentAppendSeqno wire
                           currentAppendSeqno].
  unfold bidiAppend. cbn [wire set_wire set_currentAppendSeqno currentRequestId
                          currentAppendSeqno].
  rewrite length_app. cbn [length]. rewrite Nat.add_1_r, Hsecond.
  rewrite Hrid. cbn [default]. unfold modify.
  eexists. split; [reflexivity|].
  cbn [wire set_wire set_currentAppendSeqno currentAppendSeqno].
  split; [rewrite <- app_assoc; reflexivity|]. split; [lia|].
  unfold onlyWire. destruct st. reflexivity.
Qed.


(** X7.  Without an active stream, sending a result throws the error of
    its method and appends nothing.  When the append of the result is refused,
    the send throws, the stream close is not sent and the client's counter is
    not advanced. *)
Theorem sendResult_refused (kind : ResultKind) (id : Z) (execClientMsg : bytes) (st : St) :
  (currentRequestId st = None ->
   sendResult kind id execClientMsg st
   = (Thrown (PlainError (js "No active chat stream - cannot send " ++ resultWords kind
                            ++ js " result")), st)) /\
  (forall c rid failure,
      currentRequestId st = Some (c :: rid) ->
      appendResponse (length (wire st)) = Some failure ->
      exists e st',
        sendResult kind id execClientMsg st = (Thrown e, st') /\
        wire st' =
          wire st ++
          [{| ap_requestId := c :: rid; append_seqno := currentAppendSeqno st;
              ap_data := Codec.buildAgentClientMessageWithExec execClientMsg |}] /\
        currentAppendSeqno st' = currentAppendSeqno st).
Proof.
  split.
  - intros Hrid. unfold sendResult, bind, get. rewrite Hrid. reflexivity.
  - intros c rid failure Hrid Hfail.
    unfold sendResult, bind, get. rewrite Hrid.
    unfold bidiAppend. rewrite Hfail. do 2 eexists. split; [reflexivity|].
    split; reflexivity.
Qed.

Lemma yield_not_thrown (chunk : AgentStreamChunk) (st : St) (e : JsError) (st' : St) :
  yield chunk st <> (Thrown e, st').
Proof. unfold yield. destruct (stops _); discriminate. Qed.

Lemma onServerField_not_thrown (requestId : jsstring) (field : ProtoField) (st : St)
    (e : JsError) (st' : St) :
  onServerField requestId field st <> (Thrown e, st').
Proof.
  unfold onServerField, tryCatch.
  destruct (dispatchField requestId field st) as [[[]|e'|] st1]; try discriminate.
  apply yield_not_thrown.
Qed.

Lemma forEach_not_thrown {A} (body : A -> M unit) (l : list A) :
  (forall x st e st', body x st <> (Thrown e, st')) ->
  forall st e st', forEach l body st <> (Thrown e, st').
Proof.
  intros Hbody. induction l as [|x l IH]; intros st e st'; cbn [forEach].
  - discriminate.
  - unfold bind. destruct (body x st) as [[[]|e'|] st1] eqn:E.
    + apply IH.
    + exfalso. exact (Hbody _ _ _ _ E).
    + discriminate.
Qed.

(** *** Errors of the decoders *)

(** X8.  A message frame whose fields can be listed is handled without an
    exception, whatever the decoders of its fields throw: the handling ends
    normally or with the consumer's return.  An exception in the handling of
    one field is yielded as an error chunk naming the field number. *)
Theorem field_errors_become_chunks (requestId : jsstring) (frame : Frame) (st : St) :
  (forall fields,
      parseProtoFields (frameData frame) = Ok fields ->
      exists st',
        onMessage requestId frame st = (Normal tt, st') \/
        onMessage requestId frame st = (Returned, st')) /\
  (forall field e st1,
      dispatchField requestId field st = (Thrown e, st1) ->
      onServerField requestId field st =
      yield (error_chunk (js "Parse error in field " ++ numberToString (fieldNumber field)
                            ++ js ": " ++ err_message e)) st1).
Proof.
  split.
  - intros fields Hparse.
    destruct (onMessage requestId frame st) as [[[]|e|] st'] eqn:E.
    + exists st'. left. reflexivity.
    + exfalso. revert E. unfold onMessage, bind. rewrite Hparse.
      cbn [liftResult ret]. apply forEach_not_thrown. intros.
      apply onServerField_not_thrown.
    + exists st'. right. reflexivity.
  - intros field e st1 Hthrown. unfold onServerField, tryCatch. rewrite Hthrown. reflexivity.
Qed.

(** *** Failures before the body *)

Lemma onStreamError_closes (e : JsError) (st : St) :
  currentRequestId (snd (onStreamError e st)) = None
  /\ yielded (snd (onStreamError e st)) =
     yielded st ++ (if isAbortError e then [] else [error_chunk (errorText e)]).
Proof.
  unfold onStreamError, bind, modify. destruct (isAbortError e).
  - cbn. rewrite app_nil_r. split; reflexivity.
  - destruct (yield (error_chunk (errorText e)) (set_currentRequestId None st))
      as [o st'] eqn:E.
    apply yield_fields in E. destruct E as (_ & Hy & _ & Hrid & _).
    cbn [snd]. rewrite Hy, Hrid. split; reflexivity.
Qed.

(** X9.  How a stream fails before its body is read.  A refused first
    append yields one error chunk with the failure and gives up the request;
    a response that is not ok, or has no body, yields one error chunk and
    leaves the request current; a rejected fetch yields one error chunk with
    the message of the error, or nothing for an abort, and gives up the
    request. *)
Theorem chatStream_early_failures (requestId : jsstring) (messageBody : bytes) (st : St) :
  (forall failure sse,
      appendResponse (length (wire st)) = Some failure ->
      let final := snd (chatStream requestId messageBody sse st) in
      yielded final = yielded st ++ [error_chunk (js "BidiAppend failed: " ++ failure)]
      /\ currentRequestId final = None) /\
  (appendResponse (length (wire st)) = None ->
   (forall status text,
       let final := snd (chatStream requestId messageBody (NotOk status text) st) in
       yielded final =
         yielded st ++ [error_chunk (js "SSE stream failed: " ++ status ++ js " - " ++ text)]
       /\ currentRequestId final = Some requestId) /\
   (let final := snd (chatStream requestId messageBody NoBody st) in
    yielded final = yielded st ++ [error_chunk (js "No response body from SSE stream")]
    /\ currentRequestId final = Some requestId) /\
   (forall e,
       let final := snd (chatStream requestId messageBody (FetchRejects e) st) in
       yielded final =
         yielded st ++ (if isAbortError e then [] else [error_chunk (errorText e)])
       /\ currentRequestId final = None)).
Proof.
  split.
  - intros failure sse Hfail. cbv zeta.
    unfold chatStream, bind, modify, now, get, tryCatch.
    cbn [appendSeqno set_appendSeqno]. unfold bidiAppend.
    cbn [wire set_appendSeqno set_lastProgressAt set_heartbeatSinceProgress set_hasProgress
         set_currentRequestId set_currentAppendSeqno set_ticks].
    rewrite Hfail.
    match goal with |- context [onStreamError ?e ?s] =>
      destruct (onStreamError_closes e s) as [Hrid Hy] end.
    rewrite Hy, Hrid. split; reflexivity.
  - intros Hok. cbv zeta.
    assert (forall sse,
      chatStream requestId messageBody sse st =
      tryCatch
        (match sse with
         | FetchRejects e => throw e
         | NotOk status errorText =>
           yield (error_chunk (js "SSE stream failed: " ++ status ++ js " - " ++ errorText))
         | NoBody => yield (error_chunk (js "No response body from SSE stream"))
         | Body reads ending => streamLoop requestId reads ending
         end)
        onStreamError
        (set_currentAppendSeqno 1
           (set_wire (wire st ++ [{| ap_requestId := requestId; append_seqno := 0;
                                     ap_data := messageBody |}])
              (set_appendSeqno 1
                 (set_currentAppendSeqno 0
                    (set_currentRequestId (Some requestId)
                       (set_hasProgress false
                          (set_heartbeatSinceProgress 0
                             (set_lastProgressAt (clock (ticks st))
                                (set_ticks (S (ticks st)) (set_appendSeqno 0 st))))))))))) as Hstart.
    { intros sse. unfold chatStream, bind, modify, now, get, tryCatch.
      cbn [appendSeqno set_appendSeqno]. unfold bidiAppend.
      cbn [wire set_appendSeqno set_lastProgressAt set_heartbeatSinceProgress
           set_hasProgress set_currentRequestId set_currentAppendSeqno set_ticks].
      rewrite Hok. reflexivity. }
    split; [|split].
    + intros status text. rewrite Hstart. unfold tryCatch.
      match goal with |- context [yield ?c ?s] =>
        destruct (yield c s) as [o st'] eqn:E;
        apply yield_fields in E; destruct E as (-> & Hy & _ & Hrid & _)
      end.
      destruct (stops _); cbn [snd]; rewrite Hy, Hrid; split; reflexivity.
    + rewrite Hstart. unfold tryCatch.
      match goal with |- context [yield ?c ?s] =>
        destruct (yield c s) as [o st'] eqn:E;
        apply yield_fields in E; destruct E as (-> & Hy & _ & Hrid & _)
      end.
      destruct (stops _); cbn [snd]; rewrite Hy, Hrid; split; reflexivity.
    + intros e. rewrite Hstart. unfold tryCatch, throw.
      match goal with |- context [onStreamError ?e ?s] =>
        destruct (onStreamError_closes e s) as [Hrid Hy] end.
      rewrite Hy, Hrid. split; reflexivity.
Qed.


Lemma streamLoop_closes (requestId : jsstring) (reads : list (list Frame))
    (ending : StreamEnd) (st : St) :
  currentRequestId (snd (streamLoop requestId reads ending st)) = None.
Proof.
  unfold streamLoop, bind, modify, tryFinally.
  match goal with |- context [let (o, st') := ?m in _] => destruct m as [o st'] end.
  reflexivity.
Qed.

(** X10.  However a stream with a body ends (normally, by an exception, or
    because the consumer stops iterating), the client has no current request
    afterwards. *)
Theorem body_stream_closes_session (requestId : jsstring) (messageBody : bytes)
    (reads : list (list Frame)) (ending : StreamEnd) (st : St) :
  currentRequestId (snd (chatStream requestId messageBody (Body reads ending) st)) = None.
Proof.
  unfold chatStream, bind, modify, now, get, tryCatch.
  cbn [appendSeqno set_appendSeqno]. unfold bidiAppend.
  cbn [wire set_appendSeqno set_lastProgressAt set_heartbeatSinceProgress
       set_hasProgress set_currentRequestId set_currentAppendSeqno set_ticks].
  destruct (appendResponse (length (wire st))).
  - apply onStreamError_closes.
  - match goal with |- context [streamLoop ?r ?rs ?en ?s] =>
      pose proof (streamLoop_closes r rs en s) as Hclosed;
      destruct (streamLoop r rs en s) as [[[]|e|] st']
    end; cbn [snd] in *; try exact Hclosed.
    apply onStreamError_closes.
Qed.

(** A read loop that ends normally has ended the turn, or has just yielded
    [done] at the end of the body. *)
Lemma readsLoop_normal (requestId : jsstring) (reads : list (list Frame))
    (ending : StreamEnd) :
  forall st st',
    readsLoop requestId reads ending st = (Normal tt, st') ->
    turnEnded st' = true \/ (turnEnded st' = false /\ last (yielded st') = Some done).
Proof.
  induction reads as [|frames rest IH]; intros st st'; cbn [readsLoop];
    unfold bind at 1, get; destruct (turnEnded st) eqn:Hended.
  - intros [= <-]. left. exact Hended.
  - destruct ending as [|e]; [|discriminate].
    intros Hyield. apply yield_fields in Hyield.
    destruct Hyield as (_ & Hy & _ & _ & _ & _ & _ & _ & _ & Ht & _).
    right. rewrite Ht, Hy, last_snoc. split; [exact Hended|reflexivity].
  - intros [= <-]. left. exact Hended.
  - unfold bind.
    destruct (framesLoop requestId frames st) as [[[]|e|] st1]; try discriminate.
    apply IH.
Qed.

(** *** The end of the read loop *)

(** X11.  When the reading of a body ends normally, the last chunk yielded
    is [done]. *)
Theorem done_is_last (requestId : jsstring) (reads : list (list Frame))
    (ending : StreamEnd) (st st' : St) :
  streamLoop requestId reads ending st = (Normal tt, st') ->
  last (yielded st') = Some done.
Proof.
  unfold streamLoop, bind at 1 2 3, modify, tryFinally.
  match goal with |- context [let (o, st') := ?m in _] => destruct m as [o st2] eqn:E end.
  intros [= -> <-]. cbn [yielded set_currentRequestId].
  revert E. unfold bind.
  match goal with |- context [readsLoop ?r ?rs ?en ?s] =>
    destruct (readsLoop r rs en s) as [[[]|e|] st1] eqn:Hloop
  end; try discriminate.
  apply readsLoop_normal in Hloop.
  unfold afterLoop, bind, get, when.
  destruct Hloop as [Hended|[Hended Hdone]]; rewrite Hended.
  - match goal with |- context [if ?c then ?m else ret tt] =>
      destruct ((if c then m else ret tt) st1) as [[[]|e|] st3]
    end; try discriminate.
    intros Hyield. apply yield_fields in Hyield. destruct Hyield as (_ & Hy & _).
    rewrite Hy. apply last_snoc.
  - intros [= <-]. exact Hdone.
Qed.


(** X12.  A trailer frame without a [grpc-status:] header, or with
    [grpc-status: 0], is skipped.  A trailer with an error status whose
    message is not valid percent-encoding makes the frame loop throw a
    [URIError] before anything is yielded; in a stream this ends the reading:
    one error chunk is yielded, the frames behind the trailer are not
    handled, and the request is given up. *)
Theorem trailer_edge_cases (requestId : jsstring) (frame : Frame) (rest : list Frame)
    (st : St) :
  isTrailer frame = true ->
  let trailer := decodeText (frameData frame) in
  ((includes (js "grpc-status:") trailer = false \/
    includes (js "grpc-status: 0") trailer = true) ->
   framesLoop requestId (frame :: rest) st = framesLoop requestId rest st) /\
  (includes (js "grpc-status:") trailer = true ->
   includes (js "grpc-status: 0") trailer = false ->
   decodeURIComponent (default (js "Unknown gRPC error") (matchGrpcMessage trailer)) = None ->
   (exists e,
       framesLoop requestId (frame :: rest) st = (Thrown e, st) /\
       err_name e = js "URIError") /\
   (forall messageBody reads ending,
       appendResponse (length (wire st)) = None ->
       let final :=
         snd (chatStream requestId messageBody (Body ((frame :: rest) :: reads) ending) st) in
       (exists message, yielded final = yielded st ++ [error_chunk message]) /\
       currentRequestId final = None)).
Proof.
  intros Htrailer trailer. split.
  - intros Hquiet. rewrite framesLoop_trailer by exact Htrailer.
    unfold onTrailer, bind. fold trailer.
    destruct Hquiet as [-> | ->]; [reflexivity|].
    rewrite andb_false_r. reflexivity.
  - intros Hstatus Hok Hbad.
    assert (forall st0, framesLoop requestId (frame :: rest) st0
                        = (Thrown (URIError "URI malformed"), st0)) as Hthrown.
    { intros st0. rewrite framesLoop_trailer by exact Htrailer.
      unfold onTrailer, bind. fold trailer. rewrite Hstatus, Hok, Hbad. reflexivity. }
    split; [eexists; split; [apply Hthrown|reflexivity]|].
    intros messageBody reads ending Happend. cbv zeta.
    assert (chatStream requestId messageBody (Body ((frame :: rest) :: reads) ending) st
            = onStreamError (URIError "URI malformed")
                (set_currentRequestId None (streamStart requestId messageBody st))) as ->.
    { rewrite chatStream_Body by exact Happend.
      unfold tryCatch, tryFinally. cbn [readsLoop]. unfold bind, get.
      cbn [turnEnded streamStart set_pendingAssistantBlobs set_hasStreamedText set_turnEnded].
      rewrite Hthrown. reflexivity. }
    match goal with |- context [onStreamError ?e ?s] =>
      destruct (onStreamError_closes e s) as [Hrid Hy] end.
    rewrite Hy, Hrid. split; [|reflexivity].
    eexists. cbn [isAbortError]. reflexivity.
Qed.



Lemma fold_deltaField_flags (fields : list ProtoField) (p : ParsedInteractionUpdate) :
  isComplete (List.fold_left deltaField fields p) = isComplete p /\
  isHeartbeat (List.fold_left deltaField fields p) = isHeartbeat p.
Proof.
  revert p. induction fields as [|f fields IH]; intros p; cbn [List.fold_left]; [auto|].
  destruct (IH (deltaField p f)) as [-> ->].
  unfold deltaField. destruct (lenField 1 f); auto.
Qed.

Lemma interactionField_flags (p p' : ParsedInteractionUpdate) (f : ProtoField) :
  interactionField p f = Ok p' ->
  isComplete p' = isComplete p || (fieldNumber f =? 14) /\
  isHeartbeat p' = isHeartbeat p || (fieldNumber f =? 13).
Proof.
  unfold interactionField.
  destruct (lenField 1 f) eqn:E1.
  { apply lenField_number in E1. rewrite E1.
    destruct (parseProtoFields b) as [inner|]; cbn [Result_bind]; [|discriminate].
    intros [= <-]. destruct (fold_deltaField_flags inner p) as [-> ->].
    rewrite !orb_false_r. auto. }
  destruct (lenField 2 f) eqn:E2.
  { apply lenField_number in E2. rewrite E2.
    destruct (parseToolCallStartedUpdate b); cbn [Result_bind]; [|discriminate].
    intros [= <-]. rewrite !orb_false_r. destruct (toolCallInfo _); auto. }
  destruct (lenField 3 f) eqn:E3.
  { apply lenField_number in E3. rewrite E3.
    destruct (parseToolCallStartedUpdate b); cbn [Result_bind]; [|discriminate].
    intros [= <-]. rewrite !orb_false_r. destruct (toolCallInfo _); auto. }
  destruct (lenField 7 f) eqn:E7.
  { apply lenField_number in E7. rewrite E7.
    destruct (parsePartialToolCallUpdate b); cbn [Result_bind]; [|discriminate].
    intros [= <-]. rewrite !orb_false_r. auto. }
  destruct (lenField 8 f) eqn:E8.
  { apply lenField_number in E8. rewrite E8.
    destruct (parseProtoFields b) as [inner|]; cbn [Result_bind]; [|discriminate].
    intros [= <-]. destruct (fold_deltaField_flags inner p) as [-> ->].
    rewrite !orb_false_r. auto. }
  destruct (Z.eqb_spec (fieldNumber f) 14) as [E14|N14].
  { intros [= <-]. rewrite E14. cbn. rewrite orb_true_r, orb_false_r. auto. }
  destruct (Z.eqb_spec (fieldNumber f) 13) as [E13|N13]; intros [= <-]; cbn;
    rewrite ?orb_true_r, ?orb_false_r; auto.
Qed.

(** X13.  An interaction update is complete exactly when one of its
    fields has the number 14, and a heartbeat exactly when one has the number
    13, whatever the wire types and the other fields. *)
Theorem turn_end_and_heartbeat_flags (data : bytes) (fields : list ProtoField)
    (parsed : ParsedInteractionUpdate) :
  parseProtoFields data = Ok fields ->
  parseInteractionUpdate data = Ok parsed ->
  isComplete parsed = existsb (fun f => fieldNumber f =? 14) fields /\
  isHeartbeat parsed = existsb (fun f => fieldNumber f =? 13) fields.
Proof.
  intros Hfields. unfold parseInteractionUpdate. rewrite Hfields. cbn [Result_bind].
  assert (forall l p p', Result_foldM interactionField l p = Ok p' ->
            isComplete p' = isComplete p || existsb (fun f => fieldNumber f =? 14) l /\
            isHeartbeat p' = isHeartbeat p || existsb (fun f => fieldNumber f =? 13) l) as Hfold.
  { induction l as [|f l IH]; intros p p'; cbn [Result_foldM existsb].
    - intros [= <-]. rewrite !orb_false_r. auto.
    - destruct (interactionField p f) as [p1|e] eqn:E; cbn [Result_bind]; [|discriminate].
      intros Hrest. apply IH in Hrest. apply interactionField_flags in E.
      destruct Hrest as [-> ->], E as [-> ->]. rewrite !orb_assoc. auto. }
  intros Hparsed. apply Hfold in Hparsed. exact Hparsed.
Qed.

End ClientFacts.

(** ** Session utilities and the tool bridge, continued *)

Section SessionIdSearch.
Import SessionReuse SessionTools.

Lemma stripPrefix_Some (p s r : jsstring) : stripPrefix p s = Some r -> s = p ++ r.
Proof.
  revert s. induction p as [|c p IH]; intros s; cbn [stripPrefix].
  - destruct s; intros [= <-]; reflexivity.
  - destruct s as [|d s]; [discriminate|].
    destruct (Z.eqb_spec c d) as [->|]; [|discriminate].
    intros Hs. apply IH in Hs. subst s. reflexivity.
Qed.

Lemma startsWith_true (p s : jsstring) : startsWith p s = true -> exists r, s = p ++ r.
Proof.
  revert s. induction p as [|c p IH]; intros s; cbn [startsWith].
  - intros _. exists s. reflexivity.
  - destruct s as [|d s]; [discriminate|].
    destruct (Z.eqb_spec c d) as [->|]; [|discriminate]. cbn [andb].
    intros Hs. apply IH in Hs. destruct Hs as [r ->]. exists r. reflexivity.
Qed.

Lemma alnumPlusThen_sound (lit s group : jsstring) :
  alnumPlusThen lit s = Some group ->
  group <> [] /\ Forall (fun c => isAlnum c = true) group /\
  exists rest, s = group ++ lit ++ rest.
Proof.
  revert group. induction s as [|c s IH]; intros group; [discriminate|].
  rewrite alnumPlusThen_cons. destruct (isAlnum c) eqn:Hc; [|discriminate].
  destruct (alnumPlusThen lit s) as [g|].
  - intros [= <-]. destruct (IH g eq_refl) as (_ & Hall & rest & ->).
    split; [discriminate|]. split; [constructor; assumption|]. exists rest. reflexivity.
  - destruct (startsWith lit s) eqn:Hlit; [|discriminate].
    intros [= <-]. apply startsWith_true in Hlit. destruct Hlit as [rest ->].
    split; [discriminate|]. split; [repeat constructor; assumption|].
    exists rest. reflexivity.
Qed.

Lemma parse_was_made (toolCallId : option jsstring) (sid : jsstring) :
  parseSessionIdFromToolCallId toolCallId = Some sid ->
  sid <> [] /\ Forall (fun c => isAlnum c = true) sid /\
  exists base, toolCallId = Some (makeToolCallId sid base).
Proof.
  unfold parseSessionIdFromToolCallId, makeToolCallId.
  destruct toolCallId as [[|c s]|]; try discriminate.
  destruct (stripPrefix (js "sess_") (c :: s)) as [rest|] eqn:Hprefix; [|discriminate].
  apply stripPrefix_Some in Hprefix. rewrite Hprefix.
  intros Hgroup. apply alnumPlusThen_sound in Hgroup.
  destruct Hgroup as (Hne & Hall & base & ->).
  split; [exact Hne|]. split; [exact Hall|]. exists base. reflexivity.
Qed.

Lemma findSessionIdInToolCalls_sound (tcs : list OpenAIToolCallLite) (sid : jsstring) :
  findSessionIdInToolCalls tcs = Some sid ->
  exists tc, In tc tcs /\ parseSessionIdFromToolCallId (tc_id tc) = Some sid.
Proof.
  unfold findSessionIdInToolCalls.
  assert (forall acc,
            List.fold_left
              (fun found tc =>
                 match found with
                 | Some _ => found
                 | None =>
                   match parseSessionIdFromToolCallId (tc_id tc) with
                   | Some (c :: sid) => Some (c :: sid)
                   | _ => None
                   end
                 end) tcs acc = Some sid ->
            acc = Some sid \/
            exists tc, In tc tcs /\ parseSessionIdFromToolCallId (tc_id tc) = Some sid) as Hfold.
  { induction tcs as [|tc tcs IH]; intros acc; cbn [List.fold_left]; [auto|].
    intros Hrest. apply IH in Hrest. destruct Hrest as [Hacc|(tc' & Hin & Hparse)].
    - destruct acc as [found|]; [left; exact Hacc|].
      right. exists tc. split; [left; reflexivity|].
      destruct (parseSessionIdFromToolCallId (tc_id tc)) as [[|c s]|]; congruence.
    - right. exists tc'. split; [right; exact Hin|exact Hparse]. }
  intros Hfound. apply Hfold in Hfound. destruct Hfound as [|Hfound]; [discriminate|exact Hfound].
Qed.

Lemma findSessionIdIn_sound (rmessages : list OpenAIMessageLite) (sid : jsstring) :
  findSessionIdIn rmessages = Some sid ->
  exists m,
    In m rmessages /\
    ((role m = RoleTool /\ parseSessionIdFromToolCallId (tool_call_id m) = Some sid) \/
     (role m = RoleAssistant /\
      exists tcs tc, tool_calls m = Some tcs /\ In tc tcs /\
                     parseSessionIdFromToolCallId (tc_id tc) = Some sid)).
Proof.
  induction rmessages as [|m older IH]; cbn [findSessionIdIn]; [discriminate|].
  assert (match
            match isRoleAssistant (role m), tool_calls m with
            | true, Some tcs => findSessionIdInToolCalls tcs
            | _, _ => None
            end
          with
          | Some sid0 => Some sid0
          | None => findSessionIdIn older
          end = Some sid ->
          exists m0,
            In m0 (m :: older) /\
            ((role m0 = RoleTool /\
              parseSessionIdFromToolCallId (tool_call_id m0) = Some sid) \/
             (role m0 = RoleAssistant /\
              exists tcs tc, tool_calls m0 = Some tcs /\ In tc tcs /\
                             parseSessionIdFromToolCallId (tc_id tc) = Some sid))) as Hcalls.
  { destruct (isRoleAssistant (role m)) eqn:Hrole; [destruct (tool_calls m) as [tcs|] eqn:Htcs|].
    - destruct (findSessionIdInToolCalls tcs) as [found|] eqn:Hfound.
      + intros [= ->]. apply findSessionIdInToolCalls_sound in Hfound.
        destruct Hfound as (tc & Hin & Hparse).
        exists m. split; [left; reflexivity|]. right.
        split; [destruct (role m); try discriminate; reflexivity|].
        exists tcs, tc. auto.
      + intros Holder. apply IH in Holder. destruct Holder as (m0 & Hin & Hm0).
        exists m0. split; [right; exact Hin|exact Hm0].
    - intros Holder. apply IH in Holder. destruct Holder as (m0 & Hin & Hm0).
      exists m0. split; [right; exact Hin|exact Hm0].
    - intros Holder. apply IH in Holder. destruct Holder as (m0 & Hin & Hm0).
      exists m0. split; [right; exact Hin|exact Hm0]. }
  destruct (isRoleTool (role m) && truthyString (tool_call_id m)) eqn:Htool;
    [|exact Hcalls].
  destruct (parseSessionIdFromToolCallId (tool_call_id m)) as [[|c s]|] eqn:Hparse;
    [exact Hcalls| |exact Hcalls].
  intros [= <-]. exists m. split; [left; reflexivity|]. left.
  apply andb_prop in Htool. destruct Htool as [Hrole _].
  split; [destruct (role m); try discriminate; reflexivity|exact Hparse].
Qed.

(** X15.  Every session id that is found was made by [makeToolCallId]: when
    [parseSessionIdFromToolCallId] returns a session id, the id is a
    non-empty alphanumeric string and the tool call id is the one made from
    it and some call base; and when [findSessionIdInMessages] returns a
    session id, some message of the conversation carries such a tool call
    id, as a tool message or in a tool call of an assistant message. *)
Theorem session_ids_found_were_made :
  (forall toolCallId sid,
      parseSessionIdFromToolCallId toolCallId = Some sid ->
      sid <> [] /\ Forall (fun c => isAlnum c = true) sid /\
      exists base, toolCallId = Some (makeToolCallId sid base)) /\
  (forall messages sid,
      findSessionIdInMessages messages = Some sid ->
      sid <> [] /\ Forall (fun c => isAlnum c = true) sid /\
      exists m base,
        In m messages /\
        ((role m = RoleTool /\ tool_call_id m = Some (makeToolCallId sid base)) \/
         (role m = RoleAssistant /\
          exists tcs tc, tool_calls m = Some tcs /\ In tc tcs /\
                         tc_id tc = Some (makeToolCallId sid base)))).
Proof.
  split; [exact parse_was_made|].
  intros messages sid Hfound. unfold findSessionIdInMessages in Hfound.
  apply findSessionIdIn_sound in Hfound. destruct Hfound as (m & Hin & Hm).
  apply in_rev in Hin.
  destruct Hm as [[Hrole Hparse]|(Hrole & tcs & tc & Htcs & Htc & Hparse)];
    apply parse_was_made in Hparse; destruct Hparse as (Hne & Hall & base & Hid).
  - split; [exact Hne|]. split; [exact Hall|]. exists m, base. split; [exact Hin|].
    left. auto.
  - split; [exact Hne|]. split; [exact Hall|]. exists m, base. split; [exact Hin|].
    right. split; [exact Hrole|]. exists tcs, tc. auto.
Qed.

Lemma session_ids_found_were_made_witness :
  exists base, Some (js "sess_ab12__call_r1") = Some (makeToolCallId (js "ab12") base).
Proof.
  exact (proj2 (proj2 (proj1 session_ids_found_were_made
                         (Some (js "sess_ab12__call_r1")) (js "ab12") eq_refl))).
Defined.

(** X16.  When the last message of a conversation is a tool message whose
    tool call id was made by [makeToolCallId] from a non-empty alphanumeric
    session id, [findSessionIdInMessages] returns that session id, whatever
    the earlier messages carry. *)
Theorem findSessionId_latest_tool_message (messages : list OpenAIMessageLite)
    (m : OpenAIMessageLite) (sid base : jsstring) :
  role m = RoleTool ->
  tool_call_id m = Some (makeToolCallId sid base) ->
  sid <> [] ->
  Forall (fun c => isAlnum c = true) sid ->
  findSessionIdInMessages (messages ++ [m]) = Some sid.
Proof.
  intros Hrole Hid Hne Hall.
  assert (parseSessionIdFromToolCallId (Some (makeToolCallId sid base)) = Some sid) as Hparse.
  { unfold parseSessionIdFromToolCallId, makeToolCallId.
    change (js "sess_" ++ sid ++ js "__call_" ++ base)
      with (115 :: (js "ess_" ++ sid ++ js "__call_" ++ base)).
    cbv iota beta.
    change (115 :: (js "ess_" ++ sid ++ js "__call_" ++ base))
      with (js "sess_" ++ (sid ++ js "__call_" ++ base)).
    rewrite stripPrefix_app.
    change (js "__call_") with (95 :: js "_call_").
    apply alnumPlusThen_run; [reflexivity | assumption | assumption]. }
  unfold findSessionIdInMessages. rewrite rev_app_distr. cbn [rev app findSessionIdIn].
  rewrite Hrole, Hid. cbn [isRoleTool andb].
  change (truthyString (Some (makeToolCallId sid base))) with true. cbv iota.
  rewrite Hparse. destruct sid; [congruence|reflexivity].
Qed.

Lemma findSessionId_latest_tool_message_witness :
  findSessionIdInMessages
    ([{| role := RoleUser; content := Some (JString (js "hi"));
         tool_calls := None; tool_call_id := None |}]
     ++ [plainMessage])
  = Some (js "ab12").
Proof.
  refine (findSessionId_latest_tool_message _ plainMessage (js "ab12") (js "r1")
            eq_refl eq_refl _ _).
  - discriminate.
  - repeat constructor.
Defined.

End SessionIdSearch.

Section BridgeOutcomes.
Import SessionReuse SessionTools.
Context {host : Host} {bridge : BridgeEnv}.

Lemma loop_unknown (toolMessages : list OpenAIMessageLite) (run : BridgeRun) :
  (forall m key, In m toolMessages -> tool_call_id m = Some key ->
                 pendingExecs (session run) !! key = None) ->
  sendToolResults_loop toolMessages run = inr run.
Proof.
  induction toolMessages as [|m later IH]; intros Hunknown; cbn [sendToolResults_loop];
    [reflexivity|].
  destruct (tool_call_id m) as [[|c key]|] eqn:Hid.
  - apply IH. intros m' key' Hin. apply Hunknown. right. exact Hin.
  - pose proof (Hunknown m (c :: key) (or_introl eq_refl) Hid) as Hnone.
    match goal with |- match ?found with _ => _ end = _ =>
      destruct found as [execReq|] eqn:Hsome end;
      [discriminate Hnone|].
    apply IH. intros m' key' Hin. apply Hunknown. right. exact Hin.
  - apply IH. intros m' key' Hin. apply Hunknown. right. exact Hin.
Qed.

(** X17.  Tool results none of which belongs to a pending exec request are
    ignored: the bridge makes no call on the client, returns [false] and
    leaves the session as it is. *)
Theorem unknown_tool_results_ignored (session0 : SessionLike)
    (toolMessages : list OpenAIMessageLite) :
  (forall m key, In m toolMessages -> tool_call_id m = Some key ->
                 pendingExecs session0 !! key = None) ->
  sendToolResultsToCursor session0 toolMessages
  = (false, {| session := session0; calls := []; processedAny := false |}).
Proof.
  intros Hunknown. unfold sendToolResultsToCursor.
  rewrite loop_unknown by exact Hunknown. reflexivity.
Qed.

Lemma loop_keeps (toolMessages : list OpenAIMessageLite) :
  forall run,
    match sendToolResults_loop toolMessages run with
    | inl (b, run') => b = false /\ keptByLoop run run'
    | inr run' => keptByLoop run run'
    end.
Proof.
  assert (forall run, keptByLoop run run) as Hrefl.
  { intros run. repeat split; auto. exists []. rewrite app_nil_r. auto. }
  induction toolMessages as [|m later IH]; intros run; cbn [sendToolResults_loop].
  - apply Hrefl.
  - destruct (tool_call_id m) as [[|c key]|]; try apply IH.
    match goal with |- match match ?found with _ => _ end with _ => _ end =>
      destruct found as [execReq|] end; [|apply IH].
    destruct (toolResultCall execReq (extractMessageContent m)) as [call|];
      [|split; [reflexivity|apply Hrefl]].
    destruct (clientResolves call).
    + match goal with |- context [sendToolResults_loop later ?r] =>
        specialize (IH r); destruct (sendToolResults_loop later r) as [[b run']|run']
      end.
      1: destruct IH as [Hb IH]; split; [exact Hb|].
      all: destruct IH as (Hsub & Hid & Hcreated & Hlast & Hstate & more & Hcalls & Hany);
        cbn [session pendingExecs SessionReuse.id createdAt lastActivity state
             calls processedAny] in *;
        repeat split; try assumption;
        [ etransitivity; [exact Hsub|apply delete_subseteq]
        | exists (call :: more); split;
          [ rewrite Hcalls, <- app_assoc; reflexivity
          | intros _; right; discriminate ] ].
    + split; [reflexivity|]. repeat split; auto. exists [call]. split; [reflexivity|].
      intros _. right. discriminate.
Qed.

(** X18.  Whatever the tool messages, the bridge only takes pending
    requests away and keeps the id and the creation time of the session.
    When it returns [true] it has made at least one call on the client, the
    session is [running] and its last activity is now; when it returns
    [false], also after some results have been sent, the state and the last
    activity are as before. *)
Theorem sendToolResults_outcome (session0 : SessionLike)
    (toolMessages : list OpenAIMessageLite) :
  let result := sendToolResultsToCursor session0 toolMessages in
  let session' := session (snd result) in
  pendingExecs session' ⊆ pendingExecs session0 /\
  SessionReuse.id session' = SessionReuse.id session0 /\
  createdAt session' = createdAt session0 /\
  (fst result = true ->
   state session' = running /\ lastActivity session' = Date_now /\
   calls (snd result) <> []) /\
  (fst result = false ->
   state session' = state session0 /\ lastActivity session' = lastActivity session0).
Proof.
  cbv zeta. unfold sendToolResultsToCursor.
  pose proof (loop_keeps toolMessages
                {| session := session0; calls := []; processedAny := false |}) as Hkept.
  destruct (sendToolResults_loop toolMessages _) as [[b run']|run'].
  - destruct Hkept as (-> & Hsub & Hid & Hcreated & Hlast & Hstate & more & Hcalls & Hany).
    cbn [fst snd session pendingExecs] in *.
    repeat split; try assumption; discriminate.
  - destruct Hkept as (Hsub & Hid & Hcreated & Hlast & Hstate & more & Hcalls & Hany).
    cbn [fst snd session pendingExecs calls processedAny] in *.
    destruct (processedAny run') eqn:Hp;
      cbn [fst snd session pendingExecs SessionReuse.id createdAt lastActivity state calls];
      repeat split; try assumption; try discriminate.
    intros Hnil. destruct (Hany eq_refl) as [|Hmore]; [discriminate|].
    rewrite Hcalls in Hnil. apply Hmore. exact Hnil.
Qed.

(** X19.  The bridge stops at the first result it cannot deliver.  When the
    call on the client for the first tool message rejects, the bridge returns
    [false], the request stays pending and the later messages are not looked
    at; the same holds, without any call, when the pending request is of a
    type the bridge does not answer. *)
Theorem failed_result_stops_the_bridge (session0 : SessionLike) (message : OpenAIMessageLite)
    (later : list OpenAIMessageLite) (key : jsstring) (execReq : ExecRequest) :
  tool_call_id message = Some key ->
  key <> [] ->
  pendingExecs session0 !! key = Some execReq ->
  (forall call,
      toolResultCall execReq (extractMessageContent message) = Some call ->
      clientResolves call = false ->
      sendToolResultsToCursor session0 (message :: later)
      = (false, {| session := session0; calls := [call]; processedAny := false |})) /\
  (toolResultCall execReq (extractMessageContent message) = None ->
   sendToolResultsToCursor session0 (message :: later)
   = (false, {| session := session0; calls := []; processedAny := false |})).
Proof.
  intros Hid Hne Hpending. unfold sendToolResultsToCursor.
  cbn [sendToolResults_loop session calls]. rewrite Hid.
  destruct key as [|k key]; [congruence|]. rewrite Hpending.
  split.
  - intros call -> ->. reflexivity.
  - intros ->. reflexivity.
Qed.

(** X20.  The exec requests that [mapExecRequestToTool] offers as a tool
    are the ones whose result the bridge can send back: a request has no
    tool name exactly when [sendToolResultsToCursor] has no call for it. *)
Theorem offered_tools_are_answered (execReq : ExecRequest) (content : jsstring) :
  fst (mapExecRequestToTool execReq) = None <-> toolResultCall execReq content = None.
Proof.
  destruct execReq; cbn [mapExecRequestToTool toolResultCall fst];
    try (split; discriminate); try (split; reflexivity).
  - destruct (truthyString glob); cbn [fst]; split; discriminate.
  - destruct (asString _) as [[|]|]; split; discriminate.
Qed.

End BridgeOutcomes.

Section SessionToolFacts.
Import SessionReuse SessionTools.

Lemma take_filter_shape (n : nat) (raw : jsstring) :
  Forall (fun c => isAlnum c = true) (take n (List.filter isAlnum raw)) /\
  (length (take n (List.filter isAlnum raw)) <= n)%nat.
Proof.
  split.
  - apply Forall_take. apply Forall_forall. intros c Hc.
    apply list_elem_of_In, filter_In in Hc. apply Hc.
  - rewrite length_take. lia.
Qed.

(** X21.  The call base selected for an exec request is the fallback made
    from a fresh UUID, or else a non-empty string of at most 32 letters and
    digits. *)
Theorem selectCallBase_shape `{Host} (uuid : jsstring) (execReq : ExecRequest) :
  let base := selectCallBase uuid execReq in
  base = take 12 (List.filter (fun c => negb (c =? 45)) uuid) \/
  (base <> [] /\ Forall (fun c => isAlnum c = true) base /\ (length base <= 32)%nat).
Proof.
  cbv zeta. unfold selectCallBase.
  match goal with |- context [take 32 (List.filter isAlnum ?raw)] =>
    pose proof (take_filter_shape 32 raw) as [Hall Hlen];
    destruct (take 32 (List.filter isAlnum raw)) as [|c base] eqn:E
  end.
  - left. reflexivity.
  - right. split; [discriminate|]. split; assumption.
Qed.

Lemma filter_twice {A} (f g : A -> bool) (l : list A) :
  List.filter f (List.filter g l) = List.filter (fun x => g x && f x) l.
Proof.
  induction l as [|x l IH]; [reflexivity|]. cbn [List.filter].
  destruct (g x); cbn [List.filter andb]; [destruct (f x)|]; rewrite IH; reflexivity.
Qed.

Lemma cleanupLoop_filter (timeoutMs now : Z) (entries : SessionMap) :
  forall (sessionMap : SessionMap) (returned : list jsstring),
    cleanupLoop entries timeoutMs now sessionMap returned =
    (List.filter
       (fun kv => negb (existsb (fun e => sessionExpired timeoutMs now e
                                          && jsstring_eqb (fst kv) (fst e)) entries))
       sessionMap,
     returned ++ List.map fst (List.filter (fun e => sessionExpired timeoutMs now e
                                                     && es_hasReturn (snd e)) entries)).
Proof.
  induction entries as [|[k s] later IH]; intros sessionMap returned; cbn [cleanupLoop].
  - cbn [existsb negb List.filter List.map]. rewrite app_nil_r. f_equal.
    induction sessionMap as [|x l IHl]; [reflexivity|]. cbn [List.filter]. f_equal. exact IHl.
  - cbn [existsb List.filter fst snd].
    change (timeoutMs <? now - es_lastActivity s) with (sessionExpired timeoutMs now (k, s)).
    destruct (sessionExpired timeoutMs now (k, s)); cbn [andb].
    + rewrite IH. unfold mapDelete. rewrite filter_twice. f_equal.
      * apply filter_ext. intros kv. destruct (jsstring_eqb (fst kv) k); reflexivity.
      * destruct (es_hasReturn s); cbn [List.map fst snd]; [rewrite <- app_assoc|];
          reflexivity.
    + rewrite IH. reflexivity.
Qed.

Lemma unique_key (sessionMap : SessionMap) (a b : jsstring * ExpiringSession) :
  List.NoDup (List.map fst sessionMap) -> In a sessionMap -> In b sessionMap ->
  fst a = fst b -> a = b.
Proof.
  induction sessionMap as [|x l IH]; cbn [List.map In]; intros Hnd Ha Hb Hkey; [tauto|].
  apply NoDup_cons_iff in Hnd. destruct Hnd as [Hfresh Hnd].
  destruct Ha as [->|Ha], Hb as [->|Hb].
  - reflexivity.
  - exfalso. apply Hfresh. rewrite Hkey. apply in_map. exact Hb.
  - exfalso. apply Hfresh. rewrite <- Hkey. apply in_map. exact Ha.
  - apply IH; assumption.
Qed.

(** X22.  For a map with one entry per session id, [cleanupExpiredSessions]
    leaves exactly the sessions whose last activity is at most [timeoutMs]
    back, in their order and unchanged, and has returned the iterator of
    every other session that has one; a rejecting [return] does not keep a
    session in the map. *)
Theorem cleanupExpiredSessions_removes_the_expired (sessionMap : SessionMap)
    (timeoutMs now : Z) :
  List.NoDup (List.map fst sessionMap) ->
  cleanupExpiredSessions sessionMap timeoutMs now =
  (List.filter (fun kv => negb (timeoutMs <? now - es_lastActivity (snd kv))) sessionMap,
   List.map fst
     (List.filter (fun kv => (timeoutMs <? now - es_lastActivity (snd kv))
                             && es_hasReturn (snd kv)) sessionMap)).
Proof.
  intros Hnd. unfold cleanupExpiredSessions. rewrite cleanupLoop_filter.
  cbn [app]. f_equal. apply filter_ext_in. intros kv Hkv. f_equal.
  destruct (sessionExpired timeoutMs now kv) eqn:Hexp; unfold sessionExpired in Hexp; rewrite Hexp.
  - apply existsb_exists. exists kv. split; [exact Hkv|].
    unfold sessionExpired. rewrite Hexp. unfold jsstring_eqb. rewrite bool_decide_eq_true_2; reflexivity.
  - destruct (existsb _ sessionMap) eqn:Hex; [|reflexivity].
    apply existsb_exists in Hex. destruct Hex as (e & He & Hboth).
    apply andb_prop in Hboth. destruct Hboth as [Hee Hkey].
    unfold jsstring_eqb in Hkey. apply bool_decide_eq_true_1 in Hkey.
    assert (kv = e) as -> by (apply (unique_key sessionMap); assumption).
    unfold sessionExpired in Hee. congruence.
Qed.

Lemma cleanupExpiredSessions_removes_the_expired_witness :
  cleanupExpiredSessions
    [(js "a", {| es_lastActivity := 0; es_hasReturn := true; es_returnRejects := true |});
     (js "b", {| es_lastActivity := 900; es_hasReturn := true; es_returnRejects := false |})]
    500 1000
  = ([(js "b", {| es_lastActivity := 900; es_hasReturn := true; es_returnRejects := false |})],
     [js "a"]).
Proof.
  refine (cleanupExpiredSessions_removes_the_expired _ 500 1000 _).
  cbn. constructor; [intros [H|[]]; discriminate H|].
  constructor; [intros []|constructor].
Defined.

End SessionToolFacts.

(** ** The stored credential and the token payload *)

Section SplitFacts.

Lemma split_without (sep : Z) (a : jsstring) :
  Forall (fun c => c <> sep) a -> split sep a = [a].
Proof.
  induction 1 as [|c a Hc Ha IH]; [reflexivity|]. cbn [split].
  destruct (Z.eqb_spec c sep); [contradiction|]. rewrite IH. reflexivity.
Qed.

Lemma split_at (sep : Z) (a b : jsstring) :
  Forall (fun c => c <> sep) a -> split sep (a ++ sep :: b) = a :: split sep b.
Proof.
  induction 1 as [|c a Hc Ha IH]; cbn [app split].
  - rewrite Z.eqb_refl. reflexivity.
  - destruct (Z.eqb_spec c sep); [contradiction|]. rewrite IH. reflexivity.
Qed.

Lemma split_segments (sep : Z) (s : jsstring) :
  Forall (Forall (fun c => c <> sep)) (split sep s).
Proof.
  induction s as [|c s IH]; cbn [split]; [repeat constructor|].
  destruct (Z.eqb_spec c sep) as [|Hc]; [constructor; [constructor|exact IH]|].
  destruct (split sep s) as [|seg segs]; [repeat constructor; assumption|].
  inversion IH; subst. constructor; [constructor; assumption|assumption].
Qed.

End SplitFacts.

Section RefreshFacts.
Import Plugin PluginAuth.

Lemma parse_of_format (refreshToken : jsstring) (apiKey : option jsstring) :
  Forall (fun c => c <> 124) refreshToken ->
  (forall k, apiKey = Some k -> Forall (fun c => c <> 124) k) ->
  parseRefreshParts (formatRefreshParts refreshToken apiKey)
  = (refreshToken, match apiKey with Some (c :: k) => Some (c :: k) | _ => None end).
Proof.
  intros Hrt Hkey. unfold parseRefreshParts, formatRefreshParts.
  destruct apiKey as [[|c k]|].
  - rewrite split_without by exact Hrt. reflexivity.
  - change (refreshToken ++ js "|" ++ c :: k) with (refreshToken ++ 124 :: (c :: k)).
    rewrite split_at by exact Hrt.
    rewrite split_without by (apply Hkey; reflexivity). reflexivity.
  - rewrite split_without by exact Hrt. reflexivity.
Qed.

(** X23.  [parseRefreshParts] inverts [formatRefreshParts]: for a refresh
    token and an API key without the separator [|], the stored value parses
    back into the refresh token and the API key, an empty or missing key as
    no key. *)
Theorem refresh_parts_round_trip (refreshToken : jsstring) (apiKey : option jsstring) :
  Forall (fun c => c <> 124) refreshToken ->
  (forall k, apiKey = Some k -> Forall (fun c => c <> 124) k) ->
  parseRefreshParts (formatRefreshParts refreshToken apiKey)
  = (refreshToken, match apiKey with Some (c :: k) => Some (c :: k) | _ => None end).
Proof. apply parse_of_format. Qed.

Lemma refresh_parts_round_trip_witness :
  parseRefreshParts (formatRefreshParts (js "r1") (Some (js "key")))
  = (js "r1", Some (js "key")).
Proof.
  refine (refresh_parts_round_trip (js "r1") (Some (js "key")) _ _).
  - repeat constructor; discriminate.
  - intros k [= <-]. repeat constructor; discriminate.
Defined.

Lemma parseRefreshParts_shape (refresh : jsstring) :
  Forall (fun c => c <> 124) (fst (parseRefreshParts refresh)) /\
  match snd (parseRefreshParts refresh) with
  | Some [] => False
  | Some k => Forall (fun c => c <> 124) k
  | None => True
  end.
Proof.
  unfold parseRefreshParts. pose proof (split_segments 124 refresh) as Hsegs.
  destruct (split 124 refresh) as [|r [|k rest]]; cbn [fst snd].
  - split; constructor.
  - inversion Hsegs; subst. split; [assumption|exact I].
  - inversion Hsegs as [|? ? Hr Hrest]; subst. inversion Hrest; subst.
    split; [assumption|]. destruct k; [exact I|assumption].
Qed.

Context {host : Host} {buffer : BufferHost} {env : RefreshEnv}.

(** X24.  A refresh without a refresh token in the stored value gives
    nothing.  When a refresh gives an updated credential, the endpoint has
    answered with a token pair; the credential carries the new access token
    and is the one handed on to be stored; its stored value parses into the
    new refresh token (if that has no [|]) and the API key of the old
    credential; and with a non-empty access token without an [exp] claim it is
    not expired at any time up to 59 minutes from now. *)
Theorem refreshed_credential (auth : OAuthAuthDetails) :
  (fst (parseRefreshParts (refresh auth)) = [] ->
   refreshCursorAccessToken auth = (None, [])) /\
  (forall updated persisted,
      refreshCursorAccessToken auth = (Some updated, persisted) ->
      exists accessToken newRefreshToken,
        refreshAccessToken (fst (parseRefreshParts (refresh auth)))
          = Ok (Some (accessToken, newRefreshToken)) /\
        access updated = Some accessToken /\
        persisted = [updated] /\
        (Forall (fun c => c <> 124) newRefreshToken ->
         parseRefreshParts (refresh updated)
         = (newRefreshToken, snd (parseRefreshParts (refresh auth)))) /\
        (accessToken <> [] -> Jwt.expOf accessToken = None ->
         forall t, t + 60 * 1000 < Date_now + 3600 * 1000 ->
                   accessTokenExpired updated t = false)).
Proof.
  split.
  - intros Hempty. unfold refreshCursorAccessToken. rewrite Hempty. reflexivity.
  - intros updated persisted. unfold refreshCursorAccessToken.
    destruct (parseRefreshParts_shape (refresh auth)) as [_ Hkey].
    destruct (fst (parseRefreshParts (refresh auth))) as [|c rt]; [discriminate|].
    destruct (refreshAccessToken (c :: rt)) as [[[accessToken newRefreshToken]|]|];
      try discriminate.
    intros [= <- <-]. exists accessToken, newRefreshToken.
    split; [reflexivity|]. split; [reflexivity|]. split; [reflexivity|]. split.
    + intros Hnew. cbn [refresh]. rewrite parse_of_format.
      * f_equal. destruct (snd (parseRefreshParts (refresh auth))) as [[|]|];
          [contradiction|reflexivity|reflexivity].
      * exact Hnew.
      * intros k Hk. rewrite Hk in Hkey. destruct k; [contradiction|exact Hkey].
    + intros Hne Hexp t Ht. unfold accessTokenExpired, expiryOf.
      cbn [access expires]. rewrite Hexp.
      destruct accessToken; [congruence|]. cbn [truthyString isNumber negb orb].
      apply Z.leb_gt. lia.
Qed.

End RefreshFacts.

Section JwtFacts.
Import Jwt.
Context {host : Host} {buffer : BufferHost}.

(** X25.  A token that does not consist of three parts separated by two
    dots has no payload, whatever the decoders: it is expired, it is expiring
    soon for every threshold, and its remaining time is -1. *)
Theorem malformed_token_counts_as_expired (token : jsstring) (thresholdSeconds now : Z) :
  length (List.filter (fun c => c =? 46) token) <> 2%nat ->
  decodeJwtPayload token = None /\
  isTokenExpired token now = true /\
  isTokenExpiringSoon token thresholdSeconds now = true /\
  getTokenTimeRemaining token now = -1.
Proof.
  intros Hdots.
  assert (decodeJwtPayload token = None) as Hnull.
  { unfold decodeJwtPayload. pose proof (split_length 46 token) as Hlen.
    destruct (split 46 token) as [|a [|b [|c [|d rest]]]]; try reflexivity.
    cbn [length] in Hlen. lia. }
  unfold isTokenExpired, isTokenExpiringSoon, getTokenTimeRemaining, expOf.
  rewrite Hnull. repeat split; reflexivity.
Qed.

(** X26.  The three expiry checks agree: a token is expired exactly when
    its remaining time is negative; for a threshold that is not negative it
    is expiring soon exactly when its remaining time is below the threshold;
    hence an expired token is always expiring soon. *)
Theorem token_expiry_checks_agree (token : jsstring) (thresholdSeconds now : Z) :
  isTokenExpired token now = (getTokenTimeRemaining token now <? 0) /\
  (0 <= thresholdSeconds ->
   isTokenExpiringSoon token thresholdSeconds now
   = (getTokenTimeRemaining token now <? thresholdSeconds)) /\
  (0 <= thresholdSeconds ->
   isTokenExpired token now = true ->
   isTokenExpiringSoon token thresholdSeconds now = true).
Proof.
  unfold isTokenExpired, isTokenExpiringSoon, getTokenTimeRemaining.
  destruct (expOf token) as [exp|].
  - repeat split.
    + destruct (Z.ltb_spec exp (now / 1000)), (Z.ltb_spec (exp - now / 1000) 0); lia.
    + intros Hth Hexp. apply Z.ltb_lt in Hexp. apply Z.ltb_lt. lia.
  - repeat split.
    + intros Hth. symmetry. apply Z.ltb_lt. lia.
Qed.

End JwtFacts.

(** ** The stored credentials and the helpers over them *)

Section StorageFacts.
Import Storage AuthHelpers.
Context {host : Host} {buffers : BufferHost} {fs : FileSystem} {env : PluginAuth.RefreshEnv}.

Lemma truthy_orUndefined (value : option jsstring) :
  truthyString (orUndefined value) = true -> orUndefined value = value.
Proof. unfold orUndefined. destruct (truthyString value); [reflexivity|discriminate]. Qed.

(** What a getter answers is not empty. *)
Lemma getAccessToken_truthy (m : Manager) (t : jsstring) :
  fst (getAccessToken m) = Some t -> t <> [].
Proof.
  unfold getAccessToken.
  destruct (truthyString (cachedAccessToken m)) eqn:Hc.
  - cbn. intros E. rewrite E in Hc. destruct t; [discriminate|discriminate].
  - destruct (readAuthData m) as [[d|] m1]; [|discriminate].
    destruct (truthyString (accessToken d)) eqn:Hd; [|discriminate].
    cbn. intros E. rewrite E in Hd. destruct t; discriminate.
Qed.

Lemma getRefreshToken_truthy (m : Manager) (t : jsstring) :
  fst (getRefreshToken m) = Some t -> t <> [].
Proof.
  unfold getRefreshToken.
  destruct (truthyString (cachedRefreshToken m)) eqn:Hc.
  - cbn. intros E. rewrite E in Hc. destruct t; [discriminate|discriminate].
  - destruct (readAuthData m) as [[d|] m1]; [|discriminate].
    destruct (truthyString (refreshToken d)) eqn:Hd; [|discriminate].
    cbn. intros E. rewrite E in Hd. destruct t; discriminate.
Qed.

Lemma setAuthentication_ok (a r : jsstring) (k : option jsstring) (m m' : Manager) :
  setAuthentication a r k m = (Ok tt, m') ->
  m' = {| authFile := Some {| accessToken := Some a; refreshToken := Some r; apiKey := k |};
          cachedAccessToken := Some a; cachedRefreshToken := Some r; cachedApiKey := k;
          fsCalls := S (fsCalls m) |}.
Proof.
  unfold setAuthentication, writeAuthData.
  destruct (writeFile_rejects (fsCalls m)) as [[e cut]|]; [discriminate|].
  intros [= <-]. reflexivity.
Qed.

Lemma getAccessToken_stored (a r k : option jsstring) (n : nat) :
  fst (getAccessToken
         {| authFile := Some {| accessToken := a; refreshToken := r; apiKey := k |};
            cachedAccessToken := a; cachedRefreshToken := r; cachedApiKey := k;
            fsCalls := n |}) = orUndefined a.
Proof.
  unfold getAccessToken, orUndefined; cbn.
  destruct (truthyString a) eqn:Ha; [reflexivity|].
  unfold readAuthData; cbn. destruct (readFile_rejects n); cbn; [reflexivity|].
  rewrite Ha. reflexivity.
Qed.

Lemma getRefreshToken_stored (a r k : option jsstring) (n : nat) :
  fst (getRefreshToken
         {| authFile := Some {| accessToken := a; refreshToken := r; apiKey := k |};
            cachedAccessToken := a; cachedRefreshToken := r; cachedApiKey := k;
            fsCalls := n |}) = orUndefined r.
Proof.
  unfold getRefreshToken, orUndefined; cbn.
  destruct (truthyString r) eqn:Ha; [reflexivity|].
  unfold readAuthData; cbn. destruct (readFile_rejects n); cbn; [reflexivity|].
  rewrite Ha. reflexivity.
Qed.

Lemma getApiKey_stored (a r k : option jsstring) (n : nat) :
  fst (getApiKey
         {| authFile := Some {| accessToken := a; refreshToken := r; apiKey := k |};
            cachedAccessToken := a; cachedRefreshToken := r; cachedApiKey := k;
            fsCalls := n |}) = orUndefined k.
Proof.
  unfold getApiKey, orUndefined; cbn.
  destruct (truthyString k) eqn:Ha; [reflexivity|].
  unfold readAuthData; cbn. destruct (readFile_rejects n); cbn; [reflexivity|].
  rewrite Ha. reflexivity.
Qed.

(** X27.  What [setAuthentication] has stored is what the getters answer
    afterwards, whatever the manager held before and whether or not the file
    can be read: each of the three values when it is not empty, and nothing
    for an empty or missing one; [getAllCredentials] answers the same three.
    When the write fails, [setAuthentication] throws and the cached values are
    as before. *)
Theorem stored_credentials_round_trip (a r : jsstring) (k : option jsstring)
    (m m' : Manager) :
  (setAuthentication a r k m = (Ok tt, m') ->
   fst (getAccessToken m') = orUndefined (Some a) /\
   fst (getRefreshToken m') = orUndefined (Some r) /\
   fst (getApiKey m') = orUndefined k /\
   fst (getAllCredentials m')
   = {| accessToken := orUndefined (Some a); refreshToken := orUndefined (Some r);
        apiKey := orUndefined k |}) /\
  (forall e,
      setAuthentication a r k m = (Throw e, m') ->
      cachedAccessToken m' = cachedAccessToken m /\
      cachedRefreshToken m' = cachedRefreshToken m /\
      cachedApiKey m' = cachedApiKey m).
Proof.
  split.
  - intros Hset. apply setAuthentication_ok in Hset. subst m'.
    rewrite getAccessToken_stored, getRefreshToken_stored, getApiKey_stored.
    repeat split; reflexivity.
  - intros e. unfold setAuthentication, writeAuthData.
    destruct (writeFile_rejects (fsCalls m)) as [[e' cut]|]; [|discriminate].
    intros [= _ <-]. repeat split; reflexivity.
Qed.

Lemma cacheFollowsFile_read (m : Manager) (data : StoredCredentials) (m1 : Manager) :
  readAuthData m = (Some data, m1) -> m1 = called m /\ authFile m = Some data.
Proof.
  unfold readAuthData. destruct (readFile_rejects (fsCalls m)); [discriminate|].
  intros [= Hd <-]. auto.
Qed.

Lemma readAuthData_state (m : Manager) : snd (readAuthData m) = called m.
Proof. unfold readAuthData. destruct (readFile_rejects (fsCalls m)); reflexivity. Qed.

Lemma getAccessToken_follows (m : Manager) :
  cacheFollowsFile m ->
  cacheFollowsFile (snd (getAccessToken m)) /\
  authFile (snd (getAccessToken m)) = authFile m /\
  forall t, fst (getAccessToken m) = Some t ->
            exists data, authFile m = Some data /\ accessToken data = Some t.
Proof.
  intros (Ha & Hr & Hk). unfold getAccessToken.
  destruct (truthyString (cachedAccessToken m)) eqn:Hc.
  - cbn. split; [exact (conj Ha (conj Hr Hk))|]. split; [reflexivity|].
    intros t E. destruct (Ha Hc) as (d & Hd & Hf). exists d. split; [exact Hd|congruence].
  - destruct (readAuthData m) as [[d|] m1] eqn:Hread.
    + apply cacheFollowsFile_read in Hread as [-> Hfile].
      destruct (truthyString (accessToken d)) eqn:Hd; cbn.
      * split; [|split; [reflexivity|]].
        -- repeat split; intros _; exists d; auto.
        -- intros t E. exists d. auto.
      * split; [exact (conj Ha (conj Hr Hk))|]. split; [reflexivity|]. discriminate.
    + pose proof (readAuthData_state m) as Hs. rewrite Hread in Hs. cbn in Hs. subst m1.
      cbn. split; [exact (conj Ha (conj Hr Hk))|]. split; [reflexivity|]. discriminate.
Qed.

Lemma getRefreshToken_follows (m : Manager) :
  cacheFollowsFile m ->
  cacheFollowsFile (snd (getRefreshToken m)) /\
  authFile (snd (getRefreshToken m)) = authFile m /\
  forall t, fst (getRefreshToken m) = Some t ->
            exists data, authFile m = Some data /\ refreshToken data = Some t.
Proof.
  intros (Ha & Hr & Hk). unfold getRefreshToken.
  destruct (truthyString (cachedRefreshToken m)) eqn:Hc.
  - cbn. split; [exact (conj Ha (conj Hr Hk))|]. split; [reflexivity|].
    intros t E. destruct (Hr Hc) as (d & Hd & Hf). exists d. split; [exact Hd|congruence].
  - destruct (readAuthData m) as [[d|] m1] eqn:Hread.
    + apply cacheFollowsFile_read in Hread as [-> Hfile].
      destruct (truthyString (refreshToken d)) eqn:Hd; cbn.
      * split; [|split; [reflexivity|]].
        -- repeat split; intros _; exists d; auto.
        -- intros t E. exists d. auto.
      * split; [exact (conj Ha (conj Hr Hk))|]. split; [reflexivity|]. discriminate.
    + pose proof (readAuthData_state m) as Hs. rewrite Hread in Hs. cbn in Hs. subst m1.
      cbn. split; [exact (conj Ha (conj Hr Hk))|]. split; [reflexivity|]. discriminate.
Qed.

Lemma getApiKey_follows (m : Manager) :
  cacheFollowsFile m ->
  cacheFollowsFile (snd (getApiKey m)) /\
  authFile (snd (getApiKey m)) = authFile m /\
  forall t, fst (getApiKey m) = Some t ->
            exists data, authFile m = Some data /\ apiKey data = Some t.
Proof.
  intros (Ha & Hr & Hk). unfold getApiKey.
  destruct (truthyString (cachedApiKey m)) eqn:Hc.
  - cbn. split; [exact (conj Ha (conj Hr Hk))|]. split; [reflexivity|].
    intros t E. destruct (Hk Hc) as (d & Hd & Hf). exists d. split; [exact Hd|congruence].
  - destruct (readAuthData m) as [[d|] m1] eqn:Hread.
    + apply cacheFollowsFile_read in Hread as [-> Hfile].
      destruct (truthyString (apiKey d)) eqn:Hd; cbn.
      * split; [|split; [reflexivity|]].
        -- split; [exact Ha|]. split; [exact Hr|]. intros _; exists d; auto.
        -- intros t E. exists d. auto.
      * split; [exact (conj Ha (conj Hr Hk))|]. split; [reflexivity|]. discriminate.
    + pose proof (readAuthData_state m) as Hs. rewrite Hread in Hs. cbn in Hs. subst m1.
      cbn. split; [exact (conj Ha (conj Hr Hk))|]. split; [reflexivity|]. discriminate.
Qed.

Lemma getAllCredentials_follows (m : Manager) :
  cacheFollowsFile m -> cacheFollowsFile (snd (getAllCredentials m)).
Proof.
  intros (Ha & Hr & Hk). unfold getAllCredentials.
  assert (Hread : cacheFollowsFile
            (snd (let (authData, m0) := readAuthData m in
                  match authData with
                  | Some data =>
                    (data, set_cached (orUndefined (accessToken data))
                             (orUndefined (refreshToken data))
                             (orUndefined (apiKey data)) m0)
                  | None => ({| accessToken := None; refreshToken := None; apiKey := None |},
                             m0)
                  end))).
  { destruct (readAuthData m) as [[d|] m1] eqn:Hread.
    - apply cacheFollowsFile_read in Hread as [-> Hfile]. cbn.
      repeat split; intros Ht; exists d; (split; [exact Hfile|]);
        symmetry; apply truthy_orUndefined, Ht.
    - pose proof (readAuthData_state m) as Hs. rewrite Hread in Hs. cbn in Hs. subst m1.
      exact (conj Ha (conj Hr Hk)). }
  pose proof (conj Ha (conj Hr Hk) : cacheFollowsFile m) as Hm. clear Ha Hr Hk.
  destruct (cachedAccessToken m) eqn:Eaccess; [|exact Hread].
  destruct (cachedRefreshToken m) eqn:Erefresh; [|exact Hread].
  exact Hm.
Qed.

Lemma setAuthentication_follows (a r : jsstring) (k : option jsstring) (m : Manager) :
  (forall e, writeFile_rejects (fsCalls m) <> Some (e, true)) ->
  cacheFollowsFile m -> cacheFollowsFile (snd (setAuthentication a r k m)).
Proof.
  intros Hcut (Ha & Hr & Hk). unfold setAuthentication, writeAuthData.
  destruct (writeFile_rejects (fsCalls m)) as [[e [|]]|] eqn:Hw; cbn.
  - destruct (Hcut e eq_refl).
  - exact (conj Ha (conj Hr Hk)).
  - repeat split; intros _; eexists; (split; [reflexivity|reflexivity]).
Qed.

Lemma clearAuthentication_follows (m : Manager) :
  cacheFollowsFile m -> cacheFollowsFile (snd (clearAuthentication m)).
Proof.
  intros Hm. unfold clearAuthentication.
  destruct (unlink_rejects (fsCalls m)); cbn; [exact Hm|].
  repeat split; intros Ht; discriminate Ht.
Qed.

(** X28.  The cache follows the file.  A new manager has nothing cached;
    and as long as no failing write cuts the file short, every method keeps
    that a cached value in use is the value the file holds, so that every
    token or key a getter answers is the one in the file. *)
Theorem cache_follows_the_file :
  (forall file, cacheFollowsFile (newManager file)) /\
  (forall m,
      (forall n e, writeFile_rejects n <> Some (e, true)) ->
      cacheFollowsFile m ->
      (forall a r k, cacheFollowsFile (snd (setAuthentication a r k m))) /\
      cacheFollowsFile (snd (getAccessToken m)) /\
      cacheFollowsFile (snd (getRefreshToken m)) /\
      cacheFollowsFile (snd (getApiKey m)) /\
      cacheFollowsFile (snd (getAllCredentials m)) /\
      cacheFollowsFile (snd (clearAuthentication m)) /\
      cacheFollowsFile (clearCache m) /\
      (forall t, fst (getAccessToken m) = Some t ->
                 exists data, authFile m = Some data /\ accessToken data = Some t) /\
      (forall t, fst (getRefreshToken m) = Some t ->
                 exists data, authFile m = Some data /\ refreshToken data = Some t) /\
      (forall t, fst (getApiKey m) = Some t ->
                 exists data, authFile m = Some data /\ apiKey data = Some t)).
Proof.
  split; [intros file; repeat split; intros Ht; discriminate Ht|].
  intros m Hcut Hm.
  split; [intros a r k; apply setAuthentication_follows; [intros e; apply Hcut|exact Hm]|].
  split; [apply getAccessToken_follows, Hm|].
  split; [apply getRefreshToken_follows, Hm|].
  split; [apply getApiKey_follows, Hm|].
  split; [apply getAllCredentials_follows, Hm|].
  split; [apply clearAuthentication_follows, Hm|].
  split; [repeat split; intros Ht; discriminate Ht|].
  split; [apply getAccessToken_follows, Hm|].
  split; [apply getRefreshToken_follows, Hm|apply getApiKey_follows, Hm].
Qed.

(** X29.  [getValidAccessToken] answers the stored access token, without
    asking for a refresh or writing, when that token is not expiring within
    300 seconds; it answers [null] only when no access token is stored; and
    when it answers a token other than the stored one, the token has been
    written to the file together with a new refresh token and without an API
    key: the access token is answered from then on and the API key that was
    stored is gone. *)
Theorem getValidAccessToken_outcomes (m : Manager) :
  (forall token,
      fst (getAccessToken m) = Some token ->
      Jwt.isTokenExpiringSoon token 300 PluginAuth.Date_now = false ->
      getValidAccessToken m = (Ok (Some token), snd (getAccessToken m))) /\
  (forall m', getValidAccessToken m = (Ok None, m') -> fst (getAccessToken m) = None) /\
  (forall token m',
      getValidAccessToken m = (Ok (Some token), m') ->
      fst (getAccessToken m) <> Some token ->
      (exists newRefreshToken,
          authFile m' = Some {| accessToken := Some token;
                                refreshToken := Some newRefreshToken;
                                apiKey := None |}) /\
      fst (getAccessToken m') = orUndefined (Some token) /\
      fst (getApiKey m') = None).
Proof.
  split; [|split].
  - intros token Htoken Hfresh. unfold getValidAccessToken.
    pose proof (getAccessToken_truthy m token Htoken) as Hne.
    destruct (getAccessToken m) as [stored m1]. cbn in Htoken |- *. subst stored.
    destruct token as [|c t]; [destruct (Hne eq_refl)|].
    rewrite Hfresh. reflexivity.
  - intros m'. unfold getValidAccessToken.
    destruct (getAccessToken m) as [stored m1]. cbn [fst].
    destruct (match stored with
              | Some (c :: t) =>
                negb (Jwt.isTokenExpiringSoon (c :: t) 300 PluginAuth.Date_now)
              | _ => false
              end).
    + intros [= ->]. reflexivity.
    + destruct (getRefreshToken m1) as [[[|c t]|] m2]; try (intros [= ->]; reflexivity).
      destruct (PluginAuth.refreshAccessToken (c :: t)) as [[[a' r']|]|e];
        try (intros [= ->]; reflexivity); try discriminate.
      destruct (setAuthentication a' r' None m2) as [[[]|e] m3]; discriminate.
  - intros token m'. unfold getValidAccessToken.
    destruct (getAccessToken m) as [stored m1]. cbn [fst].
    destruct (match stored with
              | Some (c :: t) =>
                negb (Jwt.isTokenExpiringSoon (c :: t) 300 PluginAuth.Date_now)
              | _ => false
              end).
    + intros [= -> _] Hother. destruct (Hother eq_refl).
    + destruct (getRefreshToken m1) as [[[|c t]|] m2];
        try (intros [= -> _] Hother; destruct (Hother eq_refl)).
      destruct (PluginAuth.refreshAccessToken (c :: t)) as [[[a' r']|]|e];
        try (intros [= -> _] Hother; destruct (Hother eq_refl)); try discriminate.
      destruct (setAuthentication a' r' None m2) as [[[]|e] m3] eqn:Hset; [|discriminate].
      intros [= -> ->] _. apply setAuthentication_ok in Hset. subst m'.
      rewrite getAccessToken_stored, getApiKey_stored.
      split; [exists r'; reflexivity|]. split; reflexivity.
Qed.

(** X30.  After [authenticateWithToken] has stored a token, the user is
    authenticated exactly when the token is not empty and not expired, and
    there is no refresh token to refresh it with.  After [clearCredentials]
    the user is not authenticated and no credentials are answered. *)
Theorem isAuthenticated_follows_the_store (m m' : Manager) :
  (forall token,
      authenticateWithToken token m = (Ok tt, m') ->
      fst (isAuthenticated m')
      = (if decide (token = []) then false
         else negb (Jwt.isTokenExpired token PluginAuth.Date_now)) /\
      fst (getRefreshToken m') = None) /\
  (clearCredentials m = (Ok tt, m') ->
   fst (isAuthenticated m') = false /\
   fst (getStoredCredentials m')
   = {| accessToken := None; refreshToken := None; apiKey := None |}).
Proof.
  split.
  - intros token Hset. unfold authenticateWithToken in Hset.
    apply setAuthentication_ok in Hset. subst m'.
    rewrite getRefreshToken_stored. split; [|reflexivity].
    unfold isAuthenticated.
    pose proof (getAccessToken_stored (Some token) (Some []) None (S (fsCalls m))) as Hget.
    destruct (getAccessToken _) as [stored m1]. cbn in Hget. subst stored.
    destruct token as [|c t]; reflexivity.
  - unfold clearCredentials, clearAuthentication, getStoredCredentials.
    destruct (unlink_rejects (fsCalls m)); [discriminate|]. intros [= <-].
    unfold isAuthenticated, getAccessToken, getAllCredentials, readAuthData; cbn.
    destruct (readFile_rejects (S (fsCalls m))); split; reflexivity.
Qed.

End StorageFacts.

(** ** The further properties on concrete inputs *)

Section FurtherExamples.
Import AgentService.

Lemma blob_store_round_trip_witness :
  let st1 := snd (@handleKvMessage Reference.decoders Reference.host silent
                    storeBlob (js "request-1") 1 newClient) in
  let st2 := snd (@handleKvMessage Reference.decoders Reference.host silent
                    fetchBlob (js "request-1") 2 st1) in
  wire st2 =
    wire st1 ++
    [{| ap_requestId := js "request-1"; append_seqno := 2;
        ap_data := Kv.buildAgentClientMessageWithKv
                     (Kv.buildKvClientMessage 2 Kv.get_blob_result
                        (Codec.encodeMessageField 1 [0xff; 0xfe])) |}].
Proof.
  refine (proj1 (@blob_store_round_trip Reference.decoders Reference.host silent
                   storeBlob fetchBlob [0x01; 0x02] [0x01; 0x02] [0xff; 0xfe]
                   (js "request-1") (js "request-1") 1 2 newClient _ _ _ _
                   eq_refl eq_refl eq_refl eq_refl eq_refl _ _
                   (surjective_pairing _) (surjective_pairing _))).
  - repeat constructor; lia.
  - repeat constructor; lia.
Defined.

Lemma sendResult_two_appends_witness :
  exists st',
    @sendResult silent shell_result 5 [0x08; 0x05]
      (set_currentRequestId (Some (js "request-1")) newClient)
      = (Normal tt, st')
    /\ currentAppendSeqno st' = 2.
Proof.
  destruct (@sendResult_two_appends silent shell_result 5 [0x08; 0x05] 114 (js "equest-1")
              (set_currentRequestId (Some (js "request-1")) newClient)
              eq_refl eq_refl eq_refl) as (st' & Hrun & _ & Hseqno & _).
  exists st'. split; [exact Hrun|]. rewrite Hseqno. reflexivity.
Defined.

Lemma sendResult_refused_witness :
  @sendResult silent read_result 5 [0x08; 0x05] newClient
  = (Thrown (PlainError (js "No active chat stream - cannot send read result")), newClient).
Proof.
  exact (proj1 (@sendResult_refused silent read_result 5 [0x08; 0x05] newClient) eq_refl).
Defined.

Lemma field_errors_become_chunks_witness :
  exists st',
    @onMessage Reference.decoders Reference.host silent (js "request-1")
      (Reference.textFrame (js "hi")) newClient = (Normal tt, st') \/
    @onMessage Reference.decoders Reference.host silent (js "request-1")
      (Reference.textFrame (js "hi")) newClient = (Returned, st').
Proof.
  apply (proj1 (@field_errors_become_chunks Reference.decoders Reference.host silent
                  (js "request-1") (Reference.textFrame (js "hi")) newClient)
           [{| fieldNumber := 1; wireType := 2;
               value := PVBytes (Codec.encodeMessageField 1
                                   (Codec.encodeStringField 1 (js "hi"))) |}]).
  vm_compute. reflexivity.
Defined.

Lemma chatStream_early_failures_witness :
  yielded (snd (@chatStream Reference.decoders Reference.host silent
                  (js "request-1") [0x0a; 0x00] NoBody newClient))
  = [error_chunk (js "No response body from SSE stream")].
Proof.
  exact (proj1 (proj1 (proj2 (proj2 (@chatStream_early_failures Reference.decoders
                                       Reference.host silent (js "request-1")
                                       [0x0a; 0x00] newClient) eq_refl)))).
Defined.

Lemma done_is_last_witness :
  exists st',
    @streamLoop Reference.decoders Reference.host silent (js "request-1")
      [[Reference.textFrame (js "hi")]; [Reference.turnEndedFrame]] EndOfStream newClient
      = (Normal tt, st')
    /\ last (yielded st') = Some done.
Proof.
  eexists. split; [vm_compute; reflexivity|].
  apply (@done_is_last Reference.decoders Reference.host silent (js "request-1")
           [[Reference.textFrame (js "hi")]; [Reference.turnEndedFrame]] EndOfStream
           newClient).
  vm_compute. reflexivity.
Defined.

Lemma trailer_edge_cases_witness :
  @framesLoop Reference.decoders Reference.host silent (js "request-1")
    [Reference.trailerFrame (js "grpc-status: 0")] newClient
  = @framesLoop Reference.decoders Reference.host silent (js "request-1") [] newClient.
Proof.
  refine (proj1 (@trailer_edge_cases Reference.decoders Reference.host silent
                   (js "request-1") (Reference.trailerFrame (js "grpc-status: 0")) []
                   newClient eq_refl) _).
  right. vm_compute. reflexivity.
Defined.

Lemma turn_end_and_heartbeat_flags_witness :
  exists parsed,
    @parseInteractionUpdate Reference.decoders Reference.host
      (Codec.encodeMessageField 14 []) = Ok parsed
    /\ isComplete parsed = true /\ isHeartbeat parsed = false.
Proof.
  eexists. split; [vm_compute; reflexivity|].
  apply (@turn_end_and_heartbeat_flags Reference.decoders Reference.host
           (Codec.encodeMessageField 14 [])
           [{| fieldNumber := 14; wireType := 2; value := PVBytes [] |}]).
  - vm_compute. reflexivity.
  - vm_compute. reflexivity.
Defined.

Lemma kv_replies_in_sequence_witness :
  seqnosSince 0
    (snd (@chatStream Reference.decoders Reference.host silent (js "request-1")
            [0x0a; 0x00] (Body recoveryReads EndOfStream) newClient))
  = [0; 1; 2].
Proof.
  refine (eq_trans
            (@kv_replies_in_sequence Reference.decoders Reference.host silent
               (js "request-1") [0x0a; 0x00] recoveryReads EndOfStream newClient _ _
               _ _ (surjective_pairing _)) _).
  - intros history. reflexivity.
  - intros n. reflexivity.
  - vm_compute. reflexivity.
Defined.

End FurtherExamples.

Section BridgeExamples.
Import SessionReuse SessionTools.

Lemma unknown_tool_results_ignored_witness :
  @sendToolResultsToCursor Reference.host Reference.bridgeEnv readingSession [strayMessage]
  = (false, {| session := readingSession; calls := []; processedAny := false |}).
Proof.
  apply (@unknown_tool_results_ignored Reference.host Reference.bridgeEnv).
  intros m key [<-|[]] [= <-]. vm_compute. reflexivity.
Defined.

Lemma sendToolResults_outcome_witness :
  state (session (snd (@sendToolResultsToCursor Reference.host Reference.bridgeEnv
                         readingSession [plainMessage]))) = running.
Proof.
  refine (proj1 (proj1 (proj2 (proj2 (proj2
            (@sendToolResults_outcome Reference.host Reference.bridgeEnv
               readingSession [plainMessage])))) _)).
  vm_compute. reflexivity.
Defined.

Lemma failed_result_stops_the_bridge_witness :
  @sendToolResultsToCursor Reference.host rejectingBridge readingSession
    [plainMessage; strayMessage]
  = (false,
     {| session := readingSession;
        calls := [readReply 1 None (js "line one") (js "/tmp/cafe.txt") 8];
        processedAny := false |}).
Proof.
  refine (proj1 (@failed_result_stops_the_bridge Reference.host rejectingBridge
                   readingSession plainMessage [strayMessage] (js "sess_ab12__call_r1")
                   (ReadExec 1 None (js "/tmp/cafe.txt")) eq_refl _ _) _ eq_refl eq_refl).
  - discriminate.
  - vm_compute. reflexivity.
Defined.

Lemma offered_tools_are_answered_witness :
  @toolResultCall Reference.host Reference.bridgeEnv (RequestContextExec 1 None) (js "ok")
  = None.
Proof.
  exact (proj1 (@offered_tools_are_answered Reference.host Reference.bridgeEnv
                  (RequestContextExec 1 None) (js "ok")) eq_refl).
Defined.

End BridgeExamples.

Section CredentialExamples.
Import Plugin PluginAuth.

Lemma refreshed_credential_witness :
  exists accessToken newRefreshToken,
    @refreshAccessToken refreshing (js "old-refresh")
      = Ok (Some (accessToken, newRefreshToken)) /\
    parseRefreshParts
      (refresh {| refresh := js "new-refresh|key-1"; access := Some (js "new-access");
                  expires := Some (1700000000000 + 3600 * 1000) |})
    = (newRefreshToken, Some (js "key-1")).
Proof.
  destruct (proj2 (@refreshed_credential Reference.host emptyBuffers refreshing
                     storedCredential)
              {| refresh := js "new-refresh|key-1"; access := Some (js "new-access");
                 expires := Some (1700000000000 + 3600 * 1000) |}
              [{| refresh := js "new-refresh|key-1"; access := Some (js "new-access");
                  expires := Some (1700000000000 + 3600 * 1000) |}])
    as (accessToken & newRefreshToken & Hanswer & _ & _ & Hparts & _).
  - vm_compute. reflexivity.
  - exists accessToken, newRefreshToken. split; [exact Hanswer|].
    rewrite Hparts; [reflexivity|].
    vm_compute in Hanswer. injection Hanswer as _ <-. repeat constructor; discriminate.
Defined.

Lemma malformed_token_counts_as_expired_witness :
  @Jwt.isTokenExpired Reference.host emptyBuffers (js "not-a-token") 0 = true.
Proof.
  refine (proj1 (proj2 (@malformed_token_counts_as_expired Reference.host emptyBuffers
                          (js "not-a-token") 300 0 _))).
  vm_compute. discriminate.
Defined.

Lemma token_expiry_checks_agree_witness :
  @Jwt.isTokenExpiringSoon Reference.host emptyBuffers (js "a.b.c") 300 0
  = (@Jwt.getTokenTimeRemaining Reference.host emptyBuffers (js "a.b.c") 0 <? 300).
Proof.
  refine (proj1 (proj2 (@token_expiry_checks_agree Reference.host emptyBuffers
                          (js "a.b.c") 300 0)) _).
  lia.
Defined.

End CredentialExamples.

Section StorageExamples.
Import Storage AuthHelpers.

Lemma stored_credentials_round_trip_witness :
  let m' := snd (@setAuthentication reliableDisk (js "head.claims.sig") (js "refresh-1")
                   (Some []) (newManager None)) in
  fst (@getAccessToken reliableDisk m') = Some (js "head.claims.sig") /\
  fst (@getApiKey reliableDisk m') = None.
Proof.
  destruct (proj1 (@stored_credentials_round_trip reliableDisk (js "head.claims.sig")
                     (js "refresh-1") (Some []) (newManager None)
                     (snd (@setAuthentication reliableDisk (js "head.claims.sig")
                             (js "refresh-1") (Some []) (newManager None)))))
    as (Haccess & _ & Hkey & _).
  - vm_compute. reflexivity.
  - split; [exact Haccess|exact Hkey].
Defined.

Lemma cache_follows_the_file_witness :
  cacheFollowsFile (snd (@getAccessToken reliableDisk (newManager (Some storedLogin)))).
Proof.
  refine (proj1 (proj2 (proj2 (@cache_follows_the_file reliableDisk)
                          (newManager (Some storedLogin)) _ _))).
  - intros n e. discriminate.
  - apply (proj1 (@cache_follows_the_file reliableDisk)).
Defined.

Lemma getValidAccessToken_outcomes_witness :
  @getValidAccessToken claimsHost emptyBuffers reliableDisk refreshing
    (newManager (Some storedLogin))
  = (Ok (Some (js "head.claims.sig")),
     snd (@getAccessToken reliableDisk (newManager (Some storedLogin)))).
Proof.
  apply (proj1 (@getValidAccessToken_outcomes claimsHost emptyBuffers reliableDisk
                  refreshing (newManager (Some storedLogin)))).
  - vm_compute. reflexivity.
  - vm_compute. reflexivity.
Defined.

Lemma isAuthenticated_follows_the_store_witness :
  fst (@isAuthenticated claimsHost emptyBuffers reliableDisk refreshing
         (snd (@authenticateWithToken reliableDisk (js "head.claims.sig")
                 (newManager None)))) = true.
Proof.
  refine (proj1 (proj1 (@isAuthenticated_follows_the_store claimsHost emptyBuffers
                          reliableDisk refreshing (newManager None)
                          (snd (@authenticateWithToken reliableDisk (js "head.claims.sig")
                                  (newManager None))))
                   (js "head.claims.sig") _)).
  vm_compute. reflexivity.
Defined.

End StorageExamples.
